(** * Credential lifecycle of clippy: src/lib/auth.ts and validateSession

    A shallow embedding of the token cache, the expiry decoding, the
    cross-process lock, the browser extractor, the keepalive loop and the
    auth resolver, followed by the properties proved about them.

    Conventions of the model.
    - JavaScript numbers are either [NaN] or an integer ([Z]); clock
      readings, JWT [exp] claims and [expiresAt] are integers in practice.
      Sums and differences are exact, as double arithmetic is on integers
      of magnitude up to 2^53; the product of line 93 is rounded to the
      nearest double.
    - Strings are sequences of 8-bit characters.
    - Every [await]ed external call (file system, clock, browser, network)
      is an operation of the monad [M], which threads a [World] and can
      throw.  The clock moves only when the code sleeps or drives the
      browser. *)

From Stdlib Require Import ZArith List String Ascii Bool Lia DecimalString DecimalPos.
Import ListNotations.
Local Open Scope string_scope.
Local Open Scope Z_scope.

Set Implicit Arguments.

(* ================================================================= *)
(** ** JavaScript values *)

Inductive JsNum : Type :=
| NaN
| Num (z : Z).

#[warnings="-register-all"]
Inductive JsValue : Type :=
| JUndefined
| JNull
| JBool (b : bool)
| JNumber (n : JsNum)
| JString (s : string)
| JArray (items : list JsValue)
| JObject (fields : list (string * JsValue)).

(** What the code can throw. *)
Inductive Exn : Type :=
| EEXIST                       (* exclusive create on an existing file *)
| ENOENT                       (* file to read or unlink is missing *)
| EFAULT (what : string)       (* any other file-system error *)
| SyntaxError                  (* JSON.parse *)
| TypeError                    (* property read on null or undefined *)
| BrowserError (msg : string)  (* an Error raised by the browser driver *)
| NonError.                    (* a thrown value that is not an Error *)

(** Outcome of a pure computation: a value or an exception. *)
Inductive Try (A : Type) : Type :=
| Val (a : A)
| Raised (e : Exn).

Arguments Val {A} a.
Arguments Raised {A} e.

(** Outcome of running effectful code: a value, an exception, or the
    model's loop bound was reached. *)
Inductive Result (A : Type) : Type :=
| Ok (a : A)
| Throw (e : Exn)
| OutOfFuel.

Arguments Ok {A} a.
Arguments Throw {A} e.
Arguments OutOfFuel {A}.

(** The parts of the JavaScript runtime the code calls and that are not
    code of the repository. *)
Class JsRuntime : Type := {
  (* Buffer.from(s, 'base64url').toString() *)
  base64url_decode : string -> string;
  (* JSON.parse; [None] is a SyntaxError *)
  JSON_parse : string -> option JsValue;
  JSON_stringify : JsValue -> string;
  (* ToNumber on a string, and on an array or object *)
  string_to_number : string -> JsNum;
  object_to_number : JsValue -> JsNum;
  (* ToString on an array or object *)
  object_to_string : JsValue -> string
}.

(* ----------------------------------------------------------------- *)
(** *** Numbers *)

Definition js_sub (a b : JsNum) : JsNum :=
  match a, b with
  | Num x, Num y => Num (x - y)
  | _, _ => NaN
  end.

(** The double nearest to the integer [z], ties to even: the 53 leading
    bits of [z] are kept.  Integers of magnitude up to 2^53 are doubles;
    magnitudes beyond the largest double are not modelled. *)
Definition round_double (z : Z) : Z :=
  let a := Z.abs z in
  let e := Z.log2 a - 52 in
  if e <=? 0 then z
  else
    let q := Z.shiftr a e in
    let r := a - Z.shiftl q e in
    let half := Z.shiftl 1 (e - 1) in
    let q' := if (half <? r) || ((r =? half) && Z.odd q) then q + 1 else q in
    Z.sgn z * Z.shiftl q' e.

(** [a * b]: the product of two doubles is the double nearest to the
    exact product. *)
Definition js_mul (a b : JsNum) : JsNum :=
  match a, b with
  | Num x, Num y => Num (round_double (x * y))
  | _, _ => NaN
  end.

(** Comparisons with NaN are false. *)
Definition js_gt (a b : JsNum) : bool :=
  match a, b with
  | Num x, Num y => y <? x
  | _, _ => false
  end.

Definition js_lt (a b : JsNum) : bool :=
  match a, b with
  | Num x, Num y => x <? y
  | _, _ => false
  end.

Definition js_le (a b : JsNum) : bool :=
  match a, b with
  | Num x, Num y => x <=? y
  | _, _ => false
  end.

Definition num_truthy (n : JsNum) : bool :=
  match n with
  | NaN => false
  | Num z => negb (z =? 0)
  end.

Definition str_truthy (s : string) : bool :=
  match s with
  | EmptyString => false
  | String _ _ => true
  end.

(** Truthiness of an optional string ([undefined], [null] and the empty
    string are falsy). *)
Definition opt_truthy (o : option string) : bool :=
  match o with
  | None => false
  | Some s => str_truthy s
  end.

Definition truthy (v : JsValue) : bool :=
  match v with
  | JUndefined | JNull => false
  | JBool b => b
  | JNumber n => num_truthy n
  | JString s => str_truthy s
  | JArray _ | JObject _ => true
  end.

Definition default {A : Type} (d : A) (o : option A) : A :=
  match o with
  | Some a => a
  | None => d
  end.

(* ----------------------------------------------------------------- *)
(** *** Strings *)

Definition Z_to_string (z : Z) : string :=
  NilZero.string_of_int (Z.to_int z).

Definition num_to_string (n : JsNum) : string :=
  match n with
  | NaN => "NaN"
  | Num z => Z_to_string z
  end.

(** [s.split('.')] *)
Fixpoint split_dot (s : string) : list string :=
  match s with
  | EmptyString => [EmptyString]
  | String c r =>
      if Ascii.eqb c "."%char then EmptyString :: split_dot r
      else match split_dot r with
           | h :: t => String c h :: t
           | [] => [String c EmptyString]
           end
  end.

Fixpoint has_dot (s : string) : bool :=
  match s with
  | EmptyString => false
  | String c r => Ascii.eqb c "."%char || has_dot r
  end.

(** [s.startsWith(p)] *)
Definition startsWith (s p : string) : bool := String.prefix p s.

(** [s.includes(p)] *)
Fixpoint includes (s p : string) : bool :=
  String.prefix p s ||
  match s with
  | EmptyString => false
  | String _ r => includes r p
  end.

Fixpoint drop (n : nat) (s : string) : string :=
  match n, s with
  | O, _ => s
  | S _, EmptyString => EmptyString
  | S k, String _ r => drop k r
  end.

(** [parseInt(s, 10)]: leading white space, an optional sign, then the
    longest run of decimal digits; NaN when there is no digit. *)
Definition is_ws (c : ascii) : bool :=
  let n := nat_of_ascii c in
  ((9 <=? n) && (n <=? 13) || (n =? 32) || (n =? 160))%nat.

Fixpoint skip_ws (s : string) : string :=
  match s with
  | EmptyString => EmptyString
  | String c r => if is_ws c then skip_ws r else s
  end.

Definition digit_val (c : ascii) : option Z :=
  let n := nat_of_ascii c in
  if ((48 <=? n) && (n <=? 57))%nat then Some (Z.of_nat (n - 48)) else None.

Fixpoint digits_acc (s : string) (acc : option Z) : option Z :=
  match s with
  | EmptyString => acc
  | String c r =>
      match digit_val c with
      | Some d =>
          digits_acc r (Some (10 * match acc with Some a => a | None => 0 end + d))
      | None => acc
      end
  end.

Definition parseInt (s : string) : JsNum :=
  let s1 := skip_ws s in
  let '(neg, s2) :=
    match s1 with
    | String "-"%char r => (true, r)
    | String "+"%char r => (false, r)
    | _ => (false, s1)
    end in
  match digits_acc s2 None with
  | None => NaN
  | Some v => Num (if neg then - v else v)
  end.

(* ----------------------------------------------------------------- *)
(** *** Property reads and coercions *)

Fixpoint lookup (k : string) (fields : list (string * JsValue)) : option JsValue :=
  match fields with
  | [] => None
  | (k', v) :: rest => if String.eqb k k' then Some v else lookup k rest
  end.

(** [v.k] for the keys the code reads ([exp], [expiresAt], [token],
    [graphToken]), none of which is a built-in property. *)
Definition get_prop (v : JsValue) (k : string) : Try JsValue :=
  match v with
  | JUndefined | JNull => Raised TypeError
  | JObject fields =>
      match lookup k fields with
      | Some x => Val x
      | None => Val JUndefined
      end
  | _ => Val JUndefined
  end.

Section Coercions.
Context {RT : JsRuntime}.

Definition to_number (v : JsValue) : JsNum :=
  match v with
  | JUndefined => NaN
  | JNull => Num 0
  | JBool b => Num (if b then 1 else 0)
  | JNumber n => n
  | JString s => string_to_number s
  | JArray _ | JObject _ => object_to_number v
  end.

(** The string a value becomes inside a template literal. *)
Definition to_string (v : JsValue) : string :=
  match v with
  | JUndefined => "undefined"
  | JNull => "null"
  | JBool b => if b then "true" else "false"
  | JNumber n => num_to_string n
  | JString s => s
  | JArray _ | JObject _ => object_to_string v
  end.
End Coercions.

(* ================================================================= *)
(** ** Expiry oracle: getJwtExpiration (auth.ts 88-97) *)

Section Expiry.
Context {RT : JsRuntime}.

(** The body of the [try] block. *)
Definition getJwtExpiration_try (token : string) : Try (option JsNum) :=
  let parts := split_dot token in
  if negb (Nat.eqb (List.length parts) 3) then Val None
  else
    match JSON_parse (base64url_decode (nth 1 parts EmptyString)) with
    | None => Raised SyntaxError
    | Some payload =>
        match get_prop payload "exp" with
        | Val exp =>
            if truthy exp
            then Val (Some (js_mul (to_number exp) (Num 1000)))
            else Val None
        | Raised e => Raised e
        end
    end.

(** [try { ... } catch { return null; }]; [None] is [null]. *)
Definition getJwtExpiration (token : string) : option JsNum :=
  match getJwtExpiration_try token with
  | Val r => r
  | Raised _ => None
  end.
End Expiry.

(* ================================================================= *)
(** ** The world outside the process *)

Inductive Path : Type :=
| LOCK_FILE          (* ~/.config/clippy/browser.lock *)
| TOKEN_CACHE_FILE   (* ~/.config/clippy/token-cache.json *)
| CONFIG_DIR         (* ~/.config/clippy *)
| PROFILE_DIR.       (* ~/.config/clippy/browser-profile *)

Inductive FsOp : Type :=
| ReadFile (p : Path)
| WriteFile (p : Path)
| Mkdir (p : Path)
| Unlink (p : Path)
| OpenWx (p : Path)      (* open(p, 'wx'): exclusive create *)
| FdWrite (p : Path)
| FdClose (p : Path).

(** An outgoing request of the page, as the ['request'] listener sees it:
    its URL and its [authorization] header. *)
Record Request : Type := {
  req_url : string;
  req_auth : option string
}.

(** One run of the page inside an open browser context. *)
Inductive BrowserRun : Type :=
| SessionThrows (seen : list Request) (elapsed : Z) (e : Exn)
    (* page.goto or a wait throws after the listener saw [seen] *)
| Completes (seen : list Request) (elapsed : Z).
    (* navigation and the capture waits ran to their end *)

Inductive FetchOutcome : Type :=
| FetchStatus (ok : bool)   (* response.ok *)
| FetchFails.               (* fetch throws *)

(** What the process cannot influence. *)
Record Env : Type := {
  (* process.env.CLIPPY_TOKEN *)
  env_CLIPPY_TOKEN : option string;
  (* the probe GET on the inbox, by time and Authorization header *)
  fetch_inbox : Z -> string -> FetchOutcome;
  (* file operations that fail for a reason other than a missing file or
     an existing lock marker *)
  fs_fault : FsOp -> bool;
  (* launchPersistentContext, by time and headless flag: the exception it
     throws, if any *)
  browser_launch : Z -> bool -> option Exn;
  (* the page from navigation to the end of the capture waits, by start
     time, headless flag and navigation timeout *)
  browser_session : Z -> bool -> Z -> BrowserRun;
  (* keepalive: the exception page.goto or page.reload throws when started
     at this time, if any, and all the requests the page has issued when
     the clock reads this time *)
  page_goto_fails : Z -> option Exn;
  page_reload_fails : Z -> option Exn;
  page_traffic : Z -> list Request
}.

Record CachedToken : Type := {
  ct_token : string;
  ct_graphToken : option string;
  ct_expiresAt : JsNum
}.

(** Calls recorded in the trace. *)
Inductive Call : Type :=
| CallGetCachedToken
| CallSetCachedToken (token : string) (graphToken : option string)
| CallAcquireLock (timeout : Z)
| CallTryExtractToken (headless : bool) (timeout : Z)
| CallExtractTokenViaPlaywright (headless : bool) (timeout : Z)
| CallBackgroundRefresh.

Inductive Event : Type :=
| EvCall (c : Call)
| EvFs (op : FsOp) (ok : bool)
| EvSleep (ms : Z)
| EvValidate (token : JsValue) (ok : bool)   (* validateSession returned *)
| EvEnvRead                                  (* process.env.CLIPPY_TOKEN *)
| EvLaunch (headless : bool)                 (* launchPersistentContext *)
| EvContextClose
| EvLog (msg : string)
| EvCached (c : CachedToken).                (* the cache file now holds c *)

Record World : Type := {
  now : Z;                          (* Date.now() *)
  lockFile : option string;
  cacheFile : option string;
  contextOpen : bool;               (* a browser context is open *)
  spawned : nat;                    (* detached refresh tasks started *)
  trace : list Event
}.

Definition file (w : World) (p : Path) : option string :=
  match p with
  | LOCK_FILE => lockFile w
  | TOKEN_CACHE_FILE => cacheFile w
  | _ => None
  end.

Definition set_file (w : World) (p : Path) (c : option string) : World :=
  match p with
  | LOCK_FILE =>
      {| now := now w; lockFile := c; cacheFile := cacheFile w;
         contextOpen := contextOpen w; spawned := spawned w; trace := trace w |}
  | TOKEN_CACHE_FILE =>
      {| now := now w; lockFile := lockFile w; cacheFile := c;
         contextOpen := contextOpen w; spawned := spawned w; trace := trace w |}
  | _ => w
  end.

Definition log_event (w : World) (e : Event) : World :=
  {| now := now w; lockFile := lockFile w; cacheFile := cacheFile w;
     contextOpen := contextOpen w; spawned := spawned w;
     trace := trace w ++ [e] |}.

Definition advance (w : World) (ms : Z) : World :=
  {| now := now w + ms; lockFile := lockFile w; cacheFile := cacheFile w;
     contextOpen := contextOpen w; spawned := spawned w; trace := trace w |}.

Definition set_context (w : World) (b : bool) : World :=
  {| now := now w; lockFile := lockFile w; cacheFile := cacheFile w;
     contextOpen := b; spawned := spawned w; trace := trace w |}.

Definition add_spawned (w : World) : World :=
  {| now := now w; lockFile := lockFile w; cacheFile := cacheFile w;
     contextOpen := contextOpen w; spawned := S (spawned w); trace := trace w |}.

(* ================================================================= *)
(** ** The monad of effects *)

Definition M (A : Type) : Type := World -> Result A * World.

Definition ret {A : Type} (a : A) : M A := fun w => (Ok a, w).

Definition bind {A B : Type} (m : M A) (k : A -> M B) : M B :=
  fun w =>
    match m w with
    | (Ok a, w') => k a w'
    | (Throw e, w') => (Throw e, w')
    | (OutOfFuel, w') => (OutOfFuel, w')
    end.

Definition throw {A : Type} (e : Exn) : M A := fun w => (Throw e, w).

Definition out_of_fuel {A : Type} : M A := fun w => (OutOfFuel, w).

(** [try { m } catch (err) { h err }] *)
Definition try_catch {A : Type} (m : M A) (h : Exn -> M A) : M A :=
  fun w =>
    match m w with
    | (Throw e, w') => h e w'
    | r => r
    end.

Definition emit (e : Event) : M unit := fun w => (Ok tt, log_event w e).

Declare Scope eff_scope.
Delimit Scope eff_scope with eff.
Notation "x <- c ;; k" := (bind c (fun x => k))
  (at level 61, c at next level, right associativity) : eff_scope.
Notation "c ;; k" := (bind c (fun _ => k))
  (at level 61, right associativity) : eff_scope.
Local Open Scope eff_scope.

(** [Date.now()] *)
Definition Date_now : M Z := fun w => (Ok (now w), w).

(** [await new Promise(r => setTimeout(r, ms))] and [sleep(ms)], for a
    delay that timers honour: an integer from 1 to 2^31 - 1.  The delays of
    auth.ts are the constants 100, 500 and 2000 and the keepalive interval;
    what is proved about the clock after the interval sleep is stated for
    an interval within that range. *)
Definition sleep (ms : Z) : M unit :=
  fun w => (Ok tt, log_event (advance w ms) (EvSleep ms)).

Definition console_log (msg : string) : M unit := emit (EvLog msg).

(** How one turn of a loop ends: [continue], or [return a]. *)
Inductive LoopStep (A : Type) : Type :=
| Continue
| Return (a : A).

Arguments Continue {A}.
Arguments Return {A} a.

Section Effects.
Context {RT : JsRuntime}.
Variable E : Env.

(* ----------------------------------------------------------------- *)
(** *** fs/promises *)

Definition readFile (p : Path) : M string :=
  fun w =>
    if fs_fault E (ReadFile p)
    then (Throw (EFAULT "readFile"), log_event w (EvFs (ReadFile p) false))
    else match file w p with
         | Some data => (Ok data, log_event w (EvFs (ReadFile p) true))
         | None => (Throw ENOENT, log_event w (EvFs (ReadFile p) false))
         end.

Definition writeFile (p : Path) (data : string) : M unit :=
  fun w =>
    if fs_fault E (WriteFile p)
    then (Throw (EFAULT "writeFile"), log_event w (EvFs (WriteFile p) false))
    else (Ok tt, log_event (set_file w p (Some data)) (EvFs (WriteFile p) true)).

(** [mkdir(p, { recursive: true })] *)
Definition mkdir (p : Path) : M unit :=
  fun w =>
    if fs_fault E (Mkdir p)
    then (Throw (EFAULT "mkdir"), log_event w (EvFs (Mkdir p) false))
    else (Ok tt, log_event w (EvFs (Mkdir p) true)).

Definition unlink (p : Path) : M unit :=
  fun w =>
    if fs_fault E (Unlink p)
    then (Throw (EFAULT "unlink"), log_event w (EvFs (Unlink p) false))
    else match file w p with
         | Some _ => (Ok tt, log_event (set_file w p None) (EvFs (Unlink p) true))
         | None => (Throw ENOENT, log_event w (EvFs (Unlink p) false))
         end.

(** [open(p, 'wx')]: fails with EEXIST when the file exists, else creates
    it empty. *)
Definition open_wx (p : Path) : M unit :=
  fun w =>
    match file w p with
    | Some _ => (Throw EEXIST, log_event w (EvFs (OpenWx p) false))
    | None =>
        if fs_fault E (OpenWx p)
        then (Throw (EFAULT "open"), log_event w (EvFs (OpenWx p) false))
        else (Ok tt, log_event (set_file w p (Some EmptyString)) (EvFs (OpenWx p) true))
    end.

Definition fd_write (p : Path) (data : string) : M unit :=
  fun w =>
    if fs_fault E (FdWrite p)
    then (Throw (EFAULT "write"), log_event w (EvFs (FdWrite p) false))
    else (Ok tt, log_event (set_file w p (Some data)) (EvFs (FdWrite p) true)).

Definition fd_close (p : Path) : M unit :=
  fun w =>
    if fs_fault E (FdClose p)
    then (Throw (EFAULT "close"), log_event w (EvFs (FdClose p) false))
    else (Ok tt, log_event w (EvFs (FdClose p) true)).

(* ----------------------------------------------------------------- *)
(** *** Session validator: validateSession (owa-client.ts 472-489) *)

Definition validateSession (token : JsValue) : M bool :=
  fun w =>
    let ok :=
      match fetch_inbox E (now w) ("Bearer " ++ to_string token) with
      | FetchStatus ok => ok
      | FetchFails => false
      end in
    (Ok ok, log_event w (EvValidate token ok)).

Definition JSON_parse_m (data : string) : M JsValue :=
  match JSON_parse data with
  | Some v => ret v
  | None => throw SyntaxError
  end.

(** A property read inside effectful code. *)
Definition get_prop_m (v : JsValue) (k : string) : M JsValue :=
  match get_prop v k with
  | Val x => ret x
  | Raised e => throw e
  end.

(* ----------------------------------------------------------------- *)
(** *** Cross-process lock: acquireLock (auth.ts 8-63) *)

Definition LOCK_TIMEOUT : Z := 60000.

Record LockHandle : Type := {
  release : M unit
}.

Definition lock_handle : LockHandle :=
  {| release := try_catch (unlink LOCK_FILE) (fun _ => ret tt) |}.

(** [err && typeof err === 'object' && 'code' in err && err.code === 'EEXIST'] *)
Definition is_EEXIST (e : Exn) : bool :=
  match e with
  | EEXIST => true
  | _ => false
  end.

(** Lines 20-34: [true] when control reaches the exclusive create,
    [false] when the inner branch ran [continue]. *)
Definition check_existing_lock : M bool :=
  try_catch
    (lockData <- readFile LOCK_FILE ;;
     let lockTime := parseInt lockData in
     t <- Date_now ;;
     if js_gt (js_sub (Num t) lockTime) (Num LOCK_TIMEOUT)
     then (unlink LOCK_FILE ;; ret true)
     else (sleep 500 ;; ret false))
    (fun _ => ret true).

(** One turn of the [while] loop, lines 19-59. *)
Definition acquireLock_attempt : M (LoopStep LockHandle) :=
  try_catch
    (proceed <- check_existing_lock ;;
     if proceed : bool then
       (mkdir CONFIG_DIR ;;
        open_wx LOCK_FILE ;;
        t <- Date_now ;;
        fd_write LOCK_FILE (Z_to_string t) ;;
        fd_close LOCK_FILE ;;
        ret (Return lock_handle))
     else ret Continue)
    (fun err =>
       if is_EEXIST err
       then (sleep 500 ;; ret Continue)
       else (sleep 100 ;; ret Continue)).

Fixpoint acquireLock_loop (fuel : nat) (startTime timeout : Z)
  : M (option LockHandle) :=
  t <- Date_now ;;
  if t - startTime <? timeout then
    match fuel with
    | O => out_of_fuel
    | S fuel' =>
        step <- acquireLock_attempt ;;
        match step with
        | Return h => ret (Some h)
        | Continue => acquireLock_loop fuel' startTime timeout
        end
    end
  else ret None.

(** Every turn that does not return sleeps at least 100 ms, so
    [timeout / 100 + 1] turns are enough. *)
Definition acquireLock_fuel (timeout : Z) : nat := Z.to_nat (timeout / 100 + 1).

Definition acquireLock (timeout : Z) : M (option LockHandle) :=
  emit (EvCall (CallAcquireLock timeout)) ;;
  startTime <- Date_now ;;
  acquireLock_loop (acquireLock_fuel timeout) startTime timeout.

(* ----------------------------------------------------------------- *)
(** *** Token cache: getCachedToken, setCachedToken (auth.ts 79-135) *)

Definition REFRESH_THRESHOLD : Z := 5 * 60 * 1000.

Record CacheHit : Type := {
  cached : JsValue;        (* JSON.parse(data) as CachedToken: unchecked *)
  needsRefresh : bool
}.

Definition getCachedToken : M (option CacheHit) :=
  emit (EvCall CallGetCachedToken) ;;
  try_catch
    (data <- readFile TOKEN_CACHE_FILE ;;
     cached <- JSON_parse_m data ;;
     t <- Date_now ;;
     expiresAt <- get_prop_m cached "expiresAt" ;;
     if js_le (to_number expiresAt) (Num t) then ret None
     else
       ret (Some {| cached := cached;
                    needsRefresh :=
                      js_lt (js_sub (to_number expiresAt) (Num t))
                            (Num REFRESH_THRESHOLD) |}))
    (fun _ => ret None).

Definition opt_js (o : option string) : JsValue :=
  match o with
  | Some s => JString s
  | None => JUndefined
  end.

Definition CachedToken_to_js (c : CachedToken) : JsValue :=
  JObject [("token", JString (ct_token c));
           ("graphToken", opt_js (ct_graphToken c));
           ("expiresAt", JNumber (ct_expiresAt c))].

(** [getJwtExpiration(token) || (Date.now() + 55 * 60 * 1000)] *)
Definition cache_expiry (token : string) : M JsNum :=
  match getJwtExpiration token with
  | Some n =>
      if num_truthy n then ret n
      else (t <- Date_now ;; ret (Num (t + 55 * 60 * 1000)))
  | None => t <- Date_now ;; ret (Num (t + 55 * 60 * 1000))
  end.

Definition setCachedToken (token : string) (graphToken : option string) : M unit :=
  emit (EvCall (CallSetCachedToken token graphToken)) ;;
  try_catch
    (mkdir CONFIG_DIR ;;
     expiresAt <- cache_expiry token ;;
     let cached := {| ct_token := token; ct_graphToken := graphToken;
                      ct_expiresAt := expiresAt |} in
     writeFile TOKEN_CACHE_FILE (JSON_stringify (CachedToken_to_js cached)) ;;
     emit (EvCached cached))
    (fun _ => ret tt).

(* ----------------------------------------------------------------- *)
(** *** Credential extractor (auth.ts 137-265) *)

Record PlaywrightTokenResult : Type := {
  pw_success : bool;
  pw_token : option string;
  pw_graphToken : option string;
  pw_error : option string
}.

Definition pw_failure (msg : string) : PlaywrightTokenResult :=
  {| pw_success := false; pw_token := None; pw_graphToken := None;
     pw_error := Some msg |}.

(** [a || undefined] on an optional string. *)
Definition or_undefined (o : option string) : option string :=
  if opt_truthy o then o else None.

(** The ['request'] listener of tryExtractToken (lines 197-215) on the pair
    (capturedToken, capturedGraphToken): the first token per audience is
    kept. *)
Definition on_request (st : option string * option string) (r : Request)
  : option string * option string :=
  let '(capturedToken, capturedGraphToken) := st in
  match req_auth r with
  | Some authHeader =>
      if str_truthy authHeader && startsWith authHeader "Bearer " then
        let token := drop 7 authHeader in
        let capturedToken' :=
          if includes (req_url r) "outlook.office.com"
             && negb (opt_truthy capturedToken)
          then Some token else capturedToken in
        let capturedGraphToken' :=
          if includes (req_url r) "graph.microsoft.com"
             && negb (opt_truthy capturedGraphToken)
          then Some token else capturedGraphToken in
        (capturedToken', capturedGraphToken')
      else st
  | None => st
  end.

(** [err instanceof Error ? err.message : undefined] *)
Definition exn_message (e : Exn) : option string :=
  match e with
  | EEXIST => Some "EEXIST: file already exists"
  | ENOENT => Some "ENOENT: no such file or directory"
  | EFAULT what => Some what
  | SyntaxError => Some "Unexpected token in JSON"
  | TypeError => Some "Cannot read properties of null"
  | BrowserError msg => Some msg
  | NonError => None
  end.

Definition launchPersistentContext (headless : bool) : M unit :=
  fun w =>
    match browser_launch E (now w) headless with
    | Some e => (Throw e, log_event w (EvLaunch headless))
    | None => (Ok tt, log_event (set_context w true) (EvLaunch headless))
    end.

Definition context_close : M unit :=
  fun w => (Ok tt, log_event (set_context w false) EvContextClose).

Definition context_is_open : M bool := fun w => (Ok (contextOpen w), w).

(** Lines 191-240: the page, the listener, the navigation and the two
    capture waits; the result is the listener's final state. *)
Definition capture_tokens (headless : bool) (timeout : Z)
  : M (option string * option string) :=
  fun w =>
    match browser_session E (now w) headless timeout with
    | SessionThrows seen elapsed e => (Throw e, advance w elapsed)
    | Completes seen elapsed =>
        (Ok (fold_left on_request seen (None, None)), advance w elapsed)
    end.

(** Lines 176-264: the extraction proper, run with the lock held. *)
Definition extract_with_lock (headless : bool) (timeout : Z) (lock : LockHandle)
  : M PlaywrightTokenResult :=
  try_catch
    (mkdir PROFILE_DIR ;;
     launchPersistentContext headless ;;
     (if headless then ret tt
      else console_log "Please complete the login process in the browser...") ;;
     captured <- capture_tokens headless timeout ;;
     context_close ;;
     release lock ;;
     let '(capturedToken, capturedGraphToken) := captured in
     if opt_truthy capturedToken then
       ret {| pw_success := true; pw_token := capturedToken;
              pw_graphToken := or_undefined capturedGraphToken;
              pw_error := None |}
     else
       ret (pw_failure
              (if headless then "No active session found"
               else "Timeout: No Bearer token captured. Make sure you completed the login.")))
    (fun err =>
       ctx <- context_is_open ;;
       (if ctx : bool then context_close else ret tt) ;;
       release lock ;;
       ret (pw_failure
              match exn_message err with
              | Some msg => msg
              | None => "Unknown error during token extraction"
              end)).

Definition tryExtractToken (headless : bool) (timeout : Z)
  : M PlaywrightTokenResult :=
  emit (EvCall (CallTryExtractToken headless timeout)) ;;
  lock <- acquireLock (if headless then 5000 else 30000) ;;
  match lock with
  | None => ret (pw_failure "Another browser session is in progress, please wait")
  | Some lock => extract_with_lock headless timeout lock
  end.

Record ExtractOptions : Type := {
  eo_headless : option bool;
  eo_timeout : option Z
}.

Definition extractTokenViaPlaywright (options : ExtractOptions)
  : M PlaywrightTokenResult :=
  let headless := default true (eo_headless options) in
  let timeout := default 15000 (eo_timeout options) in
  emit (EvCall (CallExtractTokenViaPlaywright headless timeout)) ;;
  result <- tryExtractToken headless timeout ;;
  if pw_success result then ret result
  else if headless then
    (console_log "Session not found. Opening browser for login..." ;;
     tryExtractToken false 60000)
  else ret result.

(* ----------------------------------------------------------------- *)
(** *** Keepalive loop: startKeepaliveSession (auth.ts 267-329) *)

(** The ['request'] listener of the keepalive session (lines 285-300) on
    the pair (lastToken, lastGraphToken): the latest token wins. *)
Definition keepalive_on_request (st : option string * option string)
  (r : Request) : option string * option string :=
  let '(lastToken, lastGraphToken) := st in
  match req_auth r with
  | Some authHeader =>
      if str_truthy authHeader && startsWith authHeader "Bearer " then
        let token := drop 7 authHeader in
        let lastToken' :=
          if includes (req_url r) "outlook.office.com"
          then Some token else lastToken in
        let lastGraphToken' :=
          if includes (req_url r) "graph.microsoft.com"
          then Some token else lastGraphToken in
        (lastToken', lastGraphToken')
      else st
  | None => st
  end.

(** The listener's state when the clock reads [now]. *)
Definition last_tokens : M (option string * option string) :=
  fun w => (Ok (fold_left keepalive_on_request (page_traffic E (now w)) (None, None)), w).

(** [page.goto] and [page.reload] of the keepalive page. *)
Definition page_goto : M unit :=
  fun w =>
    match page_goto_fails E (now w) with
    | Some e => (Throw e, w)
    | None => (Ok tt, w)
    end.

Definition page_reload : M unit :=
  fun w =>
    match page_reload_fails E (now w) with
    | Some e => (Throw e, w)
    | None => (Ok tt, w)
    end.

(** One turn of [while (true)], lines 309-327. *)
Definition keepalive_turn (intervalMinutes : Z) : M unit :=
  sleep 2000 ;;
  st <- last_tokens ;;
  (match fst st with
   | Some lastToken =>
       if str_truthy lastToken
       then setCachedToken lastToken (or_undefined (snd st))
       else ret tt
   | None => ret tt
   end) ;;
  sleep (intervalMinutes * 60 * 1000) ;;
  try_catch page_reload (fun _ => try_catch page_goto (fun _ => ret tt)).

(** The loop never ends; [turns] bounds how long the model follows it. *)
Fixpoint keepalive_loop (turns : nat) (intervalMinutes : Z) : M unit :=
  match turns with
  | O => out_of_fuel
  | S turns' =>
      keepalive_turn intervalMinutes ;;
      keepalive_loop turns' intervalMinutes
  end.

Definition startKeepaliveSession (turns : nat) (intervalMinutes : Z)
  (headless : option bool) : M unit :=
  let headless := default false headless in
  mkdir PROFILE_DIR ;;
  launchPersistentContext headless ;;
  console_log ("Opening Outlook session (headless="
               ++ (if headless then "true" else "false") ++ ")...") ;;
  page_goto ;;
  console_log ("Keepalive active. Refreshing every "
               ++ Z_to_string intervalMinutes ++ " minutes.") ;;
  keepalive_loop turns intervalMinutes.

(* ----------------------------------------------------------------- *)
(** *** Auth resolver: resolveAuth (auth.ts 331-416) *)

Record AuthResult : Type := {
  success : bool;
  token : JsValue;
  graphToken : JsValue;
  error : option string
}.

Definition auth_failure (msg : string) : AuthResult :=
  {| success := false; token := JUndefined; graphToken := JUndefined;
     error := Some msg |}.

Definition auth_success (tok graph : JsValue) : AuthResult :=
  {| success := true; token := tok; graphToken := graph; error := None |}.

Record ResolveOptions : Type := {
  ro_token : option string;
  ro_interactive : option bool
}.

(** [process.env.CLIPPY_TOKEN] *)
Definition read_env : M (option string) :=
  fun w => (Ok (env_CLIPPY_TOKEN E), log_event w EvEnvRead).

(** Lines 368-374: the promise chain is started and not awaited. *)
Definition spawn_refresh : M unit :=
  fun w => (Ok tt, log_event (add_spawned w) (EvCall CallBackgroundRefresh)).

(** What the detached chain of lines 368-374 does when it runs. *)
Definition backgroundRefresh : M unit :=
  try_catch
    (result <- extractTokenViaPlaywright
                 {| eo_headless := Some true; eo_timeout := Some 10000 |} ;;
     if pw_success result && opt_truthy (pw_token result)
     then setCachedToken (default EmptyString (pw_token result))
                         (pw_graphToken result)
     else ret tt)
    (fun _ => ret tt).

(** Priority 4 and the final failure, lines 386-415. *)
Definition resolveAuth_extract (interactive : bool) : M AuthResult :=
  if interactive then
    playwrightResult <- extractTokenViaPlaywright
                          {| eo_headless := None; eo_timeout := None |} ;;
    if pw_success playwrightResult && opt_truthy (pw_token playwrightResult) then
      let tok := default EmptyString (pw_token playwrightResult) in
      isValid <- validateSession (JString tok) ;;
      if isValid : bool then
        (setCachedToken tok (pw_graphToken playwrightResult) ;;
         ret (auth_success (JString tok) (opt_js (pw_graphToken playwrightResult))))
      else ret (auth_failure "Extracted token is invalid or expired")
    else
      ret (auth_failure
             (if opt_truthy (pw_error playwrightResult)
              then default EmptyString (pw_error playwrightResult)
              else "Failed to extract token via browser"))
  else
    ret (auth_failure
           "No token available. Set CLIPPY_TOKEN env var or run with --interactive to extract via browser.").

(** Priority 3, lines 359-384. *)
Definition resolveAuth_cache (interactive : bool) : M AuthResult :=
  cachedResult <- getCachedToken ;;
  match cachedResult with
  | Some hit =>
      tok <- get_prop_m (cached hit) "token" ;;
      isValid <- validateSession tok ;;
      if isValid : bool then
        ((if needsRefresh hit && interactive then spawn_refresh else ret tt) ;;
         graph <- get_prop_m (cached hit) "graphToken" ;;
         ret (auth_success tok graph))
      else resolveAuth_extract interactive
  | None => resolveAuth_extract interactive
  end.

(** Priority 2, lines 346-357. *)
Definition resolveAuth_env (interactive : bool) : M AuthResult :=
  envToken <- read_env ;;
  if opt_truthy envToken then
    isValid <- validateSession (opt_js envToken) ;;
    if isValid : bool then ret (auth_success (opt_js envToken) JUndefined)
    else ret (auth_failure
                "CLIPPY_TOKEN environment variable contains invalid or expired token")
  else resolveAuth_cache interactive.

Definition resolveAuth (options : ResolveOptions) : M AuthResult :=
  let cliToken := ro_token options in
  let interactive := default false (ro_interactive options) in
  if opt_truthy cliToken then
    isValid <- validateSession (opt_js cliToken) ;;
    if isValid : bool then ret (auth_success (opt_js cliToken) JUndefined)
    else ret (auth_failure "Provided token is invalid or expired")
  else resolveAuth_env interactive.

(** resolveAuth followed by the detached refresh it started, if any. *)
Definition run_spawned : M unit :=
  fun w =>
    match spawned w with
    | O => (Ok tt, w)
    | S _ => backgroundRefresh w
    end.

Definition resolveAuth_settled (options : ResolveOptions) : M AuthResult :=
  r <- resolveAuth options ;;
  run_spawned ;;
  ret r.

End Effects.

(* ================================================================= *)
(** ** A reference runtime

    An executable runtime for the examples: base64url over the URL-safe
    alphabet, and JSON restricted to integers and to strings without
    escapes.  The general theorems hold for every [JsRuntime]. *)

Module Reference.

Definition sextet (c : ascii) : option nat :=
  let n := nat_of_ascii c in
  if ((65 <=? n) && (n <=? 90))%nat then Some (n - 65)%nat          (* A-Z *)
  else if ((97 <=? n) && (n <=? 122))%nat then Some (n - 71)%nat    (* a-z *)
  else if ((48 <=? n) && (n <=? 57))%nat then Some (n + 4)%nat      (* 0-9 *)
  else if ((n =? 45) || (n =? 43))%nat then Some 62%nat             (* - + *)
  else if ((n =? 95) || (n =? 47))%nat then Some 63%nat             (* _ / *)
  else None.

(** Characters outside the alphabet are skipped; [=] ends the input. *)
Fixpoint sextets (s : string) : list nat :=
  match s with
  | EmptyString => []
  | String c r =>
      if Ascii.eqb c "="%char then []
      else match sextet c with
           | Some v => v :: sextets r
           | None => sextets r
           end
  end.

Fixpoint octets (l : list nat) : string :=
  match l with
  | a :: b :: c :: d :: r =>
      String (ascii_of_nat (a * 4 + b / 16))
        (String (ascii_of_nat ((b mod 16) * 16 + c / 4))
           (String (ascii_of_nat ((c mod 4) * 64 + d)) (octets r)))
  | [a; b; c] =>
      String (ascii_of_nat (a * 4 + b / 16))
        (String (ascii_of_nat ((b mod 16) * 16 + c / 4)) EmptyString)
  | [a; b] => String (ascii_of_nat (a * 4 + b / 16)) EmptyString
  | _ => EmptyString
  end%nat.

Definition decode_base64url (s : string) : string := octets (sextets s).

(* JSON text *)

Definition is_json_ws (c : ascii) : bool :=
  let n := nat_of_ascii c in
  ((n =? 32) || (n =? 9) || (n =? 10) || (n =? 13))%nat.

Fixpoint skip_json_ws (s : string) : string :=
  match s with
  | EmptyString => EmptyString
  | String c r => if is_json_ws c then skip_json_ws r else s
  end.

Definition dquote : ascii := ascii_of_nat 34.

(** The characters of a string literal up to its closing quote. *)
Fixpoint parse_chars (s : string) : option (string * string) :=
  match s with
  | EmptyString => None
  | String c r =>
      if Ascii.eqb c dquote then Some (EmptyString, r)
      else if Ascii.eqb c "\"%char then None
      else match parse_chars r with
           | Some (body, rest) => Some (String c body, rest)
           | None => None
           end
  end.

Fixpoint parse_digits (s : string) (acc : option Z) : option Z * string :=
  match s with
  | EmptyString => (acc, EmptyString)
  | String c r =>
      match digit_val c with
      | Some d => parse_digits r (Some (10 * default 0 acc + d))
      | None => (acc, s)
      end
  end.

Definition parse_number (s : string) : option (JsValue * string) :=
  let '(neg, body) :=
    match s with
    | String "-"%char r => (true, r)
    | _ => (false, s)
    end in
  match parse_digits body None with
  | (Some v, rest) => Some (JNumber (Num (if neg then - v else v)), rest)
  | (None, _) => None
  end.

(** Property assignment: the last value of a repeated key wins. *)
Fixpoint set_field (k : string) (v : JsValue) (fields : list (string * JsValue))
  : list (string * JsValue) :=
  match fields with
  | [] => [(k, v)]
  | (k', v') :: rest =>
      if String.eqb k k' then (k, v) :: rest else (k', v') :: set_field k v rest
  end.

(** The first character after white space, and what follows it. *)
Definition next_char (s : string) : option (ascii * string) :=
  match skip_json_ws s with
  | EmptyString => None
  | String c r => Some (c, r)
  end.

Definition next_is (c : ascii) (s : string) : option string :=
  match next_char s with
  | Some (c', r) => if Ascii.eqb c c' then Some r else None
  | None => None
  end.

Fixpoint parse_value (fuel : nat) (s : string) : option (JsValue * string) :=
  match fuel with
  | O => None
  | S fuel' =>
      match next_char s with
      | None => None
      | Some (c, r) =>
          if Ascii.eqb c "{"%char then
            match next_is "}"%char r with
            | Some rest => Some (JObject [], rest)
            | None => parse_members fuel' r []
            end
          else if Ascii.eqb c "["%char then
            match next_is "]"%char r with
            | Some rest => Some (JArray [], rest)
            | None => parse_elements fuel' r []
            end
          else if Ascii.eqb c dquote then
            match parse_chars r with
            | Some (body, rest) => Some (JString body, rest)
            | None => None
            end
          else
            let s' := String c r in
            if String.prefix "true" s' then Some (JBool true, drop 4 s')
            else if String.prefix "false" s' then Some (JBool false, drop 5 s')
            else if String.prefix "null" s' then Some (JNull, drop 4 s')
            else parse_number s'
      end
  end

with parse_members (fuel : nat) (s : string) (acc : list (string * JsValue))
  : option (JsValue * string) :=
  match fuel with
  | O => None
  | S fuel' =>
      match next_is dquote s with
      | None => None
      | Some r =>
          match parse_chars r with
          | None => None
          | Some (key, rest) =>
              match next_is ":"%char rest with
              | None => None
              | Some rest' =>
                  match parse_value fuel' rest' with
                  | None => None
                  | Some (v, rest'') =>
                      match next_is ","%char rest'' with
                      | Some more =>
                          parse_members fuel' more (set_field key v acc)
                      | None =>
                          match next_is "}"%char rest'' with
                          | Some after =>
                              Some (JObject (set_field key v acc), after)
                          | None => None
                          end
                      end
                  end
              end
          end
      end
  end

with parse_elements (fuel : nat) (s : string) (acc : list JsValue)
  : option (JsValue * string) :=
  match fuel with
  | O => None
  | S fuel' =>
      match parse_value fuel' s with
      | None => None
      | Some (v, rest) =>
          match next_is ","%char rest with
          | Some more => parse_elements fuel' more (acc ++ [v])
          | None =>
              match next_is "]"%char rest with
              | Some after => Some (JArray (acc ++ [v]), after)
              | None => None
              end
          end
      end
  end.

Definition parse_json (s : string) : option JsValue :=
  match parse_value (S (String.length s)) s with
  | Some (v, rest) =>
      match skip_json_ws rest with
      | EmptyString => Some v
      | _ => None
      end
  | None => None
  end.

Fixpoint quote_chars (s : string) : string :=
  match s with
  | EmptyString => EmptyString
  | String c r =>
      if Ascii.eqb c dquote || Ascii.eqb c "\"%char
      then String "\"%char (String c (quote_chars r))
      else String c (quote_chars r)
  end.

Definition quote (s : string) : string :=
  String dquote (quote_chars s ++ String dquote EmptyString).

Fixpoint join (sep : string) (l : list string) : string :=
  match l with
  | [] => EmptyString
  | [x] => x
  | x :: r => x ++ sep ++ join sep r
  end.

(** [None] where JSON.stringify yields [undefined]. *)
Fixpoint stringify (v : JsValue) : option string :=
  match v with
  | JUndefined => None
  | JNull => Some "null"
  | JBool b => Some (if b then "true" else "false")
  | JNumber NaN => Some "null"
  | JNumber (Num z) => Some (Z_to_string z)
  | JString s => Some (quote s)
  | JArray items =>
      Some ("[" ++ join "," (map (fun x => default "null" (stringify x)) items) ++ "]")
  | JObject fields =>
      Some ("{" ++ join ","
                    ((fix members (l : list (string * JsValue)) : list string :=
                        match l with
                        | [] => []
                        | (k, x) :: r =>
                            match stringify x with
                            | Some sx => (quote k ++ ":" ++ sx) :: members r
                            | None => members r
                            end
                        end) fields) ++ "}")
  end.

(** ToNumber on a string: white space, then an optional sign and decimal
    digits; the empty string is 0. *)
Definition number_of_string (s : string) : JsNum :=
  match skip_ws s with
  | EmptyString => Num 0
  | s' =>
      match parse_number match s' with String "+"%char r => r | _ => s' end with
      | Some (JNumber n, rest) =>
          match skip_ws rest with
          | EmptyString => n
          | _ => NaN
          end
      | _ => NaN
      end
  end.

(** ToString, as [Array.prototype.toString] and [Object.prototype.toString]
    compute it for arrays and plain objects. *)
Fixpoint string_of_value (v : JsValue) : string :=
  match v with
  | JUndefined => "undefined"
  | JNull => "null"
  | JBool b => if b then "true" else "false"
  | JNumber n => num_to_string n
  | JString s => s
  | JArray items =>
      join "," (map (fun x => match x with
                              | JUndefined | JNull => EmptyString
                              | _ => string_of_value x
                              end) items)
  | JObject _ => "[object Object]"
  end.

Definition number_of_object (v : JsValue) : JsNum :=
  number_of_string (string_of_value v).

Definition stringify_or_undefined (v : JsValue) : string :=
  default "undefined" (stringify v).

Definition runtime : JsRuntime := {|
  base64url_decode := decode_base64url;
  JSON_parse := parse_json;
  JSON_stringify := stringify_or_undefined;
  string_to_number := number_of_string;
  object_to_number := number_of_object;
  object_to_string := string_of_value
|}.

End Reference.

(* ================================================================= *)
(** ** Notions used to state the properties *)

Local Open Scope list_scope.

(** The events [m] adds to the trace when started in [w]. *)
Definition events_of {A : Type} (m : M A) (w : World) : list Event :=
  skipn (List.length (trace w)) (trace (snd (m w))).

(** [m] relates every start world to its end world by [R]. *)
Definition respects (R : World -> World -> Prop) {A : Type} (m : M A) : Prop :=
  forall w, R w (snd (m w)).

(** [m] always returns a value: it neither throws nor exhausts the loop
    bound of the model. *)
Definition total {A : Type} (m : M A) : Prop :=
  forall w, exists a, fst (m w) = Ok a.

(** [m] never exhausts the loop bound of the model. *)
Definition bounded {A : Type} (m : M A) : Prop :=
  forall w, fst (m w) <> OutOfFuel.

(** Every value [m] returns satisfies [Q]. *)
Definition returns {A : Type} (Q : A -> Prop) (m : M A) : Prop :=
  forall w a, fst (m w) = Ok a -> Q a.

(** [m] started in [w] returns [a] in world [w'], having added [evs] to
    the trace. *)
Definition steps {A : Type} (m : M A) (w : World) (a : A) (evs : list Event)
  (w' : World) : Prop :=
  m w = (Ok a, w') /\ trace w' = trace w ++ evs.

(** The trace grows by events that all satisfy [P]. *)
Definition extends_with (P : Event -> Prop) (w w' : World) : Prop :=
  exists evs, trace w' = trace w ++ evs /\ Forall P evs.

Definition same_cache (w w' : World) : Prop := cacheFile w' = cacheFile w.

(** Events of the polling loop of acquireLock. *)
Definition lock_event (e : Event) : Prop :=
  match e with
  | EvFs op _ =>
      match op with
      | ReadFile p | WriteFile p | Unlink p | OpenWx p | FdWrite p | FdClose p =>
          p = LOCK_FILE
      | Mkdir p => p = CONFIG_DIR
      end
  | EvSleep _ => True
  | _ => False
  end.

(** Events of the lock and of the browser, as tryExtractToken adds them. *)
Definition extraction_event (e : Event) : Prop :=
  match e with
  | EvCall (CallAcquireLock _)
  | EvCall (CallTryExtractToken _ _) => True
  | EvFs (Mkdir p) _ => p = CONFIG_DIR \/ p = PROFILE_DIR
  | EvFs _ _ | EvSleep _ => lock_event e
  | EvLaunch _ | EvContextClose | EvLog _ => True
  | _ => False
  end.

(** The only handle acquireLock hands out. *)
Definition is_lock_handle (E : Env) (o : option LockHandle) : Prop :=
  o = None \/ o = Some (lock_handle E).

(** The world after a turn of acquireLock that found the marker held: the
    marker was read and the waiter slept 500 ms. *)
Definition held_turn (w : World) : World :=
  log_event (advance (log_event w (EvFs (ReadFile LOCK_FILE) true)) 500)
            (EvSleep 500).


(** The events of [k] such turns. *)
Fixpoint polls (k : nat) : list Event :=
  match k with
  | O => []
  | S k' => EvFs (ReadFile LOCK_FILE) true :: EvSleep 500 :: polls k'
  end.


(** What a waiter does while it only polls. *)
Definition poll_event (e : Event) : Prop :=
  e = EvFs (ReadFile LOCK_FILE) true \/ e = EvSleep 500.

(** Events of one call [setCachedToken(token, graphToken)]. *)
Definition cache_write_event (token : string) (graphToken : option string)
  (e : Event) : Prop :=
  match e with
  | EvCall (CallSetCachedToken t g) => t = token /\ g = graphToken
  | EvFs (Mkdir p) _ => p = CONFIG_DIR
  | EvFs (WriteFile p) _ => p = TOKEN_CACHE_FILE
  | EvCached c => ct_token c = token /\ ct_graphToken c = graphToken
  | _ => False
  end.

(** Events of one call of getCachedToken. *)
Definition cache_read_event (e : Event) : Prop :=
  match e with
  | EvCall CallGetCachedToken => True
  | EvFs (ReadFile p) _ => p = TOKEN_CACHE_FILE
  | _ => False
  end.

(** The expiration setCachedToken records for [token] at time [t]. *)
Definition recorded_expiry {RT : JsRuntime} (token : string) (t : Z) : JsNum :=
  match getJwtExpiration token with
  | Some n => if num_truthy n then n else Num (t + 55 * 60 * 1000)
  | None => Num (t + 55 * 60 * 1000)
  end.

(** What getCachedToken returns for a cache file with this content when
    the clock reads [t]. *)
Definition cache_lookup {RT : JsRuntime} (content : option string) (t : Z)
  : option CacheHit :=
  match content with
  | None => None
  | Some data =>
      match JSON_parse data with
      | None => None
      | Some v =>
          match get_prop v "expiresAt" with
          | Val expiresAt =>
              if js_le (to_number expiresAt) (Num t) then None
              else Some {| cached := v;
                           needsRefresh :=
                             js_lt (js_sub (to_number expiresAt) (Num t))
                                   (Num REFRESH_THRESHOLD) |}
          | Raised _ => None
          end
      end
  end.

(* ----------------------------------------------------------------- *)
(** *** The shapes a run of resolveAuth can take *)

(** The events of one getCachedToken call. *)
Definition cache_segment (ok : bool) : list Event :=
  [EvCall CallGetCachedToken; EvFs (ReadFile TOKEN_CACHE_FILE) ok].

(** Priority 4 when the caller opted in. *)
Inductive extract_path : list Event -> AuthResult -> Prop :=
| extract_failed (xevs : list Event) (msg : string) :
    Forall extraction_event xevs ->
    extract_path (EvCall (CallExtractTokenViaPlaywright true 15000) :: xevs)
                 (auth_failure msg)
| extract_invalid (xevs : list Event) (tok : string) :
    Forall extraction_event xevs ->
    extract_path (EvCall (CallExtractTokenViaPlaywright true 15000)
                    :: xevs ++ [EvValidate (JString tok) false])
                 (auth_failure "Extracted token is invalid or expired")
| extract_valid (xevs cevs : list Event) (tok : string) (graph : option string) :
    Forall extraction_event xevs ->
    Forall (cache_write_event tok graph) cevs ->
    extract_path (EvCall (CallExtractTokenViaPlaywright true 15000)
                    :: xevs ++ EvValidate (JString tok) true :: cevs)
                 (auth_success (JString tok) (opt_js graph)).

(** What follows a cache miss or a rejected cached token. *)
Inductive fallback_path (interactive : bool) : list Event -> AuthResult -> Prop :=
| fallback_none :
    interactive = false ->
    fallback_path interactive []
      (auth_failure
         "No token available. Set CLIPPY_TOKEN env var or run with --interactive to extract via browser.")
| fallback_extract (evs : list Event) (r : AuthResult) :
    interactive = true ->
    extract_path evs r ->
    fallback_path interactive evs r.

Definition spawn_segment (spawn : bool) : list Event :=
  if spawn then [EvCall CallBackgroundRefresh] else [].

Inductive resolve_path (cliToken envToken : option string) (interactive : bool)
  : list Event -> AuthResult -> Prop :=
| path_explicit (ok : bool) :
    opt_truthy cliToken = true ->
    resolve_path cliToken envToken interactive
      [EvValidate (opt_js cliToken) ok]
      (if ok then auth_success (opt_js cliToken) JUndefined
       else auth_failure "Provided token is invalid or expired")
| path_env (ok : bool) :
    opt_truthy cliToken = false ->
    opt_truthy envToken = true ->
    resolve_path cliToken envToken interactive
      [EvEnvRead; EvValidate (opt_js envToken) ok]
      (if ok then auth_success (opt_js envToken) JUndefined
       else auth_failure
              "CLIPPY_TOKEN environment variable contains invalid or expired token")
| path_cache_valid (rd spawn : bool) (tok graph : JsValue) :
    opt_truthy cliToken = false ->
    opt_truthy envToken = false ->
    (spawn = true -> interactive = true) ->
    resolve_path cliToken envToken interactive
      (EvEnvRead :: cache_segment rd ++ EvValidate tok true :: spawn_segment spawn)
      (auth_success tok graph)
| path_cache_invalid (rd : bool) (tok : JsValue) (evs : list Event) (r : AuthResult) :
    opt_truthy cliToken = false ->
    opt_truthy envToken = false ->
    fallback_path interactive evs r ->
    resolve_path cliToken envToken interactive
      (EvEnvRead :: cache_segment rd ++ EvValidate tok false :: evs) r
| path_cache_miss (rd : bool) (evs : list Event) (r : AuthResult) :
    opt_truthy cliToken = false ->
    opt_truthy envToken = false ->
    fallback_path interactive evs r ->
    resolve_path cliToken envToken interactive
      (EvEnvRead :: cache_segment rd ++ evs) r.

(* ----------------------------------------------------------------- *)
(** *** Credential sources *)

Inductive Source : Type :=
| SrcExplicit     (* the caller's token *)
| SrcEnv          (* CLIPPY_TOKEN *)
| SrcCache        (* the token cache *)
| SrcExtract.     (* interactive extraction *)

Definition Source_eqb (a b : Source) : bool :=
  match a, b with
  | SrcExplicit, SrcExplicit | SrcEnv, SrcEnv
  | SrcCache, SrcCache | SrcExtract, SrcExtract => true
  | _, _ => false
  end.

Definition documented_order : list Source :=
  [SrcExplicit; SrcEnv; SrcCache; SrcExtract].

(** The source an event opens, if any: reading the environment variable,
    calling getCachedToken, calling extractTokenViaPlaywright. *)
Definition source_of (e : Event) : option Source :=
  match e with
  | EvEnvRead => Some SrcEnv
  | EvCall CallGetCachedToken => Some SrcCache
  | EvCall (CallExtractTokenViaPlaywright _ _) => Some SrcExtract
  | _ => None
  end.

Fixpoint later_sources (evs : list Event) : list Source :=
  match evs with
  | [] => []
  | e :: rest =>
      match source_of e with
      | Some s => s :: later_sources rest
      | None => later_sources rest
      end
  end.

(** The sources a run consulted, in order; resolveAuth examines the
    caller's token first on every call. *)
Definition consulted (evs : list Event) : list Source :=
  SrcExplicit :: later_sources evs.

Fixpoint is_prefix (l m : list Source) : bool :=
  match l, m with
  | [], _ => true
  | a :: l', b :: m' => Source_eqb a b && is_prefix l' m'
  | _ :: _, [] => false
  end.

(** The first credential the validator accepted, and the events after. *)
Fixpoint first_success (evs : list Event) : option (JsValue * list Event) :=
  match evs with
  | [] => None
  | EvValidate tok true :: rest => Some (tok, rest)
  | _ :: rest => first_success rest
  end.

(** The events before source [s] is consulted. *)
Fixpoint events_before (s : Source) (evs : list Event) : list Event :=
  match evs with
  | [] => []
  | e :: rest =>
      match source_of e with
      | Some s' => if Source_eqb s s' then [] else e :: events_before s rest
      | None => e :: events_before s rest
      end
  end.

(** An event that neither opens a source nor is an accepted validation. *)
Definition quiet (e : Event) : Prop :=
  source_of e = None /\ forall tok, e <> EvValidate tok true.

Definition no_validation (e : Event) : Prop :=
  match e with
  | EvValidate _ _ => False
  | _ => True
  end.

(** The trace grows without a call of validateSession. *)
Definition unvalidated : World -> World -> Prop := extends_with no_validation.

Definition not_cached (e : Event) : Prop :=
  match e with
  | EvCached _ => False
  | _ => True
  end.

(* ----------------------------------------------------------------- *)
(** *** What each source offers *)

(** The answer of validateSession for [tok] when the clock reads [t]
    (owa-client.ts 472-489): the probe answered with an ok status. *)
Definition accepted {RT : JsRuntime} (E : Env) (t : Z) (tok : JsValue) : bool :=
  match fetch_inbox E t ("Bearer " ++ to_string tok) with
  | FetchStatus ok => ok
  | FetchFails => false
  end.

(** What getCachedToken returns in world [w]. *)
Definition cache_offer {RT : JsRuntime} (E : Env) (w : World) : option CacheHit :=
  if fs_fault E (ReadFile TOKEN_CACHE_FILE) then None
  else cache_lookup (cacheFile w) (now w).

(** The sources a run consults after the cache when the cache yields no
    accepted credential. *)
Definition sources_through (interactive : bool) : list Source :=
  if interactive then [SrcExplicit; SrcEnv; SrcCache; SrcExtract]
  else [SrcExplicit; SrcEnv; SrcCache].

(* ----------------------------------------------------------------- *)
(** *** File operations of a run *)


(* ================================================================= *)
(** ** Notions used for the further properties *)

(** The value of a run of decimal digits read from the left, continuing
    from [acc]. *)
Fixpoint uint_value (d : Decimal.uint) (acc : Z) : Z :=
  match d with
  | Decimal.Nil => acc
  | Decimal.D0 l => uint_value l (10 * acc)
  | Decimal.D1 l => uint_value l (10 * acc + 1)
  | Decimal.D2 l => uint_value l (10 * acc + 2)
  | Decimal.D3 l => uint_value l (10 * acc + 3)
  | Decimal.D4 l => uint_value l (10 * acc + 4)
  | Decimal.D5 l => uint_value l (10 * acc + 5)
  | Decimal.D6 l => uint_value l (10 * acc + 6)
  | Decimal.D7 l => uint_value l (10 * acc + 7)
  | Decimal.D8 l => uint_value l (10 * acc + 8)
  | Decimal.D9 l => uint_value l (10 * acc + 9)
  end.

(** Events of the extraction proper, once the lock is held: the profile
    directory, the browser, the console and the release of the lock. *)
Definition session_event (e : Event) : Prop :=
  match e with
  | EvFs (Mkdir p) _ => p = PROFILE_DIR
  | EvFs (Unlink p) _ => p = LOCK_FILE
  | EvLaunch _ | EvContextClose | EvLog _ => True
  | _ => False
  end.

(** The two shapes of a PlaywrightTokenResult: a success carries a
    non-empty token and no error, a failure carries an error message and
    no token. *)
Definition well_formed_result (r : PlaywrightTokenResult) : Prop :=
  if pw_success r
  then opt_truthy (pw_token r) = true
       /\ (pw_graphToken r = None \/ opt_truthy (pw_graphToken r) = true)
       /\ pw_error r = None
  else pw_token r = None /\ pw_graphToken r = None
       /\ exists msg, pw_error r = Some msg.

(** The calls of tryExtractToken in a trace, in order. *)
Fixpoint attempts (evs : list Event) : list (bool * Z) :=
  match evs with
  | [] => []
  | EvCall (CallTryExtractToken headless timeout) :: rest =>
      (headless, timeout) :: attempts rest
  | _ :: rest => attempts rest
  end.

(** The browsers launched in a trace, in order, by their headless flag. *)
Fixpoint launches (evs : list Event) : list bool :=
  match evs with
  | [] => []
  | EvLaunch headless :: rest => headless :: launches rest
  | _ :: rest => launches rest
  end.

(** The Bearer token a request to [host] carries, if any. *)
Definition bearer_for (host : string) (r : Request) : option string :=
  match req_auth r with
  | Some authHeader =>
      if str_truthy authHeader && startsWith authHeader "Bearer "
         && includes (req_url r) host
      then Some (drop 7 authHeader)
      else None
  | None => None
  end.

(** The world after a turn of acquireLock that found no marker and could
    not create the directory of the lock: the turn slept 100 ms. *)
Definition failed_turn (w : World) : World :=
  log_event
    (advance
       (log_event (log_event w (EvFs (ReadFile LOCK_FILE) false))
                  (EvFs (Mkdir CONFIG_DIR) false))
       100)
    (EvSleep 100).

(** What a waiter does while the directory of the lock cannot be created. *)
Definition retry_event (e : Event) : Prop :=
  e = EvFs (ReadFile LOCK_FILE) false
  \/ e = EvFs (Mkdir CONFIG_DIR) false
  \/ e = EvSleep 100.

(** The two shapes of an AuthResult: a success carries no error, a
    failure carries a non-empty error message and neither token. *)
Definition well_formed_auth (r : AuthResult) : Prop :=
  if success r then error r = None
  else token r = JUndefined /\ graphToken r = JUndefined
       /\ exists msg, error r = Some msg /\ str_truthy msg = true.

(** Events of a resolution that only reads: the validator, the
    environment and the cache file. *)
Definition readonly_event (e : Event) : Prop :=
  match e with
  | EvValidate _ _ | EvEnvRead | EvCall CallGetCachedToken => True
  | EvFs (ReadFile p) _ => p = TOKEN_CACHE_FILE
  | _ => False
  end.

(** Events of the keepalive session: the profile directory, the browser,
    the console, the sleeps and the cache writes. *)
Definition keepalive_event (e : Event) : Prop :=
  match e with
  | EvFs (Mkdir p) _ => p = PROFILE_DIR \/ p = CONFIG_DIR
  | EvFs (WriteFile p) _ => p = TOKEN_CACHE_FILE
  | EvCall (CallSetCachedToken _ _) => True
  | EvLaunch _ | EvLog _ | EvSleep _ | EvCached _ => True
  | _ => False
  end.

(** What the keepalive session leaves alone: the lock marker and the
    browser context it runs in; it adds only its own events. *)
Definition keepalive_frame (w w' : World) : Prop :=
  lockFile w' = lockFile w
  /\ contextOpen w' = contextOpen w
  /\ extends_with keepalive_event w w'.

(* ================================================================= *)
(** ** Commands that call into auth.ts

    The actions of the keepalive command (commands/keepalive.ts) and of
    the login command (commands/login.ts).  What an action writes with
    console.log, console.warn and console.error is part of its outcome;
    process.exit ends the action with its code. *)

Inductive Output : Type :=
| Stdout (line : string)    (* console.log *)
| Stderr (line : string).   (* console.error, console.warn *)

Inductive Ending : Type :=
| Returned                  (* the action ran to its end *)
| Exited (code : Z).        (* process.exit(code) *)

(** [isNaN(n)] *)
Definition isNaN (n : JsNum) : bool :=
  match n with
  | NaN => true
  | Num _ => false
  end.

(** [a || d] on an optional string. *)
Definition or_default (a : option string) (d : string) : string :=
  match a with
  | Some s => if str_truthy s then s else d
  | None => d
  end.

(** [s.slice(-n)]: the last [n] characters, or all of [s] when it is
    shorter. *)
Definition slice_last (n : nat) (s : string) : string :=
  drop (String.length s - n) s.

(** [items.slice(-n)] *)
Definition slice_last_items {A : Type} (n : nat) (items : list A) : list A :=
  skipn (List.length items - n) items.

Definition newline : string := String (ascii_of_nat 10) EmptyString.

Definition double_quote : string := String (ascii_of_nat 34) EmptyString.

(** U+2192 and U+2713 in UTF-8. *)
Definition right_arrow : string :=
  String (ascii_of_nat 226) (String (ascii_of_nat 134) (String (ascii_of_nat 146) EmptyString)).

Definition check_mark : string :=
  String (ascii_of_nat 226) (String (ascii_of_nat 156) (String (ascii_of_nat 147) EmptyString)).

(** What the login command needs besides the environment of auth.ts. *)
Record CommandEnv : Type := {
  (* new Date(t).toISOString() *)
  toISOString : Z -> string;
  (* JSON.stringify(value, null, 2) *)
  JSON_stringify_indented : JsValue -> string;
  (* Bun.write on the config file, by time: the exception it throws, if any *)
  config_write_fails : Z -> option Exn
}.

Section Commands.
Context {RT : JsRuntime}.
Variable E : Env.
Variable C : CommandEnv.

(* ----------------------------------------------------------------- *)
(** *** keepalive (commands/keepalive.ts 8-18) *)

Record KeepaliveOptions : Type := {
  ko_interval : option string;
  ko_headless : option bool
}.

Record KeepaliveOutcome : Type := {
  ka_ending : Ending;
  ka_console : list Output
}.

Definition keepaliveCommand_action (turns : nat) (options : KeepaliveOptions)
  : M KeepaliveOutcome :=
  let intervalMinutes := parseInt (or_default (ko_interval options) "10") in
  if isNaN intervalMinutes || js_lt intervalMinutes (Num 1) then
    ret {| ka_ending := Exited 1;
           ka_console := [Stderr "Interval must be >= 1 minute"] |}
  else
    let headless := default false (ko_headless options) in   (* Boolean(...) *)
    match intervalMinutes with
    | Num minutes =>
        startKeepaliveSession E turns minutes (Some headless) ;;
        ret {| ka_ending := Returned; ka_console := [] |}
    | NaN => ret {| ka_ending := Returned; ka_console := [] |}   (* excluded above *)
    end.

(* ----------------------------------------------------------------- *)
(** *** Config file (lib/config.ts) *)

(** [mkdir(CONFIG_DIR, { recursive: true })] *)
Definition ensureConfigDir : M unit := mkdir E CONFIG_DIR.

(** [Bun.write(CONFIG_FILE, JSON.stringify(config, null, 2))]; returns
    the content the config file now holds. *)
Definition saveConfig (config : JsValue) : M string :=
  fun w =>
    match config_write_fails C (now w) with
    | Some e => (Throw e, w)
    | None => (Ok (JSON_stringify_indented C config), w)
    end.

(* ----------------------------------------------------------------- *)
(** *** login (commands/login.ts 10-47) *)

Record LoginOptions : Type := {
  lg_token : option string;
  lg_interactive : option bool;
  lg_check : option bool
}.

Record LoginOutcome : Type := {
  lo_ending : Ending;
  lo_console : list Output;
  lo_config : option string      (* what was written to config.json, if anything *)
}.

(** The lines printed after a failed resolution (lines 19-27). *)
Definition login_help : list Output :=
  [Stderr (newline ++ "To authenticate:");
   Stderr "1. Run with --interactive to open browser and extract token automatically";
   Stderr "   bun run src/cli.ts login --interactive";
   Stderr (newline ++ "2. Or set CLIPPY_TOKEN environment variable manually:");
   Stderr "   - Open https://outlook.office.com in your browser";
   Stderr ("   - Open DevTools (F12) " ++ right_arrow ++ " Network tab");
   Stderr ("   - Filter by " ++ double_quote ++ "service.svc" ++ double_quote
           ++ " and copy the Authorization header");
   Stderr ("   - export CLIPPY_TOKEN=" ++ double_quote ++ "eyJ..." ++ double_quote)]%string.

(** [`${error}`] *)
Definition error_text (error : option string) : string :=
  match error with
  | Some msg => msg
  | None => "undefined"
  end.

(** [token!.slice(-8)] inside a string concatenation: a string and an
    array have [slice]; on anything else the call throws. *)
Definition token_tail (token : JsValue) : M string :=
  match token with
  | JString s => ret (slice_last 8 s)
  | JArray items => ret (object_to_string (JArray (slice_last_items 8 items)))
  | _ => throw TypeError
  end.

(** Lines 31-41: the config is saved unless --check was given; a failure
    is reported and not fatal.  Returns what was written and what was
    printed. *)
Definition login_save (check : bool) : M (option string * list Output) :=
  if negb check then
    try_catch
      (ensureConfigDir ;;
       t <- Date_now ;;
       written <- saveConfig (JObject [("lastValidatedAt", JString (toISOString C t))]) ;;
       ret (Some written, []))
      (fun _ => ret (None, [Stderr "Warning: Could not save config"]))
  else ret (None, []).

Definition loginCommand_action (options : LoginOptions) : M LoginOutcome :=
  let checking := Stdout "Checking OWA session..." in
  result <- resolveAuth E {| ro_token := lg_token options;
                             ro_interactive := lg_interactive options |} ;;
  if negb (success result) then
    ret {| lo_ending := Exited 1;
           lo_console :=
             checking
               :: Stderr (newline ++ "Error: " ++ error_text (error result))%string
               :: login_help;
           lo_config := None |}
  else
    saved <- login_save (default false (lg_check options)) ;;
    tail <- token_tail (token result) ;;
    ret {| lo_ending := Returned;
           lo_console :=
             checking :: snd saved ++
               [Stdout (newline ++ check_mark ++ " Session valid")%string;
                Stdout ("  Token: ***" ++ tail)%string;
                Stdout (newline ++
                        "You are logged in to OWA. Run `clippy whoami` to see account details.")%string];
           lo_config := fst saved |}.

End Commands.

(* ================================================================= *)
(** ** Sample worlds *)

Module Sample.

Definition t0 : Z := 1700000000000.

(** A validator that accepts exactly the token [good]. *)
Definition accepts (good : string) : Z -> string -> FetchOutcome :=
  fun _ header => FetchStatus (String.eqb header ("Bearer " ++ good)%string).

Definition outlook_request (token : string) : Request :=
  {| req_url := "https://outlook.office.com/owa/service.svc";
     req_auth := Some ("Bearer " ++ token)%string |}.

Definition no_fault : FsOp -> bool := fun _ => false.

(** The cache directory cannot be written. *)
Definition cache_readonly : FsOp -> bool :=
  fun op =>
    match op with
    | WriteFile TOKEN_CACHE_FILE => true
    | _ => false
    end.

Definition env (envToken : option string) (good : string)
  (faulty : FsOp -> bool) (seen : list Request) : Env :=
  {| env_CLIPPY_TOKEN := envToken;
     fetch_inbox := accepts good;
     fs_fault := faulty;
     browser_launch := fun _ _ => None;
     browser_session := fun _ _ _ => Completes seen 2000;
     page_goto_fails := fun _ => None;
     page_reload_fails := fun _ => None;
     page_traffic := fun _ => seen |}.

Definition world (lock cache : option string) : World :=
  {| now := t0; lockFile := lock; cacheFile := cache;
     contextOpen := false; spawned := 0; trace := [] |}.

Definition options (tok : option string) (interactive : bool) : ResolveOptions :=
  {| ro_token := tok; ro_interactive := Some interactive |}.

(** header.payload.signature with payload [{"exp":1700003600}] *)
Definition jwt_with_exp : string := "eyJhbGciOiJub25lIn0.eyJleHAiOjE3MDAwMDM2MDB9.c2ln".


(** A cache file holding these fields. *)
Definition cache_json (fields : list (string * JsValue)) : option string :=
  Some (Reference.stringify_or_undefined (JObject fields)).

(** A cache that holds the token OLD, one minute from expiry. *)
Definition expiring_cache : option string :=
  cache_json [("token", JString "OLD");
              ("expiresAt", JNumber (Num (t0 + 60000)))].

End Sample.

(* ================================================================= *)
(** * Properties *)

(** ** Splitting a token *)

Lemma split_dot_nonempty (s : string) : split_dot s <> [].
Proof.
  destruct s as [|c r]; simpl; [discriminate|].
  destruct (Ascii.eqb c "."); [discriminate|].
  destruct (split_dot r); discriminate.
Qed.

Lemma split_dot_no_dot (s : string) :
  has_dot s = false -> split_dot s = [s].
Proof.
  induction s as [|c r IH]; simpl; intros H; [reflexivity|].
  apply orb_false_iff in H as [Hc Hr].
  rewrite Hc, (IH Hr). reflexivity.
Qed.

Lemma split_dot_segment (h r : string) :
  has_dot h = false ->
  split_dot (h ++ String "."%char r)%string = h :: split_dot r.
Proof.
  induction h as [|c h IH]; simpl; intros H; [reflexivity|].
  apply orb_false_iff in H as [Hc Hh].
  rewrite Hc, (IH Hh). reflexivity.
Qed.

Lemma split_dot_three (h p s : string) :
  has_dot h = false -> has_dot p = false -> has_dot s = false ->
  split_dot (h ++ "." ++ p ++ "." ++ s)%string = [h; p; s].
Proof.
  intros Hh Hp Hs. simpl.
  rewrite (split_dot_segment _ _ Hh), (split_dot_segment _ _ Hp).
  rewrite (split_dot_no_dot _ Hs). reflexivity.
Qed.

(** ** Numbers *)


(** ** Expiry oracle *)

Section ExpiryFacts.
Context {RT : JsRuntime}.



Lemma getJwtExpiration_payload (h p s : string) (payload : JsValue) :
  has_dot h = false -> has_dot p = false -> has_dot s = false ->
  JSON_parse (base64url_decode p) = Some payload ->
  getJwtExpiration (h ++ "." ++ p ++ "." ++ s)%string =
    match get_prop payload "exp" with
    | Val exp =>
        if truthy exp then Some (js_mul (to_number exp) (Num 1000)) else None
    | Raised _ => None
    end.
Proof.
  intros Hh Hp Hs Hparse.
  unfold getJwtExpiration, getJwtExpiration_try.
  rewrite (split_dot_three _ _ _ Hh Hp Hs). simpl.
  rewrite Hparse.
  destruct (get_prop payload "exp") as [exp|e]; try reflexivity.
  destruct (truthy exp); reflexivity.
Qed.

Lemma getJwtExpiration_unparsable (h p s : string) :
  has_dot h = false -> has_dot p = false -> has_dot s = false ->
  JSON_parse (base64url_decode p) = None ->
  getJwtExpiration (h ++ "." ++ p ++ "." ++ s)%string = None.
Proof.
  intros Hh Hp Hs Hparse.
  unfold getJwtExpiration, getJwtExpiration_try.
  rewrite (split_dot_three _ _ _ Hh Hp Hs). simpl.
  rewrite Hparse. reflexivity.
Qed.

End ExpiryFacts.

(** ** Running effectful code *)

Lemma skipn_exact {A : Type} (l r : list A) :
  skipn (List.length l) (l ++ r) = r.
Proof. rewrite skipn_app, skipn_all, Nat.sub_diag. reflexivity. Qed.

(** Brings [skipn (length t) (((t ++ a) ++ b) ++ c)] to [a ++ b ++ c]. *)
Ltac new_events := rewrite <- ?app_assoc; rewrite ?skipn_exact; simpl.

Lemma events_of_spec {A : Type} (m : M A) (w : World) (evs : list Event) :
  trace (snd (m w)) = trace w ++ evs -> events_of m w = evs.
Proof.
  intros H. unfold events_of. rewrite H.
  rewrite skipn_app, skipn_all, Nat.sub_diag. reflexivity.
Qed.

Lemma extends_with_events {A : Type} (P : Event -> Prop) (m : M A) (w : World) :
  extends_with P w (snd (m w)) ->
  trace (snd (m w)) = trace w ++ events_of m w /\ Forall P (events_of m w).
Proof.
  intros [evs [Ht HP]]. rewrite (events_of_spec m w evs Ht). auto.
Qed.

Lemma extends_with_refl (P : Event -> Prop) (w : World) : extends_with P w w.
Proof. exists []. rewrite app_nil_r. auto. Qed.

Lemma extends_with_trans (P : Event -> Prop) (a b c : World) :
  extends_with P a b -> extends_with P b c -> extends_with P a c.
Proof.
  intros [e1 [H1 F1]] [e2 [H2 F2]]. exists (e1 ++ e2). split.
  - rewrite H2, H1, app_assoc. reflexivity.
  - apply Forall_app; auto.
Qed.

Lemma extends_with_weaken (P Q : Event -> Prop) (w w' : World) :
  (forall e, P e -> Q e) -> extends_with P w w' -> extends_with Q w w'.
Proof.
  intros HPQ [evs [Ht HP]]. exists evs. split; [exact Ht|].
  eapply Forall_impl; eauto.
Qed.

Lemma extends_with_log (P : Event -> Prop) (w : World) (e : Event) :
  P e -> extends_with P w (log_event w e).
Proof. intros H. exists [e]. simpl. auto. Qed.

Lemma extends_with_advance (P : Event -> Prop) (w : World) (ms : Z) :
  extends_with P w (advance w ms).
Proof. exists []. simpl. rewrite app_nil_r. auto. Qed.

Lemma extends_with_set_lock (P : Event -> Prop) (w : World) (c : option string) :
  extends_with P w (set_file w LOCK_FILE c).
Proof. exists []. simpl. rewrite app_nil_r. auto. Qed.

Lemma extends_with_set_context (P : Event -> Prop) (w : World) (b : bool) :
  extends_with P w (set_context w b).
Proof. exists []. simpl. rewrite app_nil_r. auto. Qed.

Section Respects.
Variable R : World -> World -> Prop.
Hypothesis R_refl : forall w, R w w.
Hypothesis R_trans : forall a b c, R a b -> R b c -> R a c.

Lemma respects_ret {A : Type} (a : A) : respects R (ret a).
Proof. intros w. apply R_refl. Qed.

Lemma respects_throw {A : Type} (e : Exn) : respects R (@throw A e).
Proof. intros w. apply R_refl. Qed.

Lemma respects_out_of_fuel {A : Type} : respects R (@out_of_fuel A).
Proof. intros w. apply R_refl. Qed.

Lemma respects_bind {A B : Type} (m : M A) (k : A -> M B) :
  respects R m -> (forall a, respects R (k a)) -> respects R (bind m k).
Proof.
  intros Hm Hk w. unfold bind. specialize (Hm w).
  destruct (m w) as [[a|e|] w1]; simpl in *; auto.
  eapply R_trans; [exact Hm | apply Hk].
Qed.

Lemma respects_try_catch {A : Type} (m : M A) (h : Exn -> M A) :
  respects R m -> (forall e, respects R (h e)) -> respects R (try_catch m h).
Proof.
  intros Hm Hh w. unfold try_catch. specialize (Hm w).
  destruct (m w) as [[a|e|] w1]; simpl in *; auto.
  eapply R_trans; [exact Hm | apply Hh].
Qed.

Lemma respects_Date_now : respects R Date_now.
Proof. intros w. apply R_refl. Qed.

Lemma respects_get_prop_m (v : JsValue) (k : string) : respects R (get_prop_m v k).
Proof. intros w. unfold get_prop_m. destruct (get_prop v k); apply R_refl. Qed.

Lemma respects_context_is_open : respects R context_is_open.
Proof. intros w. apply R_refl. Qed.

Lemma respects_JSON_parse_m {RT : JsRuntime} (data : string) :
  respects R (JSON_parse_m data).
Proof.
  unfold JSON_parse_m. destruct (JSON_parse data);
    [apply respects_ret | apply respects_throw].
Qed.

End Respects.

Lemma total_ret {A : Type} (a : A) : total (ret a).
Proof. intros w. exists a. reflexivity. Qed.

Lemma total_bind {A B : Type} (m : M A) (k : A -> M B) :
  total m -> (forall a, total (k a)) -> total (bind m k).
Proof.
  intros Hm Hk w. unfold bind. destruct (Hm w) as [a Ha].
  destruct (m w) as [r w1]. simpl in Ha. subst r. apply Hk.
Qed.

(** A handler that always returns makes the [try] total, provided the body
    does not exhaust the loop bound. *)
Lemma total_try_catch {A : Type} (m : M A) (h : Exn -> M A) :
  (forall w, fst (m w) <> OutOfFuel) -> (forall e, total (h e)) ->
  total (try_catch m h).
Proof.
  intros Hm Hh w. unfold try_catch. specialize (Hm w).
  destruct (m w) as [[a|e|] w1]; simpl in *.
  - exists a. reflexivity.
  - apply Hh.
  - congruence.
Qed.

Lemma returns_ret {A : Type} (Q : A -> Prop) (a : A) : Q a -> returns Q (ret a).
Proof. intros H w a' Ha. inversion Ha. subst. exact H. Qed.

Lemma returns_bind {A B : Type} (Q : B -> Prop) (m : M A) (k : A -> M B) :
  (forall a, returns Q (k a)) -> returns Q (bind m k).
Proof.
  intros Hk w b. unfold bind.
  destruct (m w) as [[a|e|] w1]; simpl; try discriminate.
  apply Hk.
Qed.

Lemma returns_try_catch {A : Type} (Q : A -> Prop) (m : M A) (h : Exn -> M A) :
  returns Q m -> (forall e, returns Q (h e)) -> returns Q (try_catch m h).
Proof.
  intros Hm Hh w a. unfold try_catch. specialize (Hm w).
  destruct (m w) as [[a'|e|] w1]; simpl in *; try discriminate.
  - apply Hm.
  - apply Hh.
Qed.

Lemma returns_throw {A : Type} (Q : A -> Prop) (e : Exn) : returns Q (@throw A e).
Proof. intros w a H. discriminate. Qed.

Lemma returns_out_of_fuel {A : Type} (Q : A -> Prop) : returns Q (@out_of_fuel A).
Proof. intros w a H. discriminate. Qed.

Lemma respects_bind_returns (R : World -> World -> Prop) {A B : Type}
  (Q : A -> Prop) (m : M A) (k : A -> M B) :
  (forall a b c, R a b -> R b c -> R a c) ->
  respects R m -> returns Q m -> (forall a, Q a -> respects R (k a)) ->
  respects R (bind m k).
Proof.
  intros R_trans Hm HQ Hk w. unfold bind.
  specialize (Hm w). specialize (HQ w).
  destruct (m w) as [[a|e|] w1]; simpl in *; auto.
  eapply R_trans; [exact Hm | apply Hk, HQ; reflexivity].
Qed.

Lemma total_bind_returns {A B : Type} (Q : A -> Prop) (m : M A) (k : A -> M B) :
  total m -> returns Q m -> (forall a, Q a -> total (k a)) -> total (bind m k).
Proof.
  intros Hm HQ Hk w. unfold bind. destruct (Hm w) as [a Ha].
  specialize (HQ w a).
  destruct (m w) as [r w1]. simpl in *. subst r. apply Hk, HQ. reflexivity.
Qed.

Lemma total_bounded {A : Type} (m : M A) : total m -> bounded m.
Proof. intros H w. destruct (H w) as [a Ha]. rewrite Ha. discriminate. Qed.

Lemma bounded_ret {A : Type} (a : A) : bounded (ret a).
Proof. intros w. discriminate. Qed.

Lemma bounded_throw {A : Type} (e : Exn) : bounded (@throw A e).
Proof. intros w. discriminate. Qed.

Lemma bounded_bind {A B : Type} (m : M A) (k : A -> M B) :
  bounded m -> (forall a, bounded (k a)) -> bounded (bind m k).
Proof.
  intros Hm Hk w. unfold bind. specialize (Hm w).
  destruct (m w) as [[a|e|] w1]; simpl in *; try discriminate; auto.
  apply Hk.
Qed.

Lemma bounded_try_catch {A : Type} (m : M A) (h : Exn -> M A) :
  bounded m -> (forall e, bounded (h e)) -> bounded (try_catch m h).
Proof.
  intros Hm Hh w. unfold try_catch. specialize (Hm w).
  destruct (m w) as [[a|e|] w1]; simpl in *; try discriminate; auto.
  apply Hh.
Qed.

Section Primitives.
Context {RT : JsRuntime}.
Variable E : Env.

Ltac prim_bounded :=
  intros w;
  cbv beta delta [readFile writeFile unlink open_wx fd_write fd_close mkdir
                  sleep emit console_log launchPersistentContext context_close
                  context_is_open capture_tokens Date_now get_prop_m read_env
                  validateSession spawn_refresh JSON_parse_m ret throw
                  last_tokens page_goto page_reload];
  repeat match goal with
         | |- context [if ?b then _ else _] => destruct b
         | |- context [match ?x with _ => _ end] => destruct x
         end;
  simpl; discriminate.

Lemma bounded_readFile (p : Path) : bounded (readFile E p).
Proof. prim_bounded. Qed.

Lemma bounded_writeFile (p : Path) (data : string) : bounded (writeFile E p data).
Proof. prim_bounded. Qed.

Lemma bounded_unlink (p : Path) : bounded (unlink E p).
Proof. prim_bounded. Qed.

Lemma bounded_mkdir (p : Path) : bounded (mkdir E p).
Proof. prim_bounded. Qed.

Lemma bounded_launch (headless : bool) : bounded (launchPersistentContext E headless).
Proof. prim_bounded. Qed.

Lemma bounded_capture_tokens (headless : bool) (timeout : Z) :
  bounded (capture_tokens E headless timeout).
Proof. prim_bounded. Qed.

Lemma bounded_JSON_parse_m (data : string) : bounded (JSON_parse_m data).
Proof. prim_bounded. Qed.

Lemma bounded_get_prop_m (v : JsValue) (k : string) : bounded (get_prop_m v k).
Proof. intros w. unfold get_prop_m. destruct (get_prop v k); discriminate. Qed.

Lemma total_emit (e : Event) : total (emit e).
Proof. intros w. exists tt. reflexivity. Qed.

Lemma total_console_log (msg : string) : total (console_log msg).
Proof. apply total_emit. Qed.

Lemma total_sleep (ms : Z) : total (sleep ms).
Proof. intros w. exists tt. reflexivity. Qed.

Lemma total_Date_now : total Date_now.
Proof. intros w. exists (now w). reflexivity. Qed.

Lemma total_context_close : total context_close.
Proof. intros w. exists tt. reflexivity. Qed.

Lemma total_context_is_open : total context_is_open.
Proof. intros w. exists (contextOpen w). reflexivity. Qed.

Lemma total_read_env : total (read_env E).
Proof. intros w. exists (env_CLIPPY_TOKEN E). reflexivity. Qed.

Lemma total_spawn_refresh : total spawn_refresh.
Proof. intros w. exists tt. reflexivity. Qed.

Lemma total_validateSession (token : JsValue) : total (validateSession E token).
Proof. intros w. unfold validateSession. eexists. reflexivity. Qed.

Lemma total_release : total (release (lock_handle E)).
Proof.
  simpl. apply total_try_catch; [ apply bounded_unlink | intros e; apply total_ret ].
Qed.

End Primitives.

(** ** Cross-process lock *)

#[local] Arguments js_sub : simpl never.
#[local] Arguments js_gt : simpl never.

Section LockFacts.
Context {RT : JsRuntime}.
Variable E : Env.

Lemma acquireLock_attempt_handle :
  returns (fun step : LoopStep LockHandle => step = Continue \/ step = Return (lock_handle E))
          (acquireLock_attempt E).
Proof.
  unfold acquireLock_attempt.
  apply returns_try_catch.
  - apply returns_bind. intros proceed. destruct proceed.
    + repeat (apply returns_bind; intros ?). apply returns_ret. auto.
    + apply returns_ret. auto.
  - intros e. destruct (is_EEXIST e);
      apply returns_bind; intros _; apply returns_ret; auto.
Qed.

Lemma acquireLock_loop_handle (fuel : nat) (startTime timeout : Z) :
  returns (is_lock_handle E) (acquireLock_loop E fuel startTime timeout).
Proof.
  induction fuel as [|fuel IH]; simpl;
    apply returns_bind; intros t;
    (destruct (t - startTime <? timeout);
     [ | apply returns_ret; left; reflexivity ]).
  - apply returns_out_of_fuel.
  - intros w o. unfold bind.
    pose proof (acquireLock_attempt_handle w) as Hh.
    destruct (acquireLock_attempt E w) as [[step|e|] w1]; simpl in *;
      try discriminate.
    destruct (Hh step eq_refl) as [-> | ->].
    + apply IH.
    + intros H. inversion H. right. reflexivity.
Qed.

Lemma acquireLock_handle (timeout : Z) :
  returns (is_lock_handle E) (acquireLock E timeout).
Proof.
  unfold acquireLock. repeat (apply returns_bind; intros ?).
  apply acquireLock_loop_handle.
Qed.

Ltac run_lock :=
  cbv beta delta [acquireLock_attempt check_existing_lock bind try_catch ret
                  throw readFile unlink open_wx fd_write fd_close mkdir sleep
                  emit Date_now file is_EEXIST];
  repeat (simpl;
          match goal with
          | |- context [fs_fault E ?op] => destruct (fs_fault E op) eqn:?
          | |- context [match lockFile ?w with _ => _ end] =>
              destruct (lockFile w) eqn:?
          | |- context [if js_gt ?a ?b then _ else _] => destruct (js_gt a b) eqn:?
          end);
  simpl.

(** A turn that does not return lets at least 100 ms pass, a turn that
    returns has closed the marker it created, and no turn throws. *)
Lemma acquireLock_attempt_progress (w : World) :
  match acquireLock_attempt E w with
  | (Ok (Return _), w') =>
      exists evs, trace w' = trace w ++ evs
                  /\ In (EvFs (FdClose LOCK_FILE) true) evs
  | (Ok Continue, w') =>
      now w + 100 <= now w' /\ exists evs, trace w' = trace w ++ evs
  | _ => False
  end.
Proof.
  run_lock; try congruence; rewrite <- ?app_assoc;
    repeat split; try lia; eexists; try split; try reflexivity; simpl; tauto.
Qed.

Lemma acquireLock_loop_result (startTime timeout : Z) (fuel : nat) :
  forall w,
    timeout - (now w - startTime) <= 100 * Z.of_nat fuel ->
    match acquireLock_loop E fuel startTime timeout w with
    | (Ok None, w') =>
        timeout <= now w' - startTime /\ exists evs, trace w' = trace w ++ evs
    | (Ok (Some _), w') =>
        exists evs, trace w' = trace w ++ evs
                    /\ In (EvFs (FdClose LOCK_FILE) true) evs
    | _ => False
    end.
Proof.
  induction fuel as [|fuel IH]; intros w Hfuel;
    simpl acquireLock_loop; unfold bind at 1, Date_now;
    destruct (now w - startTime <? timeout) eqn:Hc;
    try (apply Z.ltb_ge in Hc; simpl; split;
         [ lia | exists []; rewrite app_nil_r; reflexivity ]).
  - apply Z.ltb_lt in Hc. lia.
  - unfold bind.
    pose proof (acquireLock_attempt_progress w) as Hstep.
    destruct (acquireLock_attempt E w) as [[[|h]|e|] w1]; try contradiction.
    + destruct Hstep as [Hnow [e1 Ht1]].
      assert (Hfuel1 : timeout - (now w1 - startTime) <= 100 * Z.of_nat fuel) by lia.
      specialize (IH w1 Hfuel1).
      destruct (acquireLock_loop E fuel startTime timeout w1) as [[[h|]|e|] w2];
        try contradiction.
      * destruct IH as [e2 [Ht2 Hin]]. exists (e1 ++ e2). split.
        -- rewrite Ht2, Ht1, app_assoc. reflexivity.
        -- apply in_or_app. right. exact Hin.
      * destruct IH as [Hdead [e2 Ht2]]. split; [exact Hdead|].
        exists (e1 ++ e2). rewrite Ht2, Ht1, app_assoc. reflexivity.
    + exact Hstep.
Qed.

Lemma acquireLock_fuel_enough (timeout : Z) :
  timeout <= 100 * Z.of_nat (acquireLock_fuel timeout).
Proof.
  unfold acquireLock_fuel.
  destruct (Z_le_gt_dec timeout 0) as [Hle | Hgt]; [lia|].
  pose proof (Z.div_mod timeout 100 ltac:(lia)) as Hdm.
  pose proof (Z.mod_pos_bound timeout 100 ltac:(lia)) as Hm.
  assert (0 <= timeout / 100) by (apply Z.div_pos; lia).
  rewrite Z2Nat.id by lia. lia.
Qed.

(** acquireLock always returns; it returns none only once the deadline
    has passed, and a handle only after it created the marker. *)
Lemma acquireLock_result (timeout : Z) (w : World) :
  match acquireLock E timeout w with
  | (Ok None, w') =>
      timeout <= now w' - now w /\ exists evs, trace w' = trace w ++ evs
  | (Ok (Some _), w') =>
      exists evs, trace w' = trace w ++ evs
                  /\ In (EvFs (FdClose LOCK_FILE) true) evs
  | _ => False
  end.
Proof.
  unfold acquireLock, bind, emit, Date_now.
  set (w0 := log_event w (EvCall (CallAcquireLock timeout))).
  pose proof (@acquireLock_loop_result (now w0) timeout
                (acquireLock_fuel timeout) w0) as H.
  pose proof (acquireLock_fuel_enough timeout) as Hf.
  assert (Hpre : timeout - (now w0 - now w0) <= 100 * Z.of_nat (acquireLock_fuel timeout))
    by lia.
  specialize (H Hpre).
  destruct (acquireLock_loop E (acquireLock_fuel timeout) (now w0) timeout w0)
    as [[[h|]|e|] w2]; try contradiction.
  - destruct H as [evs [Ht Hin]].
    exists (EvCall (CallAcquireLock timeout) :: evs). split.
    + rewrite Ht. subst w0. simpl. rewrite <- app_assoc. reflexivity.
    + right. exact Hin.
  - destruct H as [Hdead [evs Ht]]. split; [exact Hdead|].
    exists (EvCall (CallAcquireLock timeout) :: evs).
    rewrite Ht. subst w0. simpl. rewrite <- app_assoc. reflexivity.
Qed.

Lemma acquireLock_total (timeout : Z) : total (acquireLock E timeout).
Proof.
  intros w. pose proof (acquireLock_result timeout w) as H.
  destruct (acquireLock E timeout w) as [[o|e|] w']; try contradiction.
  exists o. reflexivity.
Qed.

(** *** A marker that is not stale *)

Lemma attempt_on_held_lock (w : World) (s : string) :
  lockFile w = Some s ->
  fs_fault E (ReadFile LOCK_FILE) = false ->
  js_gt (js_sub (Num (now w)) (parseInt s)) (Num LOCK_TIMEOUT) = false ->
  acquireLock_attempt E w = (Ok Continue, held_turn w).
Proof.
  intros Hlock Hread Hfresh. unfold held_turn.
  run_lock; try congruence; reflexivity.
Qed.

(** *** A stale marker *)


Lemma attempt_on_stale_lock (w : World) (s : string) :
  lockFile w = Some s ->
  js_gt (js_sub (Num (now w)) (parseInt s)) (Num LOCK_TIMEOUT) = true ->
  (forall op, fs_fault E op = false) ->
  let r := acquireLock_attempt E w in
  fst r = Ok (Return (lock_handle E))
  /\ now (snd r) = now w
  /\ lockFile (snd r) = Some (Z_to_string (now w))
  /\ events_of (acquireLock_attempt E) w =
       [EvFs (ReadFile LOCK_FILE) true; EvFs (Unlink LOCK_FILE) true;
        EvFs (Mkdir CONFIG_DIR) true; EvFs (OpenWx LOCK_FILE) true;
        EvFs (FdWrite LOCK_FILE) true; EvFs (FdClose LOCK_FILE) true].
Proof.
  intros Hlock Hstale Hok. unfold events_of.
  pose proof (Hok (ReadFile LOCK_FILE)). pose proof (Hok (Unlink LOCK_FILE)).
  pose proof (Hok (Mkdir CONFIG_DIR)). pose proof (Hok (OpenWx LOCK_FILE)).
  pose proof (Hok (FdWrite LOCK_FILE)). pose proof (Hok (FdClose LOCK_FILE)).
  run_lock; try congruence; new_events; repeat split; congruence.
Qed.

(** *** A marker that never becomes stale *)

Lemma held_loop (s : string) (startTime timeout : Z) (fuel : nat) :
  fs_fault E (ReadFile LOCK_FILE) = false ->
  (forall t, js_gt (js_sub (Num t) (parseInt s)) (Num LOCK_TIMEOUT) = false) ->
  forall w,
    lockFile w = Some s ->
    timeout - (now w - startTime) <= 500 * Z.of_nat fuel ->
    now w - startTime < timeout + 500 ->
    let r := acquireLock_loop E fuel startTime timeout w in
    fst r = Ok None
    /\ lockFile (snd r) = Some s
    /\ timeout <= now (snd r) - startTime < timeout + 500
    /\ extends_with poll_event w (snd r).
Proof.
  intros Hread Hnever.
  induction fuel as [|fuel IH]; intros w Hlock Hfuel Hinv;
    simpl acquireLock_loop; unfold bind at 1, Date_now;
    destruct (now w - startTime <? timeout) eqn:Hc;
    try (apply Z.ltb_ge in Hc; simpl; repeat split;
         [ exact Hlock | lia | lia | apply extends_with_refl ]).
  - apply Z.ltb_lt in Hc. lia.
  - apply Z.ltb_lt in Hc. unfold bind.
    rewrite (attempt_on_held_lock w Hlock Hread (Hnever (now w))).
    assert (Hlock1 : lockFile (held_turn w) = Some s) by exact Hlock.
    assert (Hnow1 : now (held_turn w) = now w + 500) by reflexivity.
    destruct (IH (held_turn w) Hlock1 ltac:(lia) ltac:(lia))
      as [Hres [Hl [Hd Hext]]].
    repeat split; try assumption; try lia.
    eapply extends_with_trans; [ | exact Hext ].
    exists [EvFs (ReadFile LOCK_FILE) true; EvSleep 500]. split.
    + unfold held_turn. simpl. rewrite <- app_assoc. reflexivity.
    + constructor; [ left; reflexivity | ].
      constructor; [ right; reflexivity | constructor ].
Qed.

End LockFacts.

(** ** What the lock and the extractor touch *)

Lemma lock_event_extraction (e : Event) : lock_event e -> extraction_event e.
Proof.
  destruct e as [c|op ok| | | | | | |]; simpl; try tauto.
  destruct op; simpl; tauto.
Qed.

Section LockFrame.
Context {RT : JsRuntime}.
Variable E : Env.
Variable R : World -> World -> Prop.
Hypothesis R_refl : forall w, R w w.
Hypothesis R_trans : forall a b c, R a b -> R b c -> R a c.
Hypothesis R_log : forall w e, lock_event e -> R w (log_event w e).
Hypothesis R_advance : forall w ms, R w (advance w ms).
Hypothesis R_lock : forall w c, R w (set_file w LOCK_FILE c).

Ltac frame_op :=
  intros w; cbv beta delta [readFile unlink open_wx fd_write fd_close mkdir
                            sleep file];
  repeat match goal with
         | |- context [if ?b then _ else _] => destruct b
         | |- context [match ?x with _ => _ end] => destruct x
         end;
  simpl;
  repeat first
    [ apply R_refl
    | apply R_advance
    | apply R_lock
    | apply R_log; simpl; auto
    | eapply R_trans; [ | apply R_log; simpl; solve [auto] ] ].

Lemma frame_sleep (ms : Z) : respects R (sleep ms).
Proof. frame_op. Qed.

Lemma frame_readFile_lock : respects R (readFile E LOCK_FILE).
Proof. frame_op. Qed.

Lemma frame_unlink_lock : respects R (unlink E LOCK_FILE).
Proof. frame_op. Qed.

Lemma frame_open_wx_lock : respects R (open_wx E LOCK_FILE).
Proof. frame_op. Qed.

Lemma frame_fd_write_lock (data : string) : respects R (fd_write E LOCK_FILE data).
Proof. frame_op. Qed.

Lemma frame_fd_close_lock : respects R (fd_close E LOCK_FILE).
Proof. frame_op. Qed.

Lemma frame_mkdir_config : respects R (mkdir E CONFIG_DIR).
Proof. frame_op. Qed.

Ltac frame_step :=
  first
    [ apply (respects_bind R_trans); [ | intros ? ]
    | apply (respects_try_catch R_trans); [ | intros ? ]
    | apply (respects_ret R R_refl)
    | apply (respects_throw R R_refl)
    | apply (respects_out_of_fuel R R_refl)
    | apply (respects_Date_now R R_refl)
    | apply frame_sleep
    | apply frame_readFile_lock
    | apply frame_unlink_lock
    | apply frame_open_wx_lock
    | apply frame_fd_write_lock
    | apply frame_fd_close_lock
    | apply frame_mkdir_config
    | match goal with
      | |- respects _ (if ?b then _ else _) => destruct b
      | |- respects _ (match ?x with _ => _ end) => destruct x
      end ].

Lemma frame_release : respects R (release (lock_handle E)).
Proof. simpl. repeat frame_step. Qed.

Lemma frame_check_existing_lock : respects R (check_existing_lock E).
Proof. unfold check_existing_lock. repeat frame_step. Qed.

Lemma frame_acquireLock_attempt : respects R (acquireLock_attempt E).
Proof.
  unfold acquireLock_attempt.
  apply (respects_try_catch R_trans); [ | intros ?; repeat frame_step ].
  apply (respects_bind R_trans); [ apply frame_check_existing_lock | intros ? ].
  repeat frame_step.
Qed.

Lemma frame_acquireLock_loop (fuel : nat) (startTime timeout : Z) :
  respects R (acquireLock_loop E fuel startTime timeout).
Proof.
  induction fuel as [|fuel IH]; simpl.
  - repeat frame_step.
  - apply (respects_bind R_trans); [ frame_step | intros t ].
    destruct (t - startTime <? timeout); [ | frame_step ].
    apply (respects_bind R_trans); [ apply frame_acquireLock_attempt | intros step ].
    destruct step; [ exact IH | frame_step ].
Qed.

End LockFrame.

Section ExtractionFrame.
Context {RT : JsRuntime}.
Variable E : Env.
Variable R : World -> World -> Prop.
Hypothesis R_refl : forall w, R w w.
Hypothesis R_trans : forall a b c, R a b -> R b c -> R a c.
Hypothesis R_log : forall w e, extraction_event e -> R w (log_event w e).
Hypothesis R_advance : forall w ms, R w (advance w ms).
Hypothesis R_lock : forall w c, R w (set_file w LOCK_FILE c).
Hypothesis R_context : forall w b, R w (set_context w b).
Hypothesis R_entry : forall w headless timeout,
  R w (log_event w (EvCall (CallExtractTokenViaPlaywright headless timeout))).

Lemma R_log_lock (w : World) (e : Event) : lock_event e -> R w (log_event w e).
Proof. intros He. apply R_log, lock_event_extraction, He. Qed.

Ltac frame_op :=
  intros w; cbv beta delta [mkdir emit console_log launchPersistentContext
                            context_close capture_tokens];
  repeat match goal with
         | |- context [if ?b then _ else _] => destruct b
         | |- context [match ?x with _ => _ end] => destruct x
         end;
  simpl;
  repeat first
    [ apply R_refl
    | apply R_advance
    | apply R_context
    | apply R_log; simpl; auto
    | eapply R_trans; [ | apply R_log; simpl; solve [auto] ] ].

Lemma frame_emit (e : Event) : extraction_event e -> respects R (emit e).
Proof. intros He w. apply R_log, He. Qed.

Lemma frame_console_log (msg : string) : respects R (console_log msg).
Proof. apply frame_emit. exact I. Qed.

Lemma frame_mkdir_profile : respects R (mkdir E PROFILE_DIR).
Proof. frame_op. Qed.

Lemma frame_launch (headless : bool) : respects R (launchPersistentContext E headless).
Proof. frame_op. Qed.

Lemma frame_context_close : respects R context_close.
Proof. frame_op. Qed.

Lemma frame_capture_tokens (headless : bool) (timeout : Z) :
  respects R (capture_tokens E headless timeout).
Proof. frame_op. Qed.

Lemma frame_acquireLock (timeout : Z) : respects R (acquireLock E timeout).
Proof.
  unfold acquireLock.
  apply (respects_bind R_trans); [ apply frame_emit; exact I | intros _ ].
  apply (respects_bind R_trans); [ apply (respects_Date_now R R_refl) | intros t ].
  apply frame_acquireLock_loop; auto using R_log_lock.
Qed.

Ltac frame_step :=
  first
    [ apply frame_release; solve [ auto using R_log_lock ]
    | apply (respects_bind R_trans); [ | intros ? ]
    | apply (respects_try_catch R_trans); [ | intros ? ]
    | apply (respects_ret R R_refl)
    | apply (respects_context_is_open R R_refl)
    | apply frame_console_log
    | apply frame_mkdir_profile
    | apply frame_launch
    | apply frame_context_close
    | apply frame_capture_tokens
    | match goal with
      | |- respects _ (if ?b then _ else _) => destruct b
      | |- respects _ (match ?x with _ => _ end) => destruct x
      | |- respects _ (let '(_, _) := ?x in _) => destruct x
      end ].

Lemma frame_extract_with_lock (headless : bool) (timeout : Z) :
  respects R (extract_with_lock E headless timeout (lock_handle E)).
Proof. unfold extract_with_lock. repeat frame_step. Qed.

Lemma frame_tryExtractToken (headless : bool) (timeout : Z) :
  respects R (tryExtractToken E headless timeout).
Proof.
  unfold tryExtractToken.
  apply (respects_bind R_trans); [ apply frame_emit; exact I | intros _ ].
  apply respects_bind_returns with (Q := is_lock_handle E);
    [ exact R_trans | apply frame_acquireLock | apply acquireLock_handle | ].
  intros lock [-> | ->]; [ frame_step | apply frame_extract_with_lock ].
Qed.

Lemma frame_extractTokenViaPlaywright (options : ExtractOptions) :
  respects R (extractTokenViaPlaywright E options).
Proof.
  unfold extractTokenViaPlaywright.
  apply (respects_bind R_trans); [ intros w; apply R_entry | intros _ ].
  apply (respects_bind R_trans); [ apply frame_tryExtractToken | intros result ].
  destruct (pw_success result); [ frame_step | ].
  destruct (default true (eo_headless options)); [ | frame_step ].
  apply (respects_bind R_trans); [ frame_step | intros _ ].
  apply frame_tryExtractToken.
Qed.

End ExtractionFrame.

(** ** Credential extractor *)

Section ExtractFacts.
Context {RT : JsRuntime}.
Variable E : Env.

Lemma extract_with_lock_total (headless : bool) (timeout : Z) :
  total (extract_with_lock E headless timeout (lock_handle E)).
Proof.
  unfold extract_with_lock.
  apply total_try_catch.
  - intros w. revert w. change (bounded
      (mkdir E PROFILE_DIR ;;
       launchPersistentContext E headless ;;
       (if headless then ret tt
        else console_log "Please complete the login process in the browser...") ;;
       captured <- capture_tokens E headless timeout ;;
       context_close ;;
       release (lock_handle E) ;;
       (let '(capturedToken, capturedGraphToken) := captured in
        if opt_truthy capturedToken
        then ret {| pw_success := true; pw_token := capturedToken;
                    pw_graphToken := or_undefined capturedGraphToken;
                    pw_error := None |}
        else ret (pw_failure
                    (if headless then "No active session found"
                     else "Timeout: No Bearer token captured. Make sure you completed the login."))))).
    apply bounded_bind; [ apply bounded_mkdir | intros _ ].
    apply bounded_bind; [ apply bounded_launch | intros _ ].
    apply bounded_bind;
      [ destruct headless;
        [ apply bounded_ret | apply total_bounded, total_console_log ]
      | intros _ ].
    apply bounded_bind; [ apply bounded_capture_tokens | intros [tok graph] ].
    apply bounded_bind; [ apply total_bounded, total_context_close | intros _ ].
    apply bounded_bind; [ apply total_bounded, total_release | intros _ ].
    destruct (opt_truthy tok); apply bounded_ret.
  - intros e.
    apply total_bind; [ apply total_context_is_open | intros ctx ].
    apply total_bind;
      [ destruct ctx; [ apply total_context_close | apply total_ret ]
      | intros _ ].
    apply total_bind; [ apply total_release | intros _ ].
    apply total_ret.
Qed.

Lemma tryExtractToken_total (headless : bool) (timeout : Z) :
  total (tryExtractToken E headless timeout).
Proof.
  unfold tryExtractToken.
  apply total_bind; [ apply total_emit | intros _ ].
  apply total_bind_returns with (Q := is_lock_handle E);
    [ apply acquireLock_total | apply acquireLock_handle | ].
  intros lock [-> | ->]; [ apply total_ret | apply extract_with_lock_total ].
Qed.

Lemma extractTokenViaPlaywright_total (options : ExtractOptions) :
  total (extractTokenViaPlaywright E options).
Proof.
  unfold extractTokenViaPlaywright.
  apply total_bind; [ apply total_emit | intros _ ].
  apply total_bind; [ apply tryExtractToken_total | intros result ].
  destruct (pw_success result); [ apply total_ret | ].
  destruct (default true (eo_headless options)); [ | apply total_ret ].
  apply total_bind; [ apply total_console_log | intros _ ].
  apply tryExtractToken_total.
Qed.

(** tryExtractToken adds only lock and browser events to the trace. *)
Lemma tryExtractToken_events (headless : bool) (timeout : Z) :
  respects (extends_with extraction_event) (tryExtractToken E headless timeout).
Proof.
  apply frame_tryExtractToken.
  - apply extends_with_refl.
  - apply extends_with_trans.
  - intros w e He. apply extends_with_log, He.
  - apply extends_with_advance.
  - apply extends_with_set_lock.
  - apply extends_with_set_context.
Qed.

(** The extractor leaves the token cache file alone. *)
Lemma extractTokenViaPlaywright_same_cache (options : ExtractOptions) :
  respects same_cache (extractTokenViaPlaywright E options).
Proof.
  apply frame_extractTokenViaPlaywright; unfold same_cache;
    try reflexivity; congruence.
Qed.

(** A run of the extractor: it returns a result, its first event is its
    own call and the others are lock and browser events. *)
Lemma extractTokenViaPlaywright_steps (options : ExtractOptions) (w : World) :
  exists result xevs w',
    steps (extractTokenViaPlaywright E options) w result
          (EvCall (CallExtractTokenViaPlaywright
                     (default true (eo_headless options))
                     (default 15000 (eo_timeout options))) :: xevs) w'
    /\ Forall extraction_event xevs
    /\ cacheFile w' = cacheFile w.
Proof.
  pose proof (extractTokenViaPlaywright_same_cache options w) as Hcache.
  destruct (extractTokenViaPlaywright_total options w) as [result Hres].
  unfold steps, same_cache in *.
  set (headless := default true (eo_headless options)).
  set (timeout := default 15000 (eo_timeout options)).
  set (w0 := log_event w (EvCall (CallExtractTokenViaPlaywright headless timeout))).
  set (rest := (result <- tryExtractToken E headless timeout ;;
                if pw_success result then ret result
                else if headless
                     then (console_log "Session not found. Opening browser for login..." ;;
                           tryExtractToken E false 60000)
                     else ret result)).
  assert (Hrun : extractTokenViaPlaywright E options w = rest w0) by reflexivity.
  rewrite Hrun in *.
  assert (Hext : extends_with extraction_event w0 (snd (rest w0))).
  { apply respects_bind; [ apply extends_with_trans | apply tryExtractToken_events | ].
    intros r. destruct (pw_success r); [ apply respects_ret, extends_with_refl | ].
    destruct headless; [ | apply respects_ret, extends_with_refl ].
    apply respects_bind; [ apply extends_with_trans | | intros _; apply tryExtractToken_events ].
    intros w1. apply extends_with_log. exact I. }
  destruct (rest w0) as [r w'].
  simpl in *. subst r.
  destruct Hext as [xevs [Ht Hall]].
  exists result, xevs, w'. repeat split; auto.
  rewrite Ht. subst w0. simpl. rewrite <- app_assoc. reflexivity.
Qed.

Lemma acquireLock_events (timeout : Z) :
  respects (extends_with extraction_event) (acquireLock E timeout).
Proof.
  apply frame_acquireLock.
  - apply extends_with_refl.
  - apply extends_with_trans.
  - intros w e He. apply extends_with_log, He.
  - apply extends_with_advance.
  - apply extends_with_set_lock.
Qed.

(** A run of acquireLock: it returns, its first event is its own call and
    the others are events of the polling loop. *)
Lemma acquireLock_steps (timeout : Z) (w : World) :
  exists o evs w',
    steps (acquireLock E timeout) w o (EvCall (CallAcquireLock timeout) :: evs) w'
    /\ Forall lock_event evs.
Proof.
  destruct (acquireLock_total E timeout w) as [o Hres].
  set (w0 := log_event w (EvCall (CallAcquireLock timeout))).
  assert (Hrun : acquireLock E timeout w =
                 acquireLock_loop E (acquireLock_fuel timeout) (now w0) timeout w0)
    by reflexivity.
  assert (Hext : extends_with lock_event w0
                   (snd (acquireLock_loop E (acquireLock_fuel timeout) (now w0) timeout w0))).
  { apply frame_acquireLock_loop.
    - apply extends_with_refl.
    - apply extends_with_trans.
    - intros w1 e He. apply extends_with_log, He.
    - apply extends_with_advance.
    - apply extends_with_set_lock. }
  rewrite Hrun in *.
  destruct (acquireLock_loop E (acquireLock_fuel timeout) (now w0) timeout w0)
    as [r w'].
  simpl in *. subst r. destruct Hext as [evs [Ht Hall]].
  exists o, evs, w'. repeat split; auto.
  rewrite Ht. subst w0. simpl. rewrite <- app_assoc. reflexivity.
Qed.

(** tryExtractToken when the lock cannot be acquired: the failure is
    reported and nothing else happens. *)
Lemma tryExtractToken_contention (headless : bool) (timeout : Z) (w : World) :
  let w1 := log_event w (EvCall (CallTryExtractToken headless timeout)) in
  let locking := acquireLock E (if headless then 5000 else 30000) w1 in
  fst locking = Ok None ->
  tryExtractToken E headless timeout w =
    (Ok (pw_failure "Another browser session is in progress, please wait"),
     snd locking).
Proof.
  intros w1 locking Hnone. unfold tryExtractToken, bind, emit.
  fold w1. fold locking. destruct locking as [r w2]. simpl in Hnone. subst r.
  reflexivity.
Qed.

(** A failed headless attempt is followed by an attended one. *)
Lemma extractTokenViaPlaywright_fallback (options : ExtractOptions) (w : World)
  (r1 : PlaywrightTokenResult) :
  default true (eo_headless options) = true ->
  let timeout := default 15000 (eo_timeout options) in
  let w0 := log_event w (EvCall (CallExtractTokenViaPlaywright true timeout)) in
  fst (tryExtractToken E true timeout w0) = Ok r1 ->
  pw_success r1 = false ->
  extractTokenViaPlaywright E options w =
    tryExtractToken E false 60000
      (log_event (snd (tryExtractToken E true timeout w0))
                 (EvLog "Session not found. Opening browser for login...")).
Proof.
  intros Hh timeout w0 Hfirst Hfail.
  unfold extractTokenViaPlaywright. rewrite Hh. fold timeout.
  unfold bind at 1, emit. fold w0. unfold bind at 1.
  destruct (tryExtractToken E true timeout w0) as [r w1]. simpl in Hfirst.
  subst r. rewrite Hfail. reflexivity.
Qed.

(** How a run of tryExtractToken begins. *)
Lemma tryExtractToken_begins (headless : bool) (timeout : Z) (w : World) :
  exists rest,
    events_of (tryExtractToken E headless timeout) w =
      EvCall (CallTryExtractToken headless timeout)
        :: EvCall (CallAcquireLock (if headless then 5000 else 30000)) :: rest.
Proof.
  set (w1 := log_event w (EvCall (CallTryExtractToken headless timeout))).
  destruct (acquireLock_steps (if headless then 5000 else 30000) w1)
    as [o [evs [w2 [[Hrun Ht] _]]]].
  assert (Hext : exists more,
             trace (snd (tryExtractToken E headless timeout w)) = trace w2 ++ more).
  { unfold tryExtractToken, bind at 1, emit. fold w1. unfold bind at 1.
    rewrite Hrun.
    assert (Hh : is_lock_handle E o).
    { eapply acquireLock_handle. rewrite Hrun. reflexivity. }
    destruct Hh as [-> | ->].
    - exists []. simpl. rewrite app_nil_r. reflexivity.
    - assert (Hq : extends_with extraction_event w2
                 (snd (extract_with_lock E headless timeout (lock_handle E) w2))).
      { apply frame_extract_with_lock.
        - apply extends_with_refl.
        - apply extends_with_trans.
        - intros w3 e He. apply extends_with_log, He.
        - apply extends_with_advance.
        - apply extends_with_set_lock.
        - apply extends_with_set_context. }
      destruct Hq as [more [Hm _]]. exists more. exact Hm. }
  destruct Hext as [more Hm].
  exists (evs ++ more). apply events_of_spec.
  rewrite Hm, Ht. subst w1. simpl. rewrite <- !app_assoc. reflexivity.
Qed.

End ExtractFacts.

(** ** Token cache *)

#[local] Arguments js_le : simpl never.
#[local] Arguments js_lt : simpl never.
#[local] Arguments to_number : simpl never.

Section CacheFacts.
Context {RT : JsRuntime}.
Variable E : Env.

Ltac run_cache :=
  cbv beta delta [getCachedToken setCachedToken cache_expiry bind try_catch ret
                  throw readFile writeFile mkdir emit Date_now file
                  JSON_parse_m get_prop_m cache_lookup recorded_expiry];
  repeat (simpl;
          match goal with
          | |- context [fs_fault E ?op] => destruct (fs_fault E op) eqn:?
          | |- context [match cacheFile ?w with _ => _ end] =>
              destruct (cacheFile w) eqn:?
          | |- context [match JSON_parse ?d with _ => _ end] =>
              destruct (JSON_parse d) eqn:?
          | |- context [match get_prop ?v ?k with _ => _ end] =>
              destruct (get_prop v k) eqn:?
          | |- context [if js_le ?a ?b then _ else _] => destruct (js_le a b) eqn:?
          | |- context [match getJwtExpiration ?t with _ => _ end] =>
              destruct (getJwtExpiration t) eqn:?
          | |- context [if num_truthy ?n then _ else _] =>
              destruct (num_truthy n) eqn:?
          end);
  simpl.

(** getCachedToken reads the file once, never throws, and what it returns
    is [cache_lookup] of what it read. *)
Lemma getCachedToken_run (w : World) :
  exists ok : bool,
    getCachedToken E w =
      (Ok (if fs_fault E (ReadFile TOKEN_CACHE_FILE) then None
           else cache_lookup (cacheFile w) (now w)),
       log_event (log_event w (EvCall CallGetCachedToken))
                 (EvFs (ReadFile TOKEN_CACHE_FILE) ok)).
Proof.
  run_cache; eexists; reflexivity.
Qed.

Lemma cache_lookup_object (content : option string) (t : Z) (hit : CacheHit) :
  cache_lookup content t = Some hit ->
  cached hit <> JNull /\ cached hit <> JUndefined.
Proof.
  unfold cache_lookup.
  destruct content as [data|]; [ | discriminate ].
  destruct (JSON_parse data) as [v|]; [ | discriminate ].
  destruct (get_prop v "expiresAt") as [x|e] eqn:Hp; try discriminate.
  destruct (js_le (to_number x) (Num t)); [ discriminate | ].
  intros H. inversion H. subst hit. simpl.
  split; intros Hv; rewrite Hv in Hp; discriminate.
Qed.

(** setCachedToken never rejects. *)
Lemma setCachedToken_total (token : string) (graphToken : option string) (w : World) :
  fst (setCachedToken E token graphToken w) = Ok tt.
Proof.
  run_cache; reflexivity.
Qed.

Lemma setCachedToken_events (token : string) (graphToken : option string) :
  respects (extends_with (cache_write_event token graphToken))
           (setCachedToken E token graphToken).
Proof.
  intros w. unfold extends_with.
  run_cache; rewrite <- ?app_assoc; eexists; (split; [ reflexivity | ]);
    repeat constructor.
Qed.

(** A failed write leaves the cache file as it was and records nothing. *)
Lemma setCachedToken_failed (token : string) (graphToken : option string) (w : World) :
  fs_fault E (Mkdir CONFIG_DIR) = true \/ fs_fault E (WriteFile TOKEN_CACHE_FILE) = true ->
  cacheFile (snd (setCachedToken E token graphToken w)) = cacheFile w
  /\ forall c, ~ In (EvCached c) (events_of (setCachedToken E token graphToken) w).
Proof.
  intros Hfault. unfold events_of.
  run_cache; try (destruct Hfault; congruence);
    new_events; (split; [ reflexivity | ]); intros c Hin;
    repeat (destruct Hin as [Hin | Hin]; try discriminate); exact Hin.
Qed.

(** A write that succeeds stores the token with its recorded expiry. *)
Lemma setCachedToken_written (token : string) (graphToken : option string) (w : World) :
  fs_fault E (Mkdir CONFIG_DIR) = false ->
  fs_fault E (WriteFile TOKEN_CACHE_FILE) = false ->
  let c := {| ct_token := token; ct_graphToken := graphToken;
              ct_expiresAt := recorded_expiry token (now w) |} in
  cacheFile (snd (setCachedToken E token graphToken w)) =
    Some (JSON_stringify (CachedToken_to_js c))
  /\ events_of (setCachedToken E token graphToken) w =
       [EvCall (CallSetCachedToken token graphToken);
        EvFs (Mkdir CONFIG_DIR) true;
        EvFs (WriteFile TOKEN_CACHE_FILE) true;
        EvCached c].
Proof.
  intros Hmk Hwr. unfold events_of.
  run_cache; try congruence; new_events; split; reflexivity.
Qed.

End CacheFacts.

(** ** Auth resolver *)

Lemma steps_result {A : Type} (m : M A) (w : World) (a : A) (evs : list Event)
  (w' : World) :
  steps m w a evs w' ->
  fst (m w) = Ok a /\ snd (m w) = w' /\ events_of m w = evs.
Proof.
  intros [Hrun Ht]. rewrite <- (events_of_spec m w evs); rewrite Hrun; auto.
Qed.

Lemma steps_ret {A : Type} (a : A) (w : World) : steps (ret a) w a [] w.
Proof. split; [ reflexivity | rewrite app_nil_r; reflexivity ]. Qed.

Lemma steps_bind {A B : Type} (m : M A) (k : A -> M B) (w w1 w2 : World)
  (a : A) (b : B) (e1 e2 : list Event) :
  steps m w a e1 w1 -> steps (k a) w1 b e2 w2 ->
  steps (bind m k) w b (e1 ++ e2) w2.
Proof.
  intros [H1 T1] [H2 T2]. split.
  - unfold bind. rewrite H1. exact H2.
  - rewrite T2, T1, app_assoc. reflexivity.
Qed.

Section ResolverFacts.
Context {RT : JsRuntime}.
Variable E : Env.

(** The answer of the session validator for [token] at time [t]. *)
Lemma validateSession_steps (token : JsValue) (w : World) :
  exists ok,
    steps (validateSession E token) w ok [EvValidate token ok]
          (log_event w (EvValidate token ok)).
Proof. eexists. split; reflexivity. Qed.

Lemma setCachedToken_steps (token : string) (graphToken : option string) (w : World) :
  exists cevs w',
    steps (setCachedToken E token graphToken) w tt cevs w'
    /\ Forall (cache_write_event token graphToken) cevs.
Proof.
  pose proof (setCachedToken_total E token graphToken w) as Hres.
  destruct (setCachedToken_events E token graphToken w) as [cevs [Ht Hall]].
  destruct (setCachedToken E token graphToken w) as [r w'] eqn:Hrun.
  simpl in *. subst r. exists cevs, w'. repeat split; auto.
Qed.

Lemma getCachedToken_steps (w : World) :
  exists rd w',
    steps (getCachedToken E) w
          (if fs_fault E (ReadFile TOKEN_CACHE_FILE) then None
           else cache_lookup (cacheFile w) (now w))
          (cache_segment rd) w'
    /\ now w' = now w /\ cacheFile w' = cacheFile w.
Proof.
  destruct (getCachedToken_run E w) as [rd Hrun].
  exists rd. eexists. split; [ split; [ exact Hrun | ] | ].
  - simpl. rewrite <- app_assoc. reflexivity.
  - split; reflexivity.
Qed.

Lemma resolveAuth_extract_path (interactive : bool) (w : World) :
  exists r evs w',
    steps (resolveAuth_extract E interactive) w r evs w'
    /\ fallback_path interactive evs r.
Proof.
  unfold resolveAuth_extract. destruct interactive.
  - destruct (extractTokenViaPlaywright_steps E
                {| eo_headless := None; eo_timeout := None |} w)
      as [pr [xevs [w1 [Hx [Hall _]]]]].
    simpl in Hx.
    destruct (pw_success pr && opt_truthy (pw_token pr)) eqn:Hcond.
    + set (tok := default EmptyString (pw_token pr)).
      destruct (validateSession_steps (JString tok) w1) as [ok Hv].
      destruct ok.
      * destruct (setCachedToken_steps tok (pw_graphToken pr)
                    (log_event w1 (EvValidate (JString tok) true)))
          as [cevs [w2 [Hc Hcall]]].
        do 3 eexists. split.
        -- eapply steps_bind; [ exact Hx | ]. cbv beta zeta. rewrite Hcond.
           eapply steps_bind; [ exact Hv | ]. cbv beta iota.
           eapply steps_bind; [ exact Hc | apply steps_ret ].
        -- apply fallback_extract; [ reflexivity | ].
           rewrite app_nil_r. simpl.
           apply extract_valid; assumption.
      * do 3 eexists. split.
        -- eapply steps_bind; [ exact Hx | ]. cbv beta zeta. rewrite Hcond.
           eapply steps_bind; [ exact Hv | apply steps_ret ].
        -- apply fallback_extract; [ reflexivity | ].
           simpl. apply extract_invalid. assumption.
    + do 3 eexists. split.
      * eapply steps_bind; [ exact Hx | ]. cbv beta zeta. rewrite Hcond.
        apply steps_ret.
      * apply fallback_extract; [ reflexivity | ].
        rewrite app_nil_r. apply extract_failed. assumption.
  - do 3 eexists. split; [ apply steps_ret | ].
    apply fallback_none. reflexivity.
Qed.

Lemma get_prop_defined (v : JsValue) (k : string) :
  v <> JNull -> v <> JUndefined -> exists x, get_prop v k = Val x.
Proof.
  intros Hn Hu. destruct v; simpl; try congruence; eauto.
  destruct (lookup k fields); eauto.
Qed.

Lemma get_prop_m_steps (v x : JsValue) (k : string) (w : World) :
  get_prop v k = Val x -> steps (get_prop_m v k) w x [] w.
Proof.
  intros H. unfold get_prop_m. rewrite H. apply steps_ret.
Qed.

Lemma resolveAuth_cache_path (interactive : bool) (w : World) :
  exists r evs w' rd,
    steps (resolveAuth_cache E interactive) w r (cache_segment rd ++ evs) w'
    /\ ((exists tok graph spawn,
           evs = EvValidate tok true :: spawn_segment spawn
           /\ r = auth_success tok graph
           /\ (spawn = true -> interactive = true))
        \/ (exists tok evs',
              evs = EvValidate tok false :: evs'
              /\ fallback_path interactive evs' r)
        \/ fallback_path interactive evs r).
Proof.
  unfold resolveAuth_cache.
  destruct (getCachedToken_steps w) as [rd [w1 [Hg _]]].
  remember (if fs_fault E (ReadFile TOKEN_CACHE_FILE) then None
            else cache_lookup (cacheFile w) (now w)) as found eqn:Hfound.
  destruct found as [hit|].
  - assert (Hobj : cached hit <> JNull /\ cached hit <> JUndefined).
    { destruct (fs_fault E (ReadFile TOKEN_CACHE_FILE)); [ discriminate | ].
      symmetry in Hfound. eapply cache_lookup_object; eauto. }
    destruct Hobj as [Hn Hu].
    destruct (get_prop_defined "token" Hn Hu) as [tok Htok].
    destruct (get_prop_defined "graphToken" Hn Hu) as [graph Hgraph].
    destruct (validateSession_steps tok w1) as [ok Hv].
    destruct ok.
    + destruct (needsRefresh hit && interactive) eqn:Hspawn.
      * exists (auth_success tok graph). do 2 eexists. exists rd. split.
        -- eapply steps_bind; [ exact Hg | ]. cbv beta iota.
           eapply steps_bind; [ apply get_prop_m_steps, Htok | ].
           eapply steps_bind; [ exact Hv | ]. cbv beta iota. rewrite Hspawn.
           eapply steps_bind; [ split; reflexivity | ].
           eapply steps_bind; [ apply get_prop_m_steps, Hgraph | ].
           apply steps_ret.
        -- left. exists tok, graph, true. repeat split.
           intros _. apply andb_true_iff in Hspawn. tauto.
      * exists (auth_success tok graph). do 2 eexists. exists rd. split.
        -- eapply steps_bind; [ exact Hg | ]. cbv beta iota.
           eapply steps_bind; [ apply get_prop_m_steps, Htok | ].
           eapply steps_bind; [ exact Hv | ]. cbv beta iota. rewrite Hspawn.
           eapply steps_bind; [ apply steps_ret | ].
           eapply steps_bind; [ apply get_prop_m_steps, Hgraph | ].
           apply steps_ret.
        -- left. exists tok, graph, false. repeat split. discriminate.
    + destruct (resolveAuth_extract_path interactive
                  (log_event w1 (EvValidate tok false)))
        as [r [evs [w2 [Hx Hpath]]]].
      exists r. do 2 eexists. exists rd. split.
      * eapply steps_bind; [ exact Hg | ]. cbv beta iota.
        eapply steps_bind; [ apply get_prop_m_steps, Htok | ].
        eapply steps_bind; [ exact Hv | ]. cbv beta iota. exact Hx.
      * right. left. exists tok, evs. split; [ reflexivity | exact Hpath ].
  - destruct (resolveAuth_extract_path interactive w1) as [r [evs [w2 [Hx Hpath]]]].
    exists r, evs, w2, rd. split.
    + eapply steps_bind; [ exact Hg | ]. cbv beta iota. exact Hx.
    + right. right. exact Hpath.
Qed.

(** Every run of resolveAuth returns a result, and its events and result
    have one of the shapes of [resolve_path]. *)
Lemma resolveAuth_path (options : ResolveOptions) (w : World) :
  exists r evs w',
    steps (resolveAuth E options) w r evs w'
    /\ resolve_path (ro_token options) (env_CLIPPY_TOKEN E)
                    (default false (ro_interactive options)) evs r.
Proof.
  unfold resolveAuth.
  set (interactive := default false (ro_interactive options)).
  destruct (opt_truthy (ro_token options)) eqn:Hcli.
  - destruct (validateSession_steps (opt_js (ro_token options)) w) as [ok Hv].
    exists (if ok then auth_success (opt_js (ro_token options)) JUndefined
            else auth_failure "Provided token is invalid or expired").
    do 2 eexists. split.
    + cbv zeta. rewrite ?Hcli.
      eapply steps_bind; [ exact Hv | ]. destruct ok; apply steps_ret.
    + apply path_explicit. exact Hcli.
  - unfold resolveAuth_env.
    destruct (opt_truthy (env_CLIPPY_TOKEN E)) eqn:Henv.
    + destruct (validateSession_steps (opt_js (env_CLIPPY_TOKEN E))
                  (log_event w EvEnvRead)) as [ok Hv].
      exists (if ok then auth_success (opt_js (env_CLIPPY_TOKEN E)) JUndefined
              else auth_failure
                     "CLIPPY_TOKEN environment variable contains invalid or expired token").
      do 2 eexists. split.
      * cbv zeta. rewrite ?Hcli.
        eapply steps_bind; [ split; reflexivity | ]. cbv beta. rewrite ?Henv.
        eapply steps_bind; [ exact Hv | ]. destruct ok; apply steps_ret.
      * apply path_env; assumption.
    + destruct (resolveAuth_cache_path interactive (log_event w EvEnvRead))
        as [r [evs [w2 [rd [Hc Hshape]]]]].
      exists r, (EvEnvRead :: cache_segment rd ++ evs), w2. split.
      * cbv zeta. rewrite ?Hcli.
        change (EvEnvRead :: cache_segment rd ++ evs)
          with ([EvEnvRead] ++ (cache_segment rd ++ evs)).
        eapply steps_bind; [ split; reflexivity | ]. cbv beta. rewrite ?Henv.
        exact Hc.
      * destruct Hshape as [[tok [graph [spawn [-> [-> Hsp]]]]]
                           | [[tok [evs' [-> Hfb]]] | Hfb]].
        -- apply path_cache_valid; assumption.
        -- apply path_cache_invalid; assumption.
        -- apply path_cache_miss; assumption.
Qed.

End ResolverFacts.

(** ** The order of the sources *)

Lemma extraction_event_quiet (e : Event) : extraction_event e -> quiet e.
Proof.
  unfold quiet.
  destruct e as [c|op ok| | | | | | |]; simpl; try tauto;
    try (destruct c; simpl; try tauto);
    intros; (split; [ reflexivity | discriminate ]).
Qed.

Lemma cache_write_event_quiet (tok : string) (graph : option string) (e : Event) :
  cache_write_event tok graph e -> quiet e.
Proof.
  unfold quiet.
  destruct e as [c|op ok| | | | | | |]; simpl; try tauto;
    try (destruct c; simpl; try tauto);
    intros; (split; [ reflexivity | discriminate ]).
Qed.

Lemma later_sources_app (l1 l2 : list Event) :
  later_sources (l1 ++ l2) = later_sources l1 ++ later_sources l2.
Proof.
  induction l1 as [|e l1 IH]; simpl; [ reflexivity | ].
  destruct (source_of e); simpl; rewrite IH; reflexivity.
Qed.

Lemma later_sources_quiet (l : list Event) :
  Forall quiet l -> later_sources l = [].
Proof.
  induction 1 as [|e l [Hsrc _] _ IH]; simpl; [ reflexivity | ].
  rewrite Hsrc. exact IH.
Qed.

Lemma first_success_quiet_app (l1 l2 : list Event) :
  Forall quiet l1 -> first_success (l1 ++ l2) = first_success l2.
Proof.
  induction 1 as [|e l [_ Hno] _ IH]; simpl; [ reflexivity | ].
  destruct e as [c|op ok| |tok ok| | | | |]; try exact IH.
  destruct ok; [ exfalso; apply (Hno tok); reflexivity | exact IH ].
Qed.

Lemma first_success_quiet (l : list Event) :
  Forall quiet l -> first_success l = None.
Proof.
  intros H. rewrite <- (app_nil_r l). rewrite (first_success_quiet_app [] H).
  reflexivity.
Qed.

Lemma extract_path_facts (evs : list Event) (r : AuthResult) :
  extract_path evs r ->
  later_sources evs = [SrcExtract]
  /\ events_before SrcExtract evs = []
  /\ (forall tok rest,
         first_success evs = Some (tok, rest) ->
         later_sources rest = [] /\ exists graph, r = auth_success tok graph)
  /\ (first_success evs = None -> exists msg, r = auth_failure msg).
Proof.
  intros Hpath. inversion Hpath as
      [xevs msg Hx | xevs tok Hx | xevs cevs tok graph Hx Hc]; subst; simpl;
    assert (Hq : Forall quiet xevs)
      by (eapply Forall_impl; [ apply extraction_event_quiet | exact Hx ]).
  - rewrite (later_sources_quiet Hq), (first_success_quiet Hq).
    split; [ reflexivity | split; [ reflexivity | split ] ].
    + intros tok rest H. discriminate.
    + intros _. eexists. reflexivity.
  - rewrite later_sources_app, (later_sources_quiet Hq).
    rewrite (first_success_quiet_app _ Hq). simpl.
    split; [ reflexivity | split; [ reflexivity | split ] ].
    + intros tok' rest H. discriminate.
    + intros _. eexists. reflexivity.
  - assert (Hqc : Forall quiet cevs)
      by (eapply Forall_impl; [ apply cache_write_event_quiet | exact Hc ]).
    rewrite later_sources_app, (later_sources_quiet Hq).
    rewrite (first_success_quiet_app _ Hq). simpl.
    rewrite (later_sources_quiet Hqc).
    split; [ reflexivity | split; [ reflexivity | split ] ].
    + intros tok' rest H. inversion H. subst.
      split; [ apply later_sources_quiet, Hqc | eexists; reflexivity ].
    + intros H. discriminate.
Qed.

Lemma fallback_path_facts (interactive : bool) (evs : list Event) (r : AuthResult) :
  fallback_path interactive evs r ->
  (later_sources evs = [] \/ (later_sources evs = [SrcExtract] /\ interactive = true))
  /\ events_before SrcExtract evs = []
  /\ (forall tok rest,
         first_success evs = Some (tok, rest) ->
         later_sources rest = [] /\ exists graph, r = auth_success tok graph)
  /\ (first_success evs = None -> exists msg, r = auth_failure msg).
Proof.
  intros Hpath. inversion Hpath as [Hi | evs' r' Hi Hx]; subst.
  - simpl. split; [ left; reflexivity | split; [ reflexivity | split ] ].
    + intros tok rest H. discriminate.
    + intros _. eexists. reflexivity.
  - destruct (extract_path_facts Hx) as [Hsrc [Hbefore [Hwin Hlose]]].
    split; [ right; split; [ exact Hsrc | reflexivity ] | ].
    split; [ exact Hbefore | split; assumption ].
Qed.

(** What the shapes of [resolve_path] say about the order of the sources. *)
Lemma resolve_path_order (cliToken envToken : option string) (interactive : bool)
  (evs : list Event) (r : AuthResult) :
  resolve_path cliToken envToken interactive evs r ->
  is_prefix (consulted evs) documented_order = true
  /\ (forall tok rest,
         first_success evs = Some (tok, rest) ->
         later_sources rest = [] /\ exists graph, r = auth_success tok graph)
  /\ (first_success evs = None -> exists msg, r = auth_failure msg)
  /\ (forall s, In s (later_sources evs) ->
                first_success (events_before s evs) = None
                /\ opt_truthy cliToken = false)
  /\ (In SrcCache (later_sources evs) -> opt_truthy envToken = false)
  /\ (In SrcExtract (later_sources evs) -> interactive = true).
Proof.
  intros Hpath. inversion Hpath as
      [ok Hcli | ok Hcli Henv | rd spawn tok graph Hcli Henv Hspawn
       | rd tok evs' r' Hcli Henv Hfb | rd evs' r' Hcli Henv Hfb]; subst.
  - split; [ reflexivity | ]. destruct ok; simpl.
    + split; [ | split; [ discriminate | repeat split; contradiction ] ].
      intros tok rest H. inversion H. subst.
      split; [ reflexivity | eexists; reflexivity ].
    + split; [ discriminate | ].
      split; [ intros _; eexists; reflexivity | repeat split; contradiction ].
  - split; [ reflexivity | ].
    assert (Hlater : forall s, In s [SrcEnv] ->
               first_success (events_before s [EvEnvRead; EvValidate (opt_js envToken) ok]) = None
               /\ opt_truthy cliToken = false).
    { intros s [<- | []]. simpl. auto. }
    destruct ok; simpl.
    + split; [ | split; [ discriminate | split; [ exact Hlater | ] ] ].
      * intros tok rest H. inversion H. subst.
        split; [ reflexivity | eexists; reflexivity ].
      * split; intros [H | []]; discriminate.
    + split; [ discriminate | ].
      split; [ intros _; eexists; reflexivity | split; [ exact Hlater | ] ].
      split; intros [H | []]; discriminate.
  - assert (Hsrc : later_sources (spawn_segment spawn) = [])
      by (destruct spawn; reflexivity).
    unfold consulted. simpl. rewrite Hsrc.
    split; [ reflexivity | ].
    split; [ | split; [ discriminate | split; [ | split ] ] ].
    + intros tok' rest H. inversion H. subst.
      split; [ exact Hsrc | eexists; reflexivity ].
    + intros s [<- | [<- | []]]; simpl; auto.
    + intros _. exact Henv.
    + intros [H | [H | []]]; discriminate.
  - destruct (fallback_path_facts Hfb) as [Hsrc [Hbefore [Hwin Hlose]]].
    simpl.
    split; [ destruct Hsrc as [-> | [-> _]]; reflexivity | ].
    split; [ exact Hwin | split; [ exact Hlose | split; [ | split ] ] ].
    + intros s [<- | [<- | H]]; simpl; auto.
      destruct Hsrc as [Hs | [Hs _]]; rewrite Hs in H; simpl in H;
        [ contradiction | ].
      destruct H as [<- | []]. simpl. rewrite Hbefore. auto.
    + intros _. exact Henv.
    + intros [H | [H | H]]; try discriminate.
      destruct Hsrc as [Hs | [Hs Hi]]; rewrite Hs in H; simpl in H;
        [ contradiction | exact Hi ].
  - destruct (fallback_path_facts Hfb) as [Hsrc [Hbefore [Hwin Hlose]]].
    simpl.
    split; [ destruct Hsrc as [-> | [-> _]]; reflexivity | ].
    split; [ exact Hwin | split; [ exact Hlose | split; [ | split ] ] ].
    + intros s [<- | [<- | H]]; simpl; auto.
      destruct Hsrc as [Hs | [Hs _]]; rewrite Hs in H; simpl in H;
        [ contradiction | ].
      destruct H as [<- | []]. simpl. rewrite Hbefore. auto.
    + intros _. exact Henv.
    + intros [H | [H | H]]; try discriminate.
      destruct Hsrc as [Hs | [Hs Hi]]; rewrite Hs in H; simpl in H;
        [ contradiction | exact Hi ].
Qed.

(** ** Validation before acceptance *)

Unset Implicit Arguments.

Lemma split_at_cached (A B pre post : list Event) (c : CachedToken) :
  A ++ B = pre ++ EvCached c :: post ->
  Forall not_cached A ->
  exists pre', pre = A ++ pre' /\ B = pre' ++ EvCached c :: post.
Proof.
  revert pre. induction A as [|a A IH]; intros pre Heq Hall.
  - exists pre. auto.
  - inversion Hall as [|a' A' Ha HA]; subst.
    destruct pre as [|p pre].
    + simpl in Heq. inversion Heq. subst a. contradiction.
    + simpl in Heq. inversion Heq. subst p.
      destruct (IH pre H1 HA) as [pre' [-> ->]].
      exists pre'. auto.
Qed.

Lemma extraction_event_not_cached (e : Event) : extraction_event e -> not_cached e.
Proof. destruct e; simpl; tauto. Qed.

Lemma extraction_event_no_validation (e : Event) :
  extraction_event e -> no_validation e.
Proof. destruct e; simpl; tauto. Qed.

Lemma cache_write_event_no_validation (tok : string) (graph : option string)
  (e : Event) : cache_write_event tok graph e -> no_validation e.
Proof. destruct e; simpl; tauto. Qed.

Lemma resolve_path_validated (cliToken envToken : option string)
  (interactive : bool) (evs : list Event) (r : AuthResult) :
  resolve_path cliToken envToken interactive evs r ->
  success r = true ->
  In (EvValidate (token r) true) evs.
Proof.
  assert (Hfb : forall evs' r',
             fallback_path interactive evs' r' -> success r' = true ->
             In (EvValidate (token r') true) evs').
  { intros evs' r' Hpath Hs. inversion Hpath as [Hi | evs'' r'' Hi Hx]; subst;
      [ discriminate | ].
    inversion Hx as [xevs msg Hq | xevs tok Hq | xevs cevs tok graph Hq Hc];
      subst; try discriminate.
    simpl. right. apply in_or_app. right. left. reflexivity. }
  intros Hpath Hs. inversion Hpath as
      [ok Hcli | ok Hcli Henv | rd spawn tok graph Hcli Henv Hspawn
       | rd tok evs' r' Hcli Henv Hpath' | rd evs' r' Hcli Henv Hpath']; subst.
  - destruct ok; [ left; reflexivity | discriminate ].
  - destruct ok; [ right; left; reflexivity | discriminate ].
  - simpl. do 3 right. left. reflexivity.
  - simpl. do 4 right. apply Hfb; assumption.
  - simpl. do 3 right. apply Hfb; assumption.
Qed.

Lemma extract_path_cached (evs : list Event) (r : AuthResult)
  (pre post : list Event) (c : CachedToken) :
  extract_path evs r ->
  evs = pre ++ EvCached c :: post ->
  In (EvValidate (JString (ct_token c)) true) pre.
Proof.
  intros Hx Heq.
  inversion Hx as [xevs msg Hq | xevs tok Hq | xevs cevs tok graph Hq Hc]; subst.
  - exfalso.
    destruct (split_at_cached
                (EvCall (CallExtractTokenViaPlaywright true 15000) :: xevs) []
                pre post c) as [pre' [_ Hnil]].
    + rewrite app_nil_r. exact H.
    + constructor; [ exact I | ].
      eapply Forall_impl; [ apply extraction_event_not_cached | exact Hq ].
    + destruct pre'; discriminate.
  - exfalso.
    destruct (split_at_cached
                (EvCall (CallExtractTokenViaPlaywright true 15000)
                   :: xevs ++ [EvValidate (JString tok) false]) []
                pre post c) as [pre' [_ Hnil]].
    + rewrite app_nil_r. exact H.
    + constructor; [ exact I | ]. apply Forall_app. split.
      * eapply Forall_impl; [ apply extraction_event_not_cached | exact Hq ].
      * repeat constructor.
    + destruct pre'; discriminate.
  - destruct (split_at_cached
                (EvCall (CallExtractTokenViaPlaywright true 15000)
                   :: xevs ++ [EvValidate (JString tok) true]) cevs
                pre post c) as [pre' [-> Hc']].
    + simpl. rewrite <- app_assoc. exact H.
    + constructor; [ exact I | ]. apply Forall_app. split.
      * eapply Forall_impl; [ apply extraction_event_not_cached | exact Hq ].
      * repeat constructor.
    + assert (Hin : In (EvCached c) cevs)
        by (rewrite Hc'; apply in_or_app; right; left; reflexivity).
      rewrite Forall_forall in Hc. destruct (Hc _ Hin) as [Htok _].
      rewrite Htok. apply in_or_app. left. right.
      apply in_or_app. right. left. reflexivity.
Qed.

Lemma fallback_path_cached (interactive : bool) (evs : list Event)
  (r : AuthResult) (A pre post : list Event) (c : CachedToken) :
  fallback_path interactive evs r ->
  Forall not_cached A ->
  A ++ evs = pre ++ EvCached c :: post ->
  In (EvValidate (JString (ct_token c)) true) pre.
Proof.
  intros Hpath HA Heq.
  destruct (split_at_cached A evs pre post c Heq HA) as [pre' [-> Hevs]].
  apply in_or_app. right.
  inversion Hpath as [Hi | evs' r' Hi Hx]; subst.
  - destruct pre'; discriminate.
  - eapply extract_path_cached; eauto.
Qed.

Lemma resolve_path_cached (cliToken envToken : option string)
  (interactive : bool) (evs : list Event) (r : AuthResult)
  (pre post : list Event) (c : CachedToken) :
  resolve_path cliToken envToken interactive evs r ->
  evs = pre ++ EvCached c :: post ->
  In (EvValidate (JString (ct_token c)) true) pre.
Proof.
  assert (Hnone : forall A, Forall not_cached A -> A = pre ++ EvCached c :: post -> False).
  { intros A HA Heq. rewrite Forall_forall in HA.
    apply (HA (EvCached c)). rewrite Heq. apply in_or_app. right. left. reflexivity. }
  intros Hpath Heq. inversion Hpath as
      [ok Hcli | ok Hcli Henv | rd spawn tok graph Hcli Henv Hspawn
       | rd tok evs' r' Hcli Henv Hfb | rd evs' r' Hcli Henv Hfb]; subst.
  - exfalso. eapply Hnone; [ | exact H ]. repeat constructor.
  - exfalso. eapply Hnone; [ | exact H ]. repeat constructor.
  - exfalso. eapply Hnone; [ | exact H ]. destruct spawn; repeat constructor.
  - eapply (fallback_path_cached interactive evs' r
              (EvEnvRead :: cache_segment rd ++ [EvValidate tok false]));
      [ exact Hfb | repeat constructor | ].
    simpl. simpl in H. exact H.
  - eapply (fallback_path_cached interactive evs' r
              (EvEnvRead :: cache_segment rd));
      [ exact Hfb | repeat constructor | ].
    simpl. simpl in H. exact H.
Qed.

Set Implicit Arguments.

(** ** Writers that do not validate *)

Section Unvalidated.
Context {RT : JsRuntime}.
Variable E : Env.

Lemma unvalidated_trans (a b c : World) : unvalidated a b -> unvalidated b c -> unvalidated a c.
Proof. apply extends_with_trans. Qed.

Lemma unvalidated_log (w : World) (e : Event) : no_validation e -> unvalidated w (log_event w e).
Proof. apply extends_with_log. Qed.

Lemma quiet_sleep (ms : Z) : respects unvalidated (sleep ms).
Proof.
  intros w. unfold sleep. simpl.
  eapply unvalidated_trans; [ apply extends_with_advance | apply unvalidated_log; exact I ].
Qed.

Lemma quiet_console_log (msg : string) : respects unvalidated (console_log msg).
Proof. intros w. apply unvalidated_log. exact I. Qed.

Lemma quiet_mkdir (p : Path) : respects unvalidated (mkdir E p).
Proof.
  intros w. unfold mkdir. destruct (fs_fault E (Mkdir p)); apply unvalidated_log; exact I.
Qed.

Lemma quiet_launch (headless : bool) : respects unvalidated (launchPersistentContext E headless).
Proof.
  intros w. unfold launchPersistentContext.
  destruct (browser_launch E (now w) headless); simpl.
  - apply unvalidated_log. exact I.
  - eapply unvalidated_trans; [ apply extends_with_set_context | apply unvalidated_log; exact I ].
Qed.

Lemma quiet_page_goto : respects unvalidated (page_goto E).
Proof.
  intros w. unfold page_goto.
  destruct (page_goto_fails E (now w)); apply extends_with_refl.
Qed.

Lemma quiet_page_reload : respects unvalidated (page_reload E).
Proof.
  intros w. unfold page_reload.
  destruct (page_reload_fails E (now w)); apply extends_with_refl.
Qed.

Lemma quiet_last_tokens : respects unvalidated (last_tokens E).
Proof. intros w. apply extends_with_refl. Qed.

Lemma quiet_setCachedToken (tok : string) (graph : option string) :
  respects unvalidated (setCachedToken E tok graph).
Proof.
  intros w. eapply extends_with_weaken;
    [ apply cache_write_event_no_validation | apply setCachedToken_events ].
Qed.

Lemma quiet_extractTokenViaPlaywright (options : ExtractOptions) :
  respects unvalidated (extractTokenViaPlaywright E options).
Proof.
  apply frame_extractTokenViaPlaywright.
  - apply extends_with_refl.
  - apply extends_with_trans.
  - intros w e He. apply unvalidated_log, extraction_event_no_validation, He.
  - apply extends_with_advance.
  - apply extends_with_set_lock.
  - apply extends_with_set_context.
  - intros w headless timeout. apply unvalidated_log. exact I.
Qed.

Lemma quiet_keepalive_turn (intervalMinutes : Z) :
  respects unvalidated (keepalive_turn E intervalMinutes).
Proof.
  unfold keepalive_turn.
  apply (respects_bind unvalidated_trans); [ apply quiet_sleep | intros _ ].
  apply (respects_bind unvalidated_trans); [ apply quiet_last_tokens | intros st ].
  apply (respects_bind unvalidated_trans).
  { destruct (fst st) as [lastToken|]; [ | apply respects_ret, extends_with_refl ].
    destruct (str_truthy lastToken);
      [ apply quiet_setCachedToken | apply respects_ret, extends_with_refl ]. }
  intros _.
  apply (respects_bind unvalidated_trans); [ apply quiet_sleep | intros _ ].
  apply (respects_try_catch unvalidated_trans); [ apply quiet_page_reload | intros _ ].
  apply (respects_try_catch unvalidated_trans); [ apply quiet_page_goto | intros _ ].
  apply respects_ret, extends_with_refl.
Qed.

Lemma quiet_keepalive_loop (turns : nat) (intervalMinutes : Z) :
  respects unvalidated (keepalive_loop E turns intervalMinutes).
Proof.
  induction turns as [|turns IH]; simpl.
  - apply respects_out_of_fuel, extends_with_refl.
  - apply (respects_bind unvalidated_trans); [ apply quiet_keepalive_turn | intros _ ].
    exact IH.
Qed.

Lemma quiet_startKeepaliveSession (turns : nat) (intervalMinutes : Z)
  (headless : option bool) :
  respects unvalidated (startKeepaliveSession E turns intervalMinutes headless).
Proof.
  unfold startKeepaliveSession.
  apply (respects_bind unvalidated_trans); [ apply quiet_mkdir | intros _ ].
  apply (respects_bind unvalidated_trans); [ apply quiet_launch | intros _ ].
  apply (respects_bind unvalidated_trans); [ apply quiet_console_log | intros _ ].
  apply (respects_bind unvalidated_trans); [ apply quiet_page_goto | intros _ ].
  apply (respects_bind unvalidated_trans); [ apply quiet_console_log | intros _ ].
  apply quiet_keepalive_loop.
Qed.

Lemma quiet_backgroundRefresh : respects unvalidated (backgroundRefresh E).
Proof.
  unfold backgroundRefresh.
  apply (respects_try_catch unvalidated_trans);
    [ | intros _; apply respects_ret, extends_with_refl ].
  apply (respects_bind unvalidated_trans);
    [ apply quiet_extractTokenViaPlaywright | intros result ].
  destruct (pw_success result && opt_truthy (pw_token result));
    [ apply quiet_setCachedToken | apply respects_ret, extends_with_refl ].
Qed.

(** A keepalive turn stores the latest token it has captured. *)
Lemma keepalive_turn_stores (intervalMinutes : Z) (w : World)
  (lastToken : string) (lastGraphToken : option string) :
  fold_left keepalive_on_request (page_traffic E (now w + 2000)) (None, None)
    = (Some lastToken, lastGraphToken) ->
  str_truthy lastToken = true ->
  fs_fault E (Mkdir CONFIG_DIR) = false ->
  fs_fault E (WriteFile TOKEN_CACHE_FILE) = false ->
  In (EvCached {| ct_token := lastToken;
                  ct_graphToken := or_undefined lastGraphToken;
                  ct_expiresAt := recorded_expiry lastToken (now w + 2000) |})
     (events_of (keepalive_turn E intervalMinutes) w).
Proof.
  intros Hseen Htruthy Hmk Hwr.
  set (w1 := log_event (advance w 2000) (EvSleep 2000)).
  destruct (setCachedToken_written E lastToken (or_undefined lastGraphToken) w1 Hmk Hwr)
    as [_ Hevs].
  pose proof (setCachedToken_events E lastToken (or_undefined lastGraphToken) w1)
    as Hext.
  apply extends_with_events in Hext. destruct Hext as [Ht1 _].
  rewrite Hevs in Ht1.
  pose proof (setCachedToken_total E lastToken (or_undefined lastGraphToken) w1)
    as Hres.
  set (rest := (sleep (intervalMinutes * 60 * 1000) ;;
                try_catch (page_reload E)
                  (fun _ => try_catch (page_goto E) (fun _ => ret tt)))).
  assert (Hrest : forall w', extends_with no_validation w' (snd (rest w'))).
  { intros w'. unfold rest.
    apply (respects_bind unvalidated_trans); [ apply quiet_sleep | intros _ ].
    apply (respects_try_catch unvalidated_trans); [ apply quiet_page_reload | intros _ ].
    apply (respects_try_catch unvalidated_trans); [ apply quiet_page_goto | intros _ ].
    apply respects_ret, extends_with_refl. }
  assert (Hrun : keepalive_turn E intervalMinutes w =
                 rest (snd (setCachedToken E lastToken (or_undefined lastGraphToken) w1))).
  { unfold keepalive_turn. unfold bind at 1. unfold sleep at 1. fold w1.
    unfold bind at 1. unfold last_tokens.
    change (now w1) with (now w + 2000). rewrite Hseen.
    cbn [fst snd]. rewrite Htruthy. unfold bind at 1.
    destruct (setCachedToken E lastToken (or_undefined lastGraphToken) w1)
      as [r w2]. simpl in Hres. subst r. reflexivity. }
  unfold events_of. rewrite Hrun.
  destruct (Hrest (snd (setCachedToken E lastToken (or_undefined lastGraphToken) w1)))
    as [more [Hm _]].
  rewrite Hm, Ht1. subst w1. simpl. rewrite <- !app_assoc. rewrite skipn_exact.
  simpl. tauto.
Qed.

Lemma backgroundRefresh_total : total (backgroundRefresh E).
Proof.
  unfold backgroundRefresh. apply total_try_catch.
  - apply bounded_bind;
      [ apply total_bounded, extractTokenViaPlaywright_total | intros result ].
    destruct (pw_success result && opt_truthy (pw_token result));
      [ | apply bounded_ret ].
    intros w. rewrite setCachedToken_total. discriminate.
  - intros e. apply total_ret.
Qed.

(** The detached refresh does not change what resolveAuth returns. *)
Lemma resolveAuth_settled_result (options : ResolveOptions) (w : World) :
  fst (resolveAuth_settled E options w) = fst (resolveAuth E options w).
Proof.
  unfold resolveAuth_settled, bind.
  destruct (resolveAuth E options w) as [[r|e|] w1]; try reflexivity.
  unfold run_spawned. destruct (spawned w1); [ reflexivity | ].
  destruct (backgroundRefresh_total w1) as [u Hu].
  destruct (backgroundRefresh E w1) as [r2 w2]. simpl in Hu. subst r2.
  reflexivity.
Qed.

End Unvalidated.

(* ================================================================= *)
(** * Main results *)

(** ** Expiry decoding *)




(** ** Token cache read *)

(** C7, as the code has it.  getCachedToken never throws.  It returns
    absent when the file is missing or cannot be read, when its content is
    not JSON or is JSON [null], and when the recorded [expiresAt],
    converted to a number as the comparison of line 105 converts it, is not
    after the current time: that holds for a number, and also for [null]
    and [false] (0), [true] (1) and every string or array whose numeric
    value is not after the current time.  Otherwise it returns the parsed
    value as the record, whatever its shape: when [expiresAt] converts to a
    number after the current time, with the refresh flag; when it converts
    to NaN, as a missing [expiresAt] does, as an unexpired record that needs
    no refresh. *)
Theorem cache_read_fails_soft (RT : JsRuntime) (E : Env) (w : World) :
  (exists r, fst (getCachedToken E w) = Ok r)
  /\ (cacheFile w = None -> fst (getCachedToken E w) = Ok None)
  /\ (fs_fault E (ReadFile TOKEN_CACHE_FILE) = true ->
      fst (getCachedToken E w) = Ok None)
  /\ (forall data,
         cacheFile w = Some data -> JSON_parse data = None ->
         fst (getCachedToken E w) = Ok None)
  /\ (forall data,
         cacheFile w = Some data -> JSON_parse data = Some JNull ->
         fst (getCachedToken E w) = Ok None)
  /\ (forall data v expiresAt x,
         cacheFile w = Some data -> JSON_parse data = Some v ->
         get_prop v "expiresAt" = Val expiresAt ->
         to_number expiresAt = Num x ->
         x <= now w ->
         fst (getCachedToken E w) = Ok None)
  /\ (forall data v expiresAt,
         cacheFile w = Some data -> JSON_parse data = Some v ->
         get_prop v "expiresAt" = Val expiresAt ->
         (expiresAt = JNull \/ expiresAt = JBool false) /\ 0 <= now w
         \/ expiresAt = JBool true /\ 1 <= now w ->
         fst (getCachedToken E w) = Ok None)
  /\ (forall data v expiresAt x,
         fs_fault E (ReadFile TOKEN_CACHE_FILE) = false ->
         cacheFile w = Some data -> JSON_parse data = Some v ->
         get_prop v "expiresAt" = Val expiresAt ->
         to_number expiresAt = Num x ->
         now w < x ->
         fst (getCachedToken E w) =
           Ok (Some {| cached := v;
                       needsRefresh := x - now w <? REFRESH_THRESHOLD |}))
  /\ (forall data v expiresAt,
         fs_fault E (ReadFile TOKEN_CACHE_FILE) = false ->
         cacheFile w = Some data -> JSON_parse data = Some v ->
         get_prop v "expiresAt" = Val expiresAt ->
         to_number expiresAt = NaN ->
         fst (getCachedToken E w) =
           Ok (Some {| cached := v; needsRefresh := false |}))
  /\ (forall data fields,
         fs_fault E (ReadFile TOKEN_CACHE_FILE) = false ->
         cacheFile w = Some data -> JSON_parse data = Some (JObject fields) ->
         lookup "expiresAt" fields = None ->
         fst (getCachedToken E w) =
           Ok (Some {| cached := JObject fields; needsRefresh := false |})).
Proof.
  destruct (getCachedToken_run E w) as [rd Hrun]. rewrite Hrun. simpl.
  assert (Hexpired : forall data v expiresAt x,
             cacheFile w = Some data -> JSON_parse data = Some v ->
             get_prop v "expiresAt" = Val expiresAt ->
             to_number expiresAt = Num x ->
             x <= now w ->
             Ok (if fs_fault E (ReadFile TOKEN_CACHE_FILE) then None
                 else cache_lookup (cacheFile w) (now w)) = Ok (@None CacheHit)).
  { intros data v expiresAt x Hfile Hparse Hprop Hnum Hle.
    unfold cache_lookup. rewrite Hfile, Hparse, Hprop, Hnum. unfold js_le.
    apply Z.leb_le in Hle. rewrite Hle.
    destruct (fs_fault E _); reflexivity. }
  split; [ eexists; reflexivity | ].
  unfold cache_lookup.
  split; [ intros ->; destruct (fs_fault E _); reflexivity | ].
  split; [ intros ->; reflexivity | ].
  split; [ intros data -> ->; destruct (fs_fault E _); reflexivity | ].
  split; [ intros data -> ->; destruct (fs_fault E _); reflexivity | ].
  split; [ exact Hexpired | ].
  split.
  { intros data v expiresAt Hfile Hparse Hprop
           [[[-> | ->] Hnow] | [-> Hnow]].
    - exact (Hexpired data v JNull 0 Hfile Hparse Hprop eq_refl Hnow).
    - exact (Hexpired data v (JBool false) 0 Hfile Hparse Hprop eq_refl Hnow).
    - exact (Hexpired data v (JBool true) 1 Hfile Hparse Hprop eq_refl Hnow). }
  split.
  { intros data v expiresAt x -> -> -> -> -> Hlt. unfold js_le, js_lt, js_sub.
    apply Z.leb_gt in Hlt. rewrite Hlt. reflexivity. }
  split.
  { intros data v expiresAt -> -> -> -> ->. reflexivity. }
  intros data fields -> -> -> Hno. simpl. rewrite Hno. reflexivity.
Qed.

Lemma cache_read_fails_soft_witness :
  let E := Sample.env None "T" Sample.no_fault [] in
  let holding := fun expiresAt =>
    Sample.cache_json [("token", JString "T"); ("expiresAt", expiresAt)] in
  let read := fun content =>
    fst (@getCachedToken Reference.runtime E (Sample.world None content)) in
  read None = Ok None
  /\ read (Some "{oops") = Ok None
  /\ read (holding (JNumber (Num Sample.t0))) = Ok None
  /\ read (holding JNull) = Ok None
  /\ read (holding (JBool false)) = Ok None
  /\ read (holding (JString "")) = Ok None
  /\ read (holding (JString "123")) = Ok None
  /\ read (holding (JArray [])) = Ok None
  /\ read (holding (JNumber (Num (Sample.t0 + 60000)))) =
       Ok (Some {| cached := JObject [("token", JString "T");
                                      ("expiresAt", JNumber (Num (Sample.t0 + 60000)))];
                   needsRefresh := true |})
  /\ read (holding (JString "soon")) =
       Ok (Some {| cached := JObject [("token", JString "T");
                                      ("expiresAt", JString "soon")];
                   needsRefresh := false |}).
Proof.
  cbv zeta.
  set (E := Sample.env None "T" Sample.no_fault []).
  assert (Hexpired : forall expiresAt x,
             @to_number Reference.runtime expiresAt = Num x ->
             x <= Sample.t0 ->
             Reference.parse_json
               (Reference.stringify_or_undefined
                  (JObject [("token", JString "T"); ("expiresAt", expiresAt)])) =
               Some (JObject [("token", JString "T"); ("expiresAt", expiresAt)]) ->
             fst (@getCachedToken Reference.runtime E
                    (Sample.world None
                       (Sample.cache_json [("token", JString "T");
                                           ("expiresAt", expiresAt)]))) = Ok None).
  { intros expiresAt x Hnum Hle Hparse.
    destruct (cache_read_fails_soft Reference.runtime E
                (Sample.world None
                   (Sample.cache_json [("token", JString "T");
                                       ("expiresAt", expiresAt)])))
      as [_ [_ [_ [_ [_ [H _]]]]]].
    exact (H _ _ expiresAt x eq_refl Hparse eq_refl Hnum Hle). }
  split; [ | split; [ | split; [ | split; [ | split; [ | split; [ | split;
    [ | split; [ | split ] ] ] ] ] ] ] ].
  - destruct (cache_read_fails_soft Reference.runtime E (Sample.world None None))
      as [_ [H _]]. apply H. reflexivity.
  - destruct (cache_read_fails_soft Reference.runtime E
                (Sample.world None (Some "{oops")))
      as [_ [_ [_ [H _]]]]. apply (H "{oops"); reflexivity.
  - apply (Hexpired (JNumber (Num Sample.t0)) Sample.t0);
      [ reflexivity | apply Z.le_refl | reflexivity ].
  - apply (Hexpired JNull 0); [ reflexivity | discriminate | reflexivity ].
  - apply (Hexpired (JBool false) 0); [ reflexivity | discriminate | reflexivity ].
  - apply (Hexpired (JString "") 0); [ reflexivity | discriminate | reflexivity ].
  - apply (Hexpired (JString "123") 123); [ reflexivity | discriminate | reflexivity ].
  - apply (Hexpired (JArray []) 0); [ reflexivity | discriminate | reflexivity ].
  - destruct (cache_read_fails_soft Reference.runtime E
                (Sample.world None
                   (Sample.cache_json [("token", JString "T");
                                       ("expiresAt", JNumber (Num (Sample.t0 + 60000)))])))
      as [_ [_ [_ [_ [_ [_ [_ [H _]]]]]]]].
    exact (H _ (JObject [("token", JString "T");
                         ("expiresAt", JNumber (Num (Sample.t0 + 60000)))])
             (JNumber (Num (Sample.t0 + 60000))) (Sample.t0 + 60000)
             eq_refl eq_refl eq_refl eq_refl eq_refl eq_refl).
  - destruct (cache_read_fails_soft Reference.runtime E
                (Sample.world None
                   (Sample.cache_json [("token", JString "T");
                                       ("expiresAt", JString "soon")])))
      as [_ [_ [_ [_ [_ [_ [_ [_ [H _]]]]]]]]].
    exact (H _ (JObject [("token", JString "T"); ("expiresAt", JString "soon")])
             (JString "soon") eq_refl eq_refl eq_refl eq_refl eq_refl).
Defined.

(** C7 as stated fails for JSON of another shape: a cache file that holds
    an object with no [expiresAt], or a bare number, is returned as an
    unexpired record. *)
Lemma cache_read_unchecked_shape :
  let E := Sample.env None "T" Sample.no_fault [] in
  fst (@getCachedToken Reference.runtime E
         (Sample.world None (Sample.cache_json [("token", JString "T")]))) =
    Ok (Some {| cached := JObject [("token", JString "T")]; needsRefresh := false |})
  /\ fst (@getCachedToken Reference.runtime E (Sample.world None (Some "5"))) =
       Ok (Some {| cached := JNumber (Num 5); needsRefresh := false |}).
Proof. split; reflexivity. Qed.

(** ** Explicit and environment tokens *)

(** C8.  A caller-supplied token that the validator rejects ends
    resolveAuth at once with the invalid-token failure: the validation is
    the only event of the run, so neither the environment, nor the cache,
    nor the extractor is consulted.  The same holds for a rejected
    CLIPPY_TOKEN when the caller supplied no token.  (A token is supplied
    when it is a non-empty string.) *)
Theorem invalid_supplied_token_is_terminal (RT : JsRuntime) (E : Env)
  (options : ResolveOptions) (w : World) (tok : string) :
  str_truthy tok = true ->
  fetch_inbox E (now w) ("Bearer " ++ tok)%string <> FetchStatus true ->
  (ro_token options = Some tok ->
   resolveAuth E options w =
     (Ok (auth_failure "Provided token is invalid or expired"),
      log_event w (EvValidate (JString tok) false)))
  /\ (opt_truthy (ro_token options) = false ->
      env_CLIPPY_TOKEN E = Some tok ->
      resolveAuth E options w =
        (Ok (auth_failure
               "CLIPPY_TOKEN environment variable contains invalid or expired token"),
         log_event (log_event w EvEnvRead) (EvValidate (JString tok) false))).
Proof.
  intros Htok Hbad.
  assert (Hv : forall w', now w' = now w ->
             validateSession E (JString tok) w' =
               (Ok false, log_event w' (EvValidate (JString tok) false))).
  { intros w' Hnow. unfold validateSession. rewrite Hnow.
    change (to_string (JString tok)) with tok.
    destruct (fetch_inbox E (now w) ("Bearer " ++ tok)) as [[|]|];
      [ congruence | reflexivity | reflexivity ]. }
  split.
  - intros Hcli. unfold resolveAuth. rewrite Hcli. cbv zeta.
    change (opt_truthy (Some tok)) with (str_truthy tok). rewrite Htok.
    change (opt_js (Some tok)) with (JString tok).
    unfold bind. rewrite (Hv w eq_refl). reflexivity.
  - intros Hcli Henv. unfold resolveAuth. cbv zeta. rewrite Hcli.
    unfold resolveAuth_env. unfold bind at 1. unfold read_env. rewrite Henv.
    change (opt_truthy (Some tok)) with (str_truthy tok). rewrite Htok.
    change (opt_js (Some tok)) with (JString tok).
    unfold bind. rewrite (Hv (log_event w EvEnvRead) eq_refl). reflexivity.
Qed.

Lemma invalid_supplied_token_is_terminal_witness :
  events_of (@resolveAuth Reference.runtime
               (Sample.env (Some "GOOD") "GOOD" Sample.no_fault [])
               (Sample.options (Some "BAD") true))
            (Sample.world None None) = [EvValidate (JString "BAD") false]
  /\ events_of (@resolveAuth Reference.runtime
                  (Sample.env (Some "BAD") "GOOD" Sample.no_fault [])
                  (Sample.options None true))
               (Sample.world None None) = [EvEnvRead; EvValidate (JString "BAD") false].
Proof.
  split.
  - destruct (invalid_supplied_token_is_terminal Reference.runtime
                (Sample.env (Some "GOOD") "GOOD" Sample.no_fault [])
                (Sample.options (Some "BAD") true) (Sample.world None None) "BAD")
      as [H _]; [ reflexivity | vm_compute; discriminate | ].
    unfold events_of. rewrite (H eq_refl). reflexivity.
  - destruct (invalid_supplied_token_is_terminal Reference.runtime
                (Sample.env (Some "BAD") "GOOD" Sample.no_fault [])
                (Sample.options None true) (Sample.world None None) "BAD")
      as [_ H]; [ reflexivity | vm_compute; discriminate | ].
    unfold events_of. rewrite (H eq_refl eq_refl). reflexivity.
Defined.

(** ** Cross-process lock *)

Section LockProperties.
Variable E : Env.

Lemma acquireLock_deadline_passed (timeout : Z) (w : World) :
  timeout <= 0 ->
  acquireLock E timeout w =
    (Ok None, log_event w (EvCall (CallAcquireLock timeout))).
Proof.
  intros Hle. unfold acquireLock, bind, emit, Date_now.
  assert (Hc : forall t, (t - t <? timeout) = false)
    by (intros t; apply Z.ltb_ge; lia).
  destruct (acquireLock_fuel timeout); simpl; unfold bind, Date_now; simpl;
    rewrite Hc; reflexivity.
Qed.

Lemma acquireLock_on_held_lock (s : string) (timeout : Z) (w : World) :
  lockFile w = Some s ->
  fs_fault E (ReadFile LOCK_FILE) = false ->
  (forall t, js_gt (js_sub (Num t) (parseInt s)) (Num LOCK_TIMEOUT) = false) ->
  let r := acquireLock E timeout w in
  fst r = Ok None
  /\ lockFile (snd r) = Some s
  /\ timeout <= now (snd r) - now w
  /\ (0 <= timeout -> now (snd r) - now w < timeout + 500)
  /\ Forall (fun e => e = EvCall (CallAcquireLock timeout) \/ poll_event e)
            (events_of (acquireLock E timeout) w).
Proof.
  intros Hlock Hread Hnever.
  destruct (Z_le_gt_dec timeout 0) as [Hle | Hgt].
  - cbv zeta. unfold events_of.
    rewrite (acquireLock_deadline_passed w Hle). simpl.
    rewrite skipn_exact.
    repeat split; try assumption; try lia.
    repeat constructor.
  - cbv zeta. unfold events_of.
    assert (Hrun : acquireLock E timeout w =
                   acquireLock_loop E (acquireLock_fuel timeout)
                     (now w) timeout
                     (log_event w (EvCall (CallAcquireLock timeout))))
      by reflexivity.
    rewrite Hrun.
    pose proof (acquireLock_fuel_enough timeout) as Hfuel.
    destruct (@held_loop E s (now w) timeout (acquireLock_fuel timeout)
                Hread Hnever (log_event w (EvCall (CallAcquireLock timeout)))
                Hlock)
      as [Hres [Hl [Hd [evs [Ht Hall]]]]];
      [ change (now (log_event w (EvCall (CallAcquireLock timeout)))) with (now w);
        lia
      | change (now (log_event w (EvCall (CallAcquireLock timeout)))) with (now w);
        lia
      | ].
    repeat split; try assumption; try lia.
    rewrite Ht. simpl. rewrite <- app_assoc. rewrite skipn_exact.
    simpl. constructor; [ left; reflexivity | ].
    eapply Forall_impl; [ | exact Hall ]. intros e He. right. exact He.
Qed.

(** *** A marker that holds a time *)








End LockProperties.

(** C9.  A lock marker whose content parseInt reads as NaN is never found
    stale: the comparison of line 24 is false at every time, so acquireLock
    only reads the marker and sleeps 500 ms until its deadline has passed,
    leaves the marker in place and returns none. *)
Theorem corrupt_lock_marker_never_reclaimed (E : Env)
  (w : World) (s : string) (timeout : Z) :
  lockFile w = Some s ->
  parseInt s = NaN ->
  fs_fault E (ReadFile LOCK_FILE) = false ->
  let r := acquireLock E timeout w in
  (forall t, js_gt (js_sub (Num t) (parseInt s)) (Num LOCK_TIMEOUT) = false)
  /\ fst r = Ok None
  /\ lockFile (snd r) = Some s
  /\ timeout <= now (snd r) - now w
  /\ (0 <= timeout -> now (snd r) - now w < timeout + 500)
  /\ Forall (fun e => e = EvCall (CallAcquireLock timeout) \/ poll_event e)
            (events_of (acquireLock E timeout) w).
Proof.
  intros Hlock Hnan Hread.
  assert (Hnever : forall t,
             js_gt (js_sub (Num t) (parseInt s)) (Num LOCK_TIMEOUT) = false).
  { intros t. rewrite Hnan. reflexivity. }
  split; [ exact Hnever | ].
  apply acquireLock_on_held_lock; assumption.
Qed.

Lemma corrupt_lock_marker_never_reclaimed_witness :
  let E := Sample.env None "T" Sample.no_fault [] in
  let r := acquireLock E 5000 (Sample.world (Some "pid 4711") None) in
  fst r = Ok None
  /\ lockFile (snd r) = Some "pid 4711"
  /\ now (snd r) = Sample.t0 + 5000.
Proof.
  cbv zeta.
  destruct (@corrupt_lock_marker_never_reclaimed
              (Sample.env None "T" Sample.no_fault [])
              (Sample.world (Some "pid 4711") None) "pid 4711" 5000
              eq_refl eq_refl eq_refl)
    as [_ [Hres [Hl _]]].
  split; [ exact Hres | split; [ exact Hl | vm_compute; reflexivity ] ].
Defined.



(** ** Cache writes that fail *)

Section CacheWriteFailure.
Context {RT : JsRuntime}.
Variable E : Env.
Hypothesis cache_unwritable :
  fs_fault E (Mkdir CONFIG_DIR) = true \/ fs_fault E (WriteFile TOKEN_CACHE_FILE) = true.

Lemma same_cache_trans (a b c : World) :
  same_cache a b -> same_cache b c -> same_cache a c.
Proof. unfold same_cache. congruence. Qed.

Lemma resolveAuth_extract_same_cache (interactive : bool) :
  respects same_cache (resolveAuth_extract E interactive).
Proof.
  unfold resolveAuth_extract. destruct interactive;
    [ | intros w; reflexivity ].
  apply (respects_bind same_cache_trans);
    [ apply extractTokenViaPlaywright_same_cache | intros pr ].
  destruct (pw_success pr && opt_truthy (pw_token pr)); [ | intros w; reflexivity ].
  apply (respects_bind same_cache_trans); [ intros w; reflexivity | intros ok ].
  destruct ok; [ | intros w; reflexivity ].
  apply (respects_bind same_cache_trans); [ | intros _ w; reflexivity ].
  intros w. apply setCachedToken_failed. exact cache_unwritable.
Qed.

Lemma resolveAuth_same_cache (options : ResolveOptions) :
  respects same_cache (resolveAuth E options).
Proof.
  unfold resolveAuth. cbv zeta.
  destruct (opt_truthy (ro_token options)).
  { apply (respects_bind same_cache_trans); [ intros w; reflexivity | intros ok ].
    destruct ok; intros w; reflexivity. }
  unfold resolveAuth_env.
  apply (respects_bind same_cache_trans); [ intros w; reflexivity | intros envToken ].
  destruct (opt_truthy envToken).
  { apply (respects_bind same_cache_trans); [ intros w; reflexivity | intros ok ].
    destruct ok; intros w; reflexivity. }
  unfold resolveAuth_cache.
  apply (respects_bind same_cache_trans).
  { intros w. destruct (getCachedToken_run E w) as [rd Hrun]. rewrite Hrun.
    reflexivity. }
  intros [hit|]; [ | apply resolveAuth_extract_same_cache ].
  apply (respects_bind same_cache_trans);
    [ apply respects_get_prop_m; reflexivity | intros tok ].
  apply (respects_bind same_cache_trans); [ intros w; reflexivity | intros ok ].
  destruct ok; [ | apply resolveAuth_extract_same_cache ].
  apply (respects_bind same_cache_trans).
  { destruct (needsRefresh hit && default false (ro_interactive options));
      intros w; reflexivity. }
  intros _.
  apply (respects_bind same_cache_trans);
    [ apply respects_get_prop_m; reflexivity | intros graph w; reflexivity ].
Qed.

End CacheWriteFailure.

Section ExtractionSuccess.
Context {RT : JsRuntime}.
Variable E : Env.

(** Priority 4 when the extractor returns a token the validator accepts. *)
Lemma resolveAuth_extract_success (w : World) (pr : PlaywrightTokenResult)
  (tok : string) :
  let extraction :=
    extractTokenViaPlaywright E {| eo_headless := None; eo_timeout := None |} w in
  fst extraction = Ok pr ->
  pw_success pr = true ->
  pw_token pr = Some tok ->
  str_truthy tok = true ->
  fetch_inbox E (now (snd extraction)) ("Bearer " ++ tok)%string = FetchStatus true ->
  fst (resolveAuth_extract E true w) =
    Ok (auth_success (JString tok) (opt_js (pw_graphToken pr))).
Proof.
  intros extraction Hres Hsuccess Htoken Htruthy Hvalid.
  unfold resolveAuth_extract. unfold bind at 1. fold extraction.
  destruct extraction as [r w1]. cbn [fst] in Hres. cbn [snd] in Hvalid.
  subst r.
  cbv beta. rewrite Hsuccess, Htoken.
  change (opt_truthy (Some tok)) with (str_truthy tok). rewrite Htruthy.
  cbv beta iota zeta delta [andb default].
  unfold bind at 1. unfold validateSession.
  change (to_string (JString tok)) with tok. rewrite Hvalid.
  unfold bind.
  pose proof (setCachedToken_total E tok (pw_graphToken pr)
                (log_event w1 (EvValidate (JString tok) true))) as Hset.
  destruct (setCachedToken E tok (pw_graphToken pr)
              (log_event w1 (EvValidate (JString tok) true))) as [r2 w2].
  simpl in Hset. subst r2. reflexivity.
Qed.

End ExtractionSuccess.

(** C10.  setCachedToken never rejects.  When the cache directory cannot be
    created or the cache file cannot be written, setCachedToken leaves the
    file as it was and records nothing, and a run of resolveAuth leaves
    the cache file unchanged; yet priority 4 still returns success with a
    freshly extracted token that the validator accepts. *)
Theorem cache_write_errors_are_swallowed (RT : JsRuntime) (E : Env) :
  (forall tok graph w, fst (setCachedToken E tok graph w) = Ok tt)
  /\ (fs_fault E (Mkdir CONFIG_DIR) = true
      \/ fs_fault E (WriteFile TOKEN_CACHE_FILE) = true ->
      (forall tok graph w,
          cacheFile (snd (setCachedToken E tok graph w)) = cacheFile w
          /\ forall c, ~ In (EvCached c) (events_of (setCachedToken E tok graph) w))
      /\ (forall options w, cacheFile (snd (resolveAuth E options w)) = cacheFile w)
      /\ (forall w pr tok,
             let extraction :=
               extractTokenViaPlaywright E
                 {| eo_headless := None; eo_timeout := None |} w in
             fst extraction = Ok pr ->
             pw_success pr = true ->
             pw_token pr = Some tok ->
             str_truthy tok = true ->
             fetch_inbox E (now (snd extraction)) ("Bearer " ++ tok)%string
               = FetchStatus true ->
             fst (resolveAuth_extract E true w) =
               Ok (auth_success (JString tok) (opt_js (pw_graphToken pr)))
             /\ cacheFile (snd (resolveAuth_extract E true w)) = cacheFile w)).
Proof.
  split; [ intros tok graph w; apply setCachedToken_total | ].
  intros Hfault. split; [ | split ].
  - intros tok graph w. apply setCachedToken_failed. exact Hfault.
  - intros options w. apply resolveAuth_same_cache. exact Hfault.
  - intros w pr tok extraction Hres Hsuccess Htoken Htruthy Hvalid. split.
    + eapply resolveAuth_extract_success; eassumption.
    + apply resolveAuth_extract_same_cache. exact Hfault.
Qed.

Lemma cache_write_errors_are_swallowed_witness :
  let E := Sample.env None "NEW" Sample.cache_readonly [Sample.outlook_request "NEW"] in
  let run := @resolveAuth Reference.runtime E (Sample.options None true)
               (Sample.world None None) in
  fst run = Ok (auth_success (JString "NEW") JUndefined)
  /\ cacheFile (snd run) = None
  /\ In (EvFs (WriteFile TOKEN_CACHE_FILE) false) (trace (snd run))
  /\ fst (@resolveAuth_extract Reference.runtime E true (Sample.world None None)) =
       Ok (auth_success (JString "NEW") JUndefined)
  /\ cacheFile (snd (@resolveAuth_extract Reference.runtime E true
                       (Sample.world None None))) = None.
Proof.
  cbv zeta.
  destruct (cache_write_errors_are_swallowed Reference.runtime
              (Sample.env None "NEW" Sample.cache_readonly
                 [Sample.outlook_request "NEW"]))
    as [_ H].
  destruct (H (or_intror eq_refl)) as [_ [Hsame Hstep4]].
  split; [ vm_compute; reflexivity | split; [ | split ] ].
  - rewrite Hsame. reflexivity.
  - vm_compute. tauto.
  - apply (Hstep4 (Sample.world None None)
             {| pw_success := true; pw_token := Some "NEW";
                pw_graphToken := None; pw_error := None |} "NEW");
      vm_compute; reflexivity.
Defined.

(** ** Priority order *)

Section ResolverTable.
Context {RT : JsRuntime}.
Variable E : Env.

Lemma validateSession_accepted (tok : JsValue) (w : World) :
  validateSession E tok w =
    (Ok (accepted E (now w) tok),
     log_event w (EvValidate tok (accepted E (now w) tok))).
Proof. reflexivity. Qed.

Lemma fallback_sources (interactive : bool) (evs : list Event) (r : AuthResult) :
  fallback_path interactive evs r ->
  later_sources evs = if interactive then [SrcExtract] else [].
Proof.
  intros Hpath. inversion Hpath as [Hi | evs' r' Hi Hx]; subst.
  - reflexivity.
  - destruct (extract_path_facts Hx) as [Hsrc _]. exact Hsrc.
Qed.

(** Priority 4 adds its events to the trace, and consults the extractor
    exactly when the caller is interactive. *)
Lemma resolveAuth_extract_sources (interactive : bool) (w : World) :
  exists evs,
    trace (snd (resolveAuth_extract E interactive w)) = trace w ++ evs
    /\ later_sources evs = if interactive then [SrcExtract] else [].
Proof.
  destruct (resolveAuth_extract_path E interactive w)
    as [r [evs [w' [[Hrun Ht] Hpath]]]].
  exists evs. rewrite Hrun. split; [ exact Ht | ].
  apply (fallback_sources Hpath).
Qed.

(** The result of priority 4 for an interactive caller. *)
Lemma resolveAuth_extract_result (w : World) :
  let x := extractTokenViaPlaywright E
             {| eo_headless := None; eo_timeout := None |} w in
  exists pr,
    fst x = Ok pr
    /\ fst (resolveAuth_extract E true w) =
         Ok (if pw_success pr && opt_truthy (pw_token pr)
             then if accepted E (now (snd x))
                              (JString (default EmptyString (pw_token pr)))
                  then auth_success (JString (default EmptyString (pw_token pr)))
                                    (opt_js (pw_graphToken pr))
                  else auth_failure "Extracted token is invalid or expired"
             else auth_failure
                    (if opt_truthy (pw_error pr)
                     then default EmptyString (pw_error pr)
                     else "Failed to extract token via browser")).
Proof.
  cbv zeta.
  destruct (extractTokenViaPlaywright_steps E
              {| eo_headless := None; eo_timeout := None |} w)
    as [pr [xevs [w1 [[Hx _] _]]]].
  exists pr. unfold resolveAuth_extract, bind. rewrite Hx. cbn [fst snd].
  split; [ reflexivity | ].
  destruct (pw_success pr && opt_truthy (pw_token pr)); [ | reflexivity ].
  rewrite validateSession_accepted.
  destruct (accepted E (now w1) (JString (default EmptyString (pw_token pr))));
    [ | reflexivity ].
  pose proof (setCachedToken_total E (default EmptyString (pw_token pr))
                (pw_graphToken pr)
                (log_event w1
                   (EvValidate (JString (default EmptyString (pw_token pr))) true)))
    as Hset.
  destruct (setCachedToken E (default EmptyString (pw_token pr))
              (pw_graphToken pr)
              (log_event w1
                 (EvValidate (JString (default EmptyString (pw_token pr))) true)))
    as [u w2].
  simpl in Hset. subst u. reflexivity.
Qed.

(** Priority 3: what the cache offers decides between returning it and
    going on to priority 4. *)
Lemma resolveAuth_cache_table (interactive : bool) (w : World) :
  exists rd,
    let w1 := fold_left log_event (cache_segment rd) w in
    match cache_offer E w with
    | Some hit =>
        exists tok graph,
          get_prop (cached hit) "token" = Val tok
          /\ get_prop (cached hit) "graphToken" = Val graph
          /\ (accepted E (now w) tok = true ->
              fst (resolveAuth_cache E interactive w) = Ok (auth_success tok graph)
              /\ trace (snd (resolveAuth_cache E interactive w)) =
                   trace w ++ cache_segment rd ++ EvValidate tok true
                     :: spawn_segment (needsRefresh hit && interactive))
          /\ (accepted E (now w) tok = false ->
              resolveAuth_cache E interactive w =
                resolveAuth_extract E interactive
                  (log_event w1 (EvValidate tok false)))
    | None =>
        resolveAuth_cache E interactive w = resolveAuth_extract E interactive w1
    end.
Proof.
  destruct (getCachedToken_run E w) as [rd Hrun]. exists rd. cbv zeta.
  unfold cache_offer, resolveAuth_cache, bind. rewrite Hrun.
  simpl fold_left.
  destruct (if fs_fault E (ReadFile TOKEN_CACHE_FILE) then None
            else cache_lookup (cacheFile w) (now w)) as [hit|] eqn:Hfound;
    [ | reflexivity ].
  assert (Hobj : cached hit <> JNull /\ cached hit <> JUndefined).
  { destruct (fs_fault E (ReadFile TOKEN_CACHE_FILE)); [ discriminate | ].
    eapply cache_lookup_object; eauto. }
  destruct Hobj as [Hn Hu].
  destruct (get_prop_defined "token" Hn Hu) as [tok Htok].
  destruct (get_prop_defined "graphToken" Hn Hu) as [graph Hgraph].
  exists tok, graph. split; [ exact Htok | split; [ exact Hgraph | ] ].
  unfold get_prop_m. rewrite Htok, Hgraph. unfold ret.
  rewrite validateSession_accepted. cbn [now log_event].
  split; intros Hok; rewrite Hok; [ | reflexivity ].
  destruct (needsRefresh hit && interactive); simpl;
    rewrite <- !app_assoc; split; reflexivity.
Qed.

End ResolverTable.

(** C2.  resolveAuth consults the sources in the documented order and
    stops at the first one that yields a credential the validator accepts.
    - A caller's token, when there is one, is the only source consulted:
      the validator's answer alone decides between returning it and the
      failure.
    - Otherwise CLIPPY_TOKEN is read; when it is set, it is the last source
      consulted and the validator's answer decides.
    - Otherwise the cache is read.  When it offers a record and the
      validator accepts its token, that token and its graph token are the
      result and nothing else is consulted: the events of the run are the
      read of the environment, the cache read, the validation and, when
      due, the start of the detached refresh.
    - When the cache offers nothing, or the validator rejects its token,
      the run continues as priority 4 does from there: without the
      interactive flag it fails at once and the extractor is not consulted;
      with it the extractor is run, and its outcome and the validator's
      answer on the extracted token decide the result.
    On every run the sources consulted form an initial segment of the
    documented order; no source is consulted after an accepted validation,
    whose credential is the one returned; and a later source is consulted
    only after the earlier ones failed.  The detached refresh that
    priority 3 may start is not a consultation: it does not change the
    result. *)
Theorem resolveAuth_priority_order (RT : JsRuntime) (E : Env)
  (options : ResolveOptions) (w : World) :
  let cliToken := ro_token options in
  let envToken := env_CLIPPY_TOKEN E in
  let interactive := default false (ro_interactive options) in
  let evs := events_of (resolveAuth E options) w in
  let result := fst (resolveAuth E options w) in
  (opt_truthy cliToken = true ->
   let ok := accepted E (now w) (opt_js cliToken) in
   result = Ok (if ok then auth_success (opt_js cliToken) JUndefined
                else auth_failure "Provided token is invalid or expired")
   /\ evs = [EvValidate (opt_js cliToken) ok]
   /\ consulted evs = [SrcExplicit])
  /\ (opt_truthy cliToken = false -> opt_truthy envToken = true ->
      let ok := accepted E (now w) (opt_js envToken) in
      result = Ok (if ok then auth_success (opt_js envToken) JUndefined
                   else auth_failure
                          "CLIPPY_TOKEN environment variable contains invalid or expired token")
      /\ evs = [EvEnvRead; EvValidate (opt_js envToken) ok]
      /\ consulted evs = [SrcExplicit; SrcEnv])
  /\ (opt_truthy cliToken = false -> opt_truthy envToken = false ->
      exists rd,
        let pre := EvEnvRead :: cache_segment rd in
        match cache_offer E w with
        | Some hit =>
            exists tok graph,
              get_prop (cached hit) "token" = Val tok
              /\ get_prop (cached hit) "graphToken" = Val graph
              /\ (accepted E (now w) tok = true ->
                  result = Ok (auth_success tok graph)
                  /\ evs = pre ++ EvValidate tok true
                             :: spawn_segment (needsRefresh hit && interactive)
                  /\ consulted evs = [SrcExplicit; SrcEnv; SrcCache])
              /\ (accepted E (now w) tok = false ->
                  resolveAuth E options w =
                    resolveAuth_extract E interactive
                      (fold_left log_event (pre ++ [EvValidate tok false]) w)
                  /\ consulted evs = sources_through interactive)
        | None =>
            resolveAuth E options w =
              resolveAuth_extract E interactive (fold_left log_event pre w)
            /\ consulted evs = sources_through interactive
        end)
  /\ (forall w',
         resolveAuth_extract E false w' =
           (Ok (auth_failure
                  "No token available. Set CLIPPY_TOKEN env var or run with --interactive to extract via browser."),
            w'))
  /\ (forall w',
         let x := extractTokenViaPlaywright E
                    {| eo_headless := None; eo_timeout := None |} w' in
         exists pr,
           fst x = Ok pr
           /\ fst (resolveAuth_extract E true w') =
                Ok (if pw_success pr && opt_truthy (pw_token pr)
                    then if accepted E (now (snd x))
                                     (JString (default EmptyString (pw_token pr)))
                         then auth_success
                                (JString (default EmptyString (pw_token pr)))
                                (opt_js (pw_graphToken pr))
                         else auth_failure "Extracted token is invalid or expired"
                    else auth_failure
                           (if opt_truthy (pw_error pr)
                            then default EmptyString (pw_error pr)
                            else "Failed to extract token via browser")))
  /\ is_prefix (consulted evs) documented_order = true
  /\ (forall tok rest,
         first_success evs = Some (tok, rest) ->
         later_sources rest = []
         /\ exists graph, result = Ok (auth_success tok graph))
  /\ (first_success evs = None -> exists msg, result = Ok (auth_failure msg))
  /\ (forall s, In s (later_sources evs) ->
                first_success (events_before s evs) = None
                /\ opt_truthy (ro_token options) = false)
  /\ (In SrcCache (later_sources evs) -> opt_truthy (env_CLIPPY_TOKEN E) = false)
  /\ (In SrcExtract (later_sources evs) ->
      default false (ro_interactive options) = true)
  /\ fst (resolveAuth_settled E options w) = result.
Proof.
  cbv zeta.
  split.
  { intros Hcli. unfold events_of, resolveAuth. cbv zeta. rewrite Hcli.
    unfold bind. rewrite validateSession_accepted.
    destruct (accepted E (now w) (opt_js (ro_token options)));
      simpl; rewrite skipn_exact; repeat split. }
  split.
  { intros Hcli Henv. unfold events_of, resolveAuth. cbv zeta. rewrite Hcli.
    unfold resolveAuth_env, bind, read_env. rewrite Henv.
    rewrite validateSession_accepted. cbn [now log_event].
    destruct (accepted E (now w) (opt_js (env_CLIPPY_TOKEN E)));
      simpl; rewrite <- app_assoc, skipn_exact; repeat split. }
  split.
  { intros Hcli Henv.
    assert (Hrun : resolveAuth E options w =
                   resolveAuth_cache E (default false (ro_interactive options))
                     (log_event w EvEnvRead)).
    { unfold resolveAuth. cbv zeta. rewrite Hcli.
      unfold resolveAuth_env, bind, read_env. rewrite Henv. reflexivity. }
    destruct (resolveAuth_cache_table E (default false (ro_interactive options))
                (log_event w EvEnvRead)) as [rd Htable].
    exists rd. cbv zeta in Htable.
    change (cache_offer E (log_event w EvEnvRead)) with (cache_offer E w) in Htable.
    change (now (log_event w EvEnvRead)) with (now w) in Htable.
    assert (Hmiss : forall w2 pre,
               trace w2 = trace w ++ pre ->
               later_sources pre = [SrcEnv; SrcCache] ->
               resolveAuth E options w =
                 resolveAuth_extract E (default false (ro_interactive options)) w2 ->
               consulted (events_of (resolveAuth E options) w) =
                 sources_through (default false (ro_interactive options))).
    { intros w2 pre Ht Hsrc Heq.
      destruct (resolveAuth_extract_sources E
                  (default false (ro_interactive options)) w2)
        as [xevs [Htx Hx]].
      rewrite <- Heq, Ht, <- app_assoc in Htx.
      rewrite (events_of_spec _ _ _ Htx).
      unfold consulted. rewrite later_sources_app, Hsrc, Hx.
      destruct (default false (ro_interactive options)); reflexivity. }
    destruct (cache_offer E w) as [hit|].
    - destruct Htable as [tok [graph [Htok [Hgraph [Hyes Hno]]]]].
      exists tok, graph. split; [ exact Htok | split; [ exact Hgraph | split ] ].
      + intros Hok. destruct (Hyes Hok) as [Hres Ht].
        rewrite <- Hrun in Hres, Ht. split; [ exact Hres | ].
        assert (Hevs : events_of (resolveAuth E options) w =
                       (EvEnvRead :: cache_segment rd) ++ EvValidate tok true
                         :: spawn_segment (needsRefresh hit
                                           && default false (ro_interactive options))).
        { apply events_of_spec. rewrite Ht. simpl. rewrite <- app_assoc.
          reflexivity. }
        split; [ exact Hevs | ]. rewrite Hevs.
        destruct (needsRefresh hit && default false (ro_interactive options));
          reflexivity.
      + intros Hbad. specialize (Hno Hbad). rewrite <- Hrun in Hno.
        split; [ exact Hno | ].
        eapply Hmiss; [ | | exact Hno ];
          [ simpl; rewrite <- !app_assoc; reflexivity | reflexivity ].
    - rewrite <- Hrun in Htable. split; [ exact Htable | ].
      eapply Hmiss; [ | | exact Htable ];
        [ simpl; rewrite <- !app_assoc; reflexivity | reflexivity ]. }
  split; [ reflexivity | ].
  split; [ intros w'; apply (resolveAuth_extract_result E w') | ].
  destruct (resolveAuth_path E options w) as [r [evs [w' [Hsteps Hpath]]]].
  destruct (steps_result Hsteps) as [Hres [_ Hevs]].
  rewrite Hres, Hevs.
  destruct (resolve_path_order Hpath) as [Hpre [Hwin [Hlose [Hlater [Hcache Hext]]]]].
  split; [ exact Hpre | ].
  split.
  { intros tok rest H. destruct (Hwin tok rest H) as [Hnone [graph ->]].
    split; [ exact Hnone | eexists; reflexivity ]. }
  split.
  { intros H. destruct (Hlose H) as [msg ->]. eexists. reflexivity. }
  split; [ exact Hlater | ].
  split; [ exact Hcache | ].
  split; [ exact Hext | ].
  rewrite resolveAuth_settled_result. exact Hres.
Qed.

Lemma resolveAuth_priority_order_witness :
  let E := Sample.env None "NEW" Sample.no_fault [Sample.outlook_request "NEW"] in
  let w := Sample.world None Sample.expiring_cache in
  let run := @resolveAuth Reference.runtime E (Sample.options None true) in
  let served := @resolveAuth Reference.runtime
                  (Sample.env None "OLD" Sample.no_fault [Sample.outlook_request "NEW"])
                  (Sample.options None true) in
  consulted (events_of run w) = documented_order
  /\ fst (run w) = Ok (auth_success (JString "NEW") JUndefined)
  /\ first_success (events_before SrcExtract (events_of run w)) = None
  /\ consulted (events_of served w) = [SrcExplicit; SrcEnv; SrcCache]
  /\ fst (served w) = Ok (auth_success (JString "OLD") JUndefined).
Proof.
  cbv zeta.
  destruct (resolveAuth_priority_order Reference.runtime
              (Sample.env None "NEW" Sample.no_fault [Sample.outlook_request "NEW"])
              (Sample.options None true)
              (Sample.world None Sample.expiring_cache))
    as [_ [_ [Hcache [_ [_ [_ [_ [_ [Hlater _]]]]]]]]].
  destruct (resolveAuth_priority_order Reference.runtime
              (Sample.env None "OLD" Sample.no_fault [Sample.outlook_request "NEW"])
              (Sample.options None true)
              (Sample.world None Sample.expiring_cache))
    as [_ [_ [Hserved _]]].
  split.
  { destruct (Hcache eq_refl eq_refl) as [rd Hrejected].
    destruct Hrejected as [tok [graph [Htok [_ [_ Hno]]]]].
    injection Htok as <-.
    destruct (Hno eq_refl) as [_ Hsources]. exact Hsources. }
  split; [ vm_compute; reflexivity | ].
  split; [ apply (Hlater SrcExtract); vm_compute; tauto | ].
  destruct (Hserved eq_refl eq_refl) as [rd Haccepted].
  destruct Haccepted as [tok [graph [Htok [Hgraph [Hyes _]]]]].
  injection Htok as <-. injection Hgraph as <-.
  destruct (Hyes eq_refl) as [Hres [_ Hsources]].
  split; [ exact Hsources | exact Hres ].
Defined.

(** ** Validation before acceptance *)

(** C1, as the code has it.  Every credential resolveAuth returns with
    success was passed to validateSession during that call and accepted,
    and every credential resolveAuth itself writes to the cache (priority 4)
    was accepted by validateSession earlier in that call.  The keepalive
    loop and the detached refresh of priority 3 never call validateSession:
    a keepalive turn stores the latest captured token as it is. *)
Theorem accepted_credentials_are_validated (RT : JsRuntime) (E : Env) :
  (forall options w r,
      fst (resolveAuth E options w) = Ok r ->
      success r = true ->
      In (EvValidate (token r) true) (events_of (resolveAuth E options) w))
  /\ (forall options w pre c post,
         events_of (resolveAuth E options) w = pre ++ EvCached c :: post ->
         In (EvValidate (JString (ct_token c)) true) pre)
  /\ (forall turns intervalMinutes headless w,
         Forall no_validation
           (events_of (startKeepaliveSession E turns intervalMinutes headless) w))
  /\ (forall w, Forall no_validation (events_of (backgroundRefresh E) w))
  /\ (forall intervalMinutes w lastToken lastGraphToken,
         fold_left keepalive_on_request (page_traffic E (now w + 2000)) (None, None)
           = (Some lastToken, lastGraphToken) ->
         str_truthy lastToken = true ->
         fs_fault E (Mkdir CONFIG_DIR) = false ->
         fs_fault E (WriteFile TOKEN_CACHE_FILE) = false ->
         In (EvCached {| ct_token := lastToken;
                         ct_graphToken := or_undefined lastGraphToken;
                         ct_expiresAt := recorded_expiry lastToken (now w + 2000) |})
            (events_of (keepalive_turn E intervalMinutes) w)
         /\ Forall no_validation (events_of (keepalive_turn E intervalMinutes) w)).
Proof.
  split; [ | split; [ | split; [ | split ] ] ].
  - intros options w r Hres Hok.
    destruct (resolveAuth_path E options w) as [r' [evs [w' [Hsteps Hpath]]]].
    destruct (steps_result Hsteps) as [Hres' [_ Hevs]].
    rewrite Hevs. rewrite Hres' in Hres. inversion Hres. subst r'.
    eapply resolve_path_validated; eauto.
  - intros options w pre c post Hsplit.
    destruct (resolveAuth_path E options w) as [r' [evs [w' [Hsteps Hpath]]]].
    destruct (steps_result Hsteps) as [_ [_ Hevs]].
    rewrite Hevs in Hsplit.
    eapply resolve_path_cached; eauto.
  - intros turns intervalMinutes headless w.
    apply extends_with_events.
    apply quiet_startKeepaliveSession.
  - intros w.
    apply extends_with_events.
    apply quiet_backgroundRefresh.
  - intros intervalMinutes w lastToken lastGraphToken Hseen Htruthy Hmk Hwr.
    split.
    + apply keepalive_turn_stores; assumption.
    + apply extends_with_events.
      apply quiet_keepalive_turn.
Qed.

Lemma accepted_credentials_are_validated_witness :
  let E := Sample.env None "NEW" Sample.no_fault [Sample.outlook_request "NEW"] in
  let w := Sample.world None None in
  let run := @resolveAuth Reference.runtime E (Sample.options None true) in
  In (EvValidate (JString "NEW") true) (events_of run w)
  /\ In (EvCached {| ct_token := "NEW"; ct_graphToken := None;
                     ct_expiresAt := Num (Sample.t0 + 2000 + 3300000) |})
        (events_of (@keepalive_turn Reference.runtime E 10) w)
  /\ Forall no_validation (events_of (@keepalive_turn Reference.runtime E 10) w).
Proof.
  cbv zeta.
  destruct (accepted_credentials_are_validated Reference.runtime
              (Sample.env None "NEW" Sample.no_fault [Sample.outlook_request "NEW"]))
    as [Hret [_ [_ [_ Hturn]]]].
  split.
  - apply (Hret (Sample.options None true) (Sample.world None None)
             (auth_success (JString "NEW") JUndefined));
      vm_compute; reflexivity.
  - apply (Hturn 10 (Sample.world None None) "NEW" None); reflexivity.
Defined.

(** C1 as stated fails for the two writers that do not validate: the
    detached refresh started by a cache hit near expiry, and a keepalive
    turn, each write the captured token NEW to the cache, and
    validateSession is never called on NEW. *)
Lemma unvalidated_cache_writes :
  let E := Sample.env None "OLD" Sample.no_fault [Sample.outlook_request "NEW"] in
  let stored := {| ct_token := "NEW"; ct_graphToken := None;
                   ct_expiresAt := Num (Sample.t0 + 2000 + 3300000) |} in
  let refresh := events_of (@resolveAuth_settled Reference.runtime E
                              (Sample.options None true))
                           (Sample.world None Sample.expiring_cache) in
  let keepalive := events_of (@startKeepaliveSession Reference.runtime E 1 10 None)
                             (Sample.world None None) in
  (In (EvCached stored) refresh
   /\ forall ok, ~ In (EvValidate (JString "NEW") ok) refresh)
  /\ (In (EvCached stored) keepalive
      /\ forall ok, ~ In (EvValidate (JString "NEW") ok) keepalive).
Proof.
  cbv zeta. split; split.
  - vm_compute. tauto.
  - intros ok. vm_compute. intros H.
    repeat (destruct H as [H | H]; [ discriminate H | ]). exact H.
  - vm_compute. tauto.
  - intros ok. vm_compute. intros H.
    repeat (destruct H as [H | H]; [ discriminate H | ]). exact H.
Qed.

(** ** Lock contention *)

(** C4, as the code has it.  When tryExtractToken cannot acquire the lock
    it returns the failure "Another browser session is in progress, please
    wait" and does nothing else: after its own call the events are the one
    acquireLock call and its polling, so no browser is launched and the
    lock is not tried again.  extractTokenViaPlaywright, called headless,
    follows every failed headless attempt, a lock contention included,
    with one attended attempt, which calls acquireLock again with 30 s. *)
Theorem lock_contention_is_reported (E : Env) :
  (forall headless timeout w,
      let w1 := log_event w (EvCall (CallTryExtractToken headless timeout)) in
      let locking := acquireLock E (if headless then 5000 else 30000) w1 in
      fst locking = Ok None ->
      tryExtractToken E headless timeout w =
        (Ok (pw_failure "Another browser session is in progress, please wait"),
         snd locking)
      /\ exists polls,
           events_of (tryExtractToken E headless timeout) w =
             EvCall (CallTryExtractToken headless timeout)
               :: EvCall (CallAcquireLock (if headless then 5000 else 30000))
               :: polls
           /\ Forall lock_event polls)
  /\ (forall options w r1,
         default true (eo_headless options) = true ->
         let timeout := default 15000 (eo_timeout options) in
         let w0 := log_event w (EvCall (CallExtractTokenViaPlaywright true timeout)) in
         let w1 := log_event (snd (tryExtractToken E true timeout w0))
                     (EvLog "Session not found. Opening browser for login...") in
         fst (tryExtractToken E true timeout w0) = Ok r1 ->
         pw_success r1 = false ->
         extractTokenViaPlaywright E options w = tryExtractToken E false 60000 w1
         /\ exists rest,
              events_of (tryExtractToken E false 60000) w1 =
                EvCall (CallTryExtractToken false 60000)
                  :: EvCall (CallAcquireLock 30000) :: rest).
Proof.
  split.
  - intros headless timeout w w1 locking Hnone.
    pose proof (tryExtractToken_contention E headless timeout w Hnone) as Hrun.
    split; [ exact Hrun | ].
    destruct (acquireLock_steps E (if headless then 5000 else 30000) w1)
      as [o [polls [w2 [[Hacq Ht] Hall]]]].
    exists polls. split; [ | exact Hall ].
    apply events_of_spec. rewrite Hrun. cbn [snd].
    unfold w1 in Hacq, Ht. rewrite Hacq. cbn [snd]. rewrite Ht. simpl.
    rewrite <- app_assoc. reflexivity.
  - intros options w r1 Hheadless timeout w0 w1 Hfirst Hfail.
    split.
    + apply (extractTokenViaPlaywright_fallback E options w Hheadless Hfirst Hfail).
    + apply (tryExtractToken_begins E false 60000 w1).
Qed.

Lemma lock_contention_is_reported_witness :
  let E := Sample.env None "T" Sample.no_fault [Sample.outlook_request "T"] in
  let w := Sample.world (Some "1699999999000") None in
  fst (tryExtractToken E true 15000 w) =
    Ok (pw_failure "Another browser session is in progress, please wait")
  /\ extractTokenViaPlaywright E
       {| eo_headless := None; eo_timeout := None |} w =
     tryExtractToken E false 60000
       (log_event
          (snd (tryExtractToken E true 15000
                  (log_event w (EvCall (CallExtractTokenViaPlaywright true 15000)))))
          (EvLog "Session not found. Opening browser for login...")).
Proof.
  cbv zeta.
  destruct (lock_contention_is_reported
              (Sample.env None "T" Sample.no_fault [Sample.outlook_request "T"]))
    as [Hreport Hretry].
  split.
  - destruct (Hreport true 15000 (Sample.world (Some "1699999999000") None))
      as [Hrun _]; [ vm_compute; reflexivity | ].
    rewrite Hrun. reflexivity.
  - destruct (Hretry {| eo_headless := None; eo_timeout := None |}
                (Sample.world (Some "1699999999000") None)
                (pw_failure "Another browser session is in progress, please wait"))
      as [Hrun _]; [ reflexivity | vm_compute; reflexivity | reflexivity | ].
    exact Hrun.
Defined.

(** C4 as stated fails for extractTokenViaPlaywright: with the lock held
    by another process, the headless attempt fails on lock contention only,
    and the same invocation goes on to the attended attempt, which contends
    for the lock a second time. *)
Lemma lock_contention_is_retried :
  let E := Sample.env None "T" Sample.no_fault [Sample.outlook_request "T"] in
  let w := Sample.world (Some "1699999999000") None in
  let run := extractTokenViaPlaywright E
               {| eo_headless := None; eo_timeout := None |} in
  fst (tryExtractToken E true 15000
         (log_event w (EvCall (CallExtractTokenViaPlaywright true 15000)))) =
    Ok (pw_failure "Another browser session is in progress, please wait")
  /\ filter (fun e => match e with
                      | EvCall (CallTryExtractToken _ _)
                      | EvCall (CallAcquireLock _)
                      | EvLog _ => true
                      | _ => false
                      end) (events_of run w) =
       [EvCall (CallTryExtractToken true 15000);
        EvCall (CallAcquireLock 5000);
        EvLog "Session not found. Opening browser for login...";
        EvCall (CallTryExtractToken false 60000);
        EvCall (CallAcquireLock 30000)]
  /\ now (snd (run w)) = Sample.t0 + 5000 + 30000.
Proof.
  cbv zeta. split; [ | split ]; vm_compute; reflexivity.
Qed.

(** ** Cache write in place *)




(* ================================================================= *)
(** * Further properties of the code *)

(** ** Decimal markers: Date.now().toString() and parseInt *)

Lemma digits_acc_uint (d : Decimal.uint) :
  forall acc, digits_acc (NilEmpty.string_of_uint d) (Some acc) = Some (uint_value d acc).
Proof.
  induction d; intros acc; simpl; try reflexivity;
    rewrite IHd; f_equal; f_equal; lia.
Qed.

Lemma digits_acc_uint_first (d : Decimal.uint) :
  d <> Decimal.Nil ->
  digits_acc (NilEmpty.string_of_uint d) None = Some (uint_value d 0).
Proof.
  destruct d; intros Hd; try congruence; simpl;
    rewrite digits_acc_uint; reflexivity.
Qed.

Lemma of_uint_acc_value (d : Decimal.uint) :
  forall acc, Z.pos (Pos.of_uint_acc d acc) = uint_value d (Z.pos acc).
Proof.
  induction d; intros acc; cbn [Pos.of_uint_acc uint_value]; try reflexivity;
    rewrite IHd; f_equal; lia.
Qed.

Lemma of_uint_value (d : Decimal.uint) : Z.of_N (Pos.of_uint d) = uint_value d 0.
Proof.
  induction d; cbn [Pos.of_uint uint_value Z.of_N]; try reflexivity; try exact IHd;
    rewrite of_uint_acc_value; reflexivity.
Qed.

Lemma uint_value_to_uint (p : positive) : uint_value (Pos.to_uint p) 0 = Z.pos p.
Proof.
  rewrite <- of_uint_value, Unsigned.of_to. reflexivity.
Qed.

Lemma string_of_uint_head (d : Decimal.uint) :
  d <> Decimal.Nil ->
  exists c r, NilEmpty.string_of_uint d = String c r
              /\ is_ws c = false /\ c <> "-"%char /\ c <> "+"%char.
Proof.
  destruct d; intros Hd; try congruence; simpl;
    eexists; eexists; (split; [ reflexivity | ]);
    (split; [ reflexivity | split; discriminate ]).
Qed.

Lemma parseInt_uint (d : Decimal.uint) :
  d <> Decimal.Nil ->
  parseInt (NilEmpty.string_of_uint d) = Num (uint_value d 0)
  /\ parseInt (String "-" (NilEmpty.string_of_uint d)) = Num (- uint_value d 0).
Proof.
  intros Hd.
  destruct (string_of_uint_head Hd) as [c [r [Hs [Hws [Hm Hp]]]]].
  pose proof (digits_acc_uint_first Hd) as Hv.
  rewrite Hs in *.
  split.
  - unfold parseInt. simpl skip_ws. rewrite Hws.
    destruct c as [b0 b1 b2 b3 b4 b5 b6 b7].
    destruct b0, b1, b2, b3, b4, b5, b6, b7; try congruence;
      cbv zeta; cbv iota beta; rewrite Hv; reflexivity.
  - unfold parseInt. simpl skip_ws. change (is_ws "-") with false. cbv iota zeta beta.
    rewrite Hv. reflexivity.
Qed.

(** Date.now().toString() read back by parseInt. *)
Lemma parseInt_Z_to_string (z : Z) : parseInt (Z_to_string z) = Num z.
Proof.
  unfold Z_to_string. destruct z as [|p|p]; simpl Z.to_int.
  - reflexivity.
  - unfold NilZero.string_of_int, NilZero.string_of_uint.
    pose proof (Unsigned.to_uint_nonnil p) as Hnil.
    destruct (parseInt_uint Hnil) as [H _].
    rewrite uint_value_to_uint in H.
    destruct (Pos.to_uint p); try congruence; exact H.
  - unfold NilZero.string_of_int, NilZero.string_of_uint.
    pose proof (Unsigned.to_uint_nonnil p) as Hnil.
    destruct (parseInt_uint Hnil) as [_ H].
    rewrite uint_value_to_uint in H.
    destruct (Pos.to_uint p); try congruence; exact H.
Qed.

(** ** More on the cross-process lock *)

Section LockTiming.
Variable E : Env.

Ltac run_turn :=
  cbv beta delta [acquireLock_attempt check_existing_lock bind try_catch ret
                  throw readFile unlink open_wx fd_write fd_close mkdir sleep
                  emit Date_now file is_EEXIST];
  repeat (simpl;
          match goal with
          | |- context [fs_fault E ?op] => destruct (fs_fault E op) eqn:?
          | |- context [match lockFile ?w with _ => _ end] =>
              destruct (lockFile w) eqn:?
          | |- context [if js_gt ?a ?b then _ else _] => destruct (js_gt a b) eqn:?
          end);
  simpl.

(** A turn touches nothing but the marker and the clock; the turn that
    returns the handle does not sleep, any other turn sleeps 100 or
    500 ms. *)
Lemma acquireLock_attempt_clock (w : World) :
  let r := acquireLock_attempt E w in
  cacheFile (snd r) = cacheFile w
  /\ contextOpen (snd r) = contextOpen w
  /\ spawned (snd r) = spawned w
  /\ match fst r with
     | Ok (Return _) => now (snd r) = now w
     | Ok Continue => now (snd r) = now w + 100 \/ now (snd r) = now w + 500
     | _ => False
     end.
Proof.
  run_turn; repeat split; auto.
Qed.

Lemma acquireLock_loop_clock (startTime timeout : Z) (fuel : nat) :
  forall w,
    timeout - (now w - startTime) <= 100 * Z.of_nat fuel ->
    let r := acquireLock_loop E fuel startTime timeout w in
    cacheFile (snd r) = cacheFile w
    /\ contextOpen (snd r) = contextOpen w
    /\ spawned (snd r) = spawned w
    /\ now w <= now (snd r)
    /\ (now (snd r) = now w \/ now (snd r) - startTime < timeout + 500)
    /\ fst r <> OutOfFuel.
Proof.
  induction fuel as [|fuel IH]; intros w Hfuel;
    simpl acquireLock_loop; unfold bind at 1, Date_now;
    destruct (now w - startTime <? timeout) eqn:Hc;
    try (apply Z.ltb_lt in Hc);
    try (simpl; repeat split; solve [ auto | lia | discriminate ]).
  unfold bind.
  pose proof (acquireLock_attempt_clock w) as Hturn. cbv zeta in Hturn.
  destruct (acquireLock_attempt E w) as [[[|h]|e|] w1]; simpl in Hturn;
    destruct Hturn as [Hc1 [Hx1 [Hs1 Hn1]]]; try contradiction.
  - assert (Hfuel1 : timeout - (now w1 - startTime) <= 100 * Z.of_nat fuel) by lia.
    destruct (IH w1 Hfuel1) as [Hc2 [Hx2 [Hs2 [Hle [Hup Hb]]]]].
    repeat split; try congruence; try lia.
  - simpl. repeat split; try assumption; try lia. discriminate.
Qed.

End LockTiming.

Section LockClock.
Variable E : Env.

(** acquireLock leaves the token cache and the browser alone and is back
    less than 500 ms after its deadline. *)
Lemma acquireLock_clock (timeout : Z) (w : World) :
  let r := acquireLock E timeout w in
  cacheFile (snd r) = cacheFile w
  /\ contextOpen (snd r) = contextOpen w
  /\ spawned (snd r) = spawned w
  /\ now w <= now (snd r)
  /\ now (snd r) - now w < Z.max timeout 0 + 500.
Proof.
  cbv zeta. unfold acquireLock, bind, emit, Date_now.
  set (w0 := log_event w (EvCall (CallAcquireLock timeout))).
  pose proof (acquireLock_fuel_enough timeout) as Hf.
  destruct (@acquireLock_loop_clock E (now w0) timeout (acquireLock_fuel timeout) w0)
    as [Hc [Hx [Hs [Hle [Hup _]]]]].
  - lia.
  - change (now w0) with (now w) in *. change (cacheFile w0) with (cacheFile w) in *.
    change (contextOpen w0) with (contextOpen w) in *.
    change (spawned w0) with (spawned w) in *.
    repeat split; try assumption; lia.
Qed.

End LockClock.

(** X1.  acquireLock always returns, for every behaviour of the file
    system: it never throws, hands out none or the handle, leaves the token
    cache and the browser alone, and is back less than 500 ms after its
    deadline; a call whose timeout is not positive returns none without
    touching the file system. *)
Theorem acquireLock_returns_in_time (E : Env) (timeout : Z) (w : World) :
  let r := acquireLock E timeout w in
  (exists o, fst r = Ok o /\ is_lock_handle E o)
  /\ cacheFile (snd r) = cacheFile w
  /\ contextOpen (snd r) = contextOpen w
  /\ now w <= now (snd r)
  /\ now (snd r) - now w < Z.max timeout 0 + 500
  /\ (fst r = Ok None -> timeout <= now (snd r) - now w)
  /\ (timeout <= 0 ->
      r = (Ok None, log_event w (EvCall (CallAcquireLock timeout)))).
Proof.
  cbv zeta.
  pose proof (acquireLock_result E timeout w) as Hres.
  pose proof (@acquireLock_handle E timeout w) as Hh.
  destruct (acquireLock_clock E timeout w) as [Hc [Hx [_ [Hle Hup]]]].
  split; [ | split; [ exact Hc | split; [ exact Hx | split; [ exact Hle | split; [ exact Hup | split ] ] ] ] ].
  - destruct (acquireLock E timeout w) as [[o|e|] w']; try contradiction.
    exists o. split; [ reflexivity | ]. apply Hh. reflexivity.
  - intros Hnone.
    destruct (acquireLock E timeout w) as [[[h|]|e|] w']; try discriminate.
    simpl. tauto.
  - intros Hle0. unfold acquireLock, bind, emit, Date_now.
    assert (Hcond : forall t, (t - t <? timeout) = false)
      by (intros t; apply Z.ltb_ge; lia).
    destruct (acquireLock_fuel timeout); simpl; unfold bind, Date_now; simpl;
      rewrite Hcond; reflexivity.
Qed.

Section LockRoundTrip.
Variable E : Env.
Hypothesis fs_ok : forall op, fs_fault E op = false.

Lemma acquireLock_free (w : World) (timeout : Z) :
  lockFile w = None ->
  0 < timeout ->
  let r := acquireLock E timeout w in
  fst r = Ok (Some (lock_handle E))
  /\ now (snd r) = now w
  /\ lockFile (snd r) = Some (Z_to_string (now w))
  /\ cacheFile (snd r) = cacheFile w
  /\ contextOpen (snd r) = contextOpen w
  /\ trace (snd r) = trace w ++
       [EvCall (CallAcquireLock timeout); EvFs (ReadFile LOCK_FILE) false;
        EvFs (Mkdir CONFIG_DIR) true; EvFs (OpenWx LOCK_FILE) true;
        EvFs (FdWrite LOCK_FILE) true; EvFs (FdClose LOCK_FILE) true].
Proof.
  intros Hfree Hpos. cbv zeta. unfold acquireLock.
  assert (Hfuel : exists n, acquireLock_fuel timeout = S n).
  { unfold acquireLock_fuel.
    assert (0 <= timeout / 100) by (apply Z.div_pos; lia).
    exists (Z.to_nat (timeout / 100)).
    rewrite <- Z2Nat.inj_succ by lia. f_equal. }
  destruct Hfuel as [n ->].
  assert (Hcond : forall t, (t - t <? timeout) = true)
    by (intros t; apply Z.ltb_lt; lia).
  cbv beta delta [bind emit Date_now acquireLock_loop acquireLock_attempt
                  check_existing_lock try_catch ret throw readFile unlink
                  open_wx fd_write fd_close mkdir sleep file is_EEXIST].
  simpl.
  repeat (first [ rewrite Hcond | rewrite fs_ok | rewrite Hfree ]; simpl).
  rewrite <- !app_assoc. repeat split; reflexivity.
Qed.

Lemma release_removes (w : World) :
  release (lock_handle E) w =
    (Ok tt,
     match lockFile w with
     | Some _ => log_event (set_file w LOCK_FILE None) (EvFs (Unlink LOCK_FILE) true)
     | None => log_event w (EvFs (Unlink LOCK_FILE) false)
     end).
Proof.
  unfold lock_handle, release, try_catch, unlink, ret. rewrite fs_ok. simpl.
  destruct (lockFile w); reflexivity.
Qed.

End LockRoundTrip.

(** X2.  With a working file system, acquireLock on a free lock succeeds
    in its first turn without sleeping, and the marker it writes is the
    clock reading in decimal; release then removes the marker, whatever it
    holds (release does not look at its content), and releasing a lock that
    is already gone is harmless. *)
Theorem lock_acquire_release_round_trip (E : Env) (w : World) (timeout : Z) :
  (forall op, fs_fault E op = false) ->
  lockFile w = None ->
  0 < timeout ->
  let r := acquireLock E timeout w in
  fst r = Ok (Some (lock_handle E))
  /\ now (snd r) = now w
  /\ lockFile (snd r) = Some (Z_to_string (now w))
  /\ events_of (acquireLock E timeout) w =
       [EvCall (CallAcquireLock timeout); EvFs (ReadFile LOCK_FILE) false;
        EvFs (Mkdir CONFIG_DIR) true; EvFs (OpenWx LOCK_FILE) true;
        EvFs (FdWrite LOCK_FILE) true; EvFs (FdClose LOCK_FILE) true]
  /\ lockFile (snd (release (lock_handle E) (snd r))) = None
  /\ (forall w', fst (release (lock_handle E) w') = Ok tt
                 /\ lockFile (snd (release (lock_handle E) w')) = None
                 /\ cacheFile (snd (release (lock_handle E) w')) = cacheFile w'
                 /\ now (snd (release (lock_handle E) w')) = now w').
Proof.
  intros Hok Hfree Hpos. cbv zeta.
  destruct (@acquireLock_free E Hok w timeout Hfree Hpos) as [H1 [H2 [H3 [_ [_ H4]]]]].
  apply events_of_spec in H4.
  assert (Hrel : forall w', fst (release (lock_handle E) w') = Ok tt
                 /\ lockFile (snd (release (lock_handle E) w')) = None
                 /\ cacheFile (snd (release (lock_handle E) w')) = cacheFile w'
                 /\ now (snd (release (lock_handle E) w')) = now w').
  { intros w'. rewrite (@release_removes E Hok w').
    destruct (lockFile w') eqn:Hl; simpl; repeat split; auto. }
  repeat split; try assumption; apply Hrel.
Qed.

Lemma lock_acquire_release_round_trip_witness :
  let E := Sample.env None "T" Sample.no_fault [] in
  let r := acquireLock E 5000 (Sample.world None None) in
  fst r = Ok (Some (lock_handle E))
  /\ lockFile (snd r) = Some "1700000000000"
  /\ lockFile (snd (release (lock_handle E) (snd r))) = None.
Proof.
  cbv zeta.
  destruct (@lock_acquire_release_round_trip
              (Sample.env None "T" Sample.no_fault [])
              (Sample.world None None) 5000
              (fun _ => eq_refl) eq_refl eq_refl)
    as [H1 [_ [H3 [_ [H5 _]]]]].
  split; [ exact H1 | split; [ exact H3 | exact H5 ] ].
Defined.

(** X3.  The marker acquireLock writes is one parseInt reads back: for
    every clock reading t, parseInt(t.toString()) is t.  So, with a
    working file system, a waiter that finds a marker written at time t0
    leaves it in place and sleeps 500 ms as long as at most 60 s have
    passed since t0, and from then on treats it as stale: it takes the
    lock over although the marker was never released. *)
Theorem own_marker_read_back (E : Env) (w : World) (t0 : Z) :
  lockFile w = Some (Z_to_string t0) ->
  (forall op, fs_fault E op = false) ->
  parseInt (Z_to_string t0) = Num t0
  /\ (now w - t0 <= LOCK_TIMEOUT ->
      acquireLock_attempt E w = (Ok Continue, held_turn w))
  /\ (LOCK_TIMEOUT < now w - t0 ->
      fst (acquireLock_attempt E w) = Ok (Return (lock_handle E))
      /\ lockFile (snd (acquireLock_attempt E w)) = Some (Z_to_string (now w))).
Proof.
  intros Hlock Hok.
  pose proof (parseInt_Z_to_string t0) as Hparse.
  split; [ exact Hparse | split ].
  - intros Hfresh.
    apply (@attempt_on_held_lock E w _ Hlock (Hok _)).
    rewrite Hparse. unfold js_sub, js_gt. apply Z.ltb_ge. lia.
  - intros Hstale.
    assert (Hgt : js_gt (js_sub (Num (now w)) (parseInt (Z_to_string t0)))
                        (Num LOCK_TIMEOUT) = true).
    { rewrite Hparse. unfold js_sub, js_gt. apply Z.ltb_lt. lia. }
    destruct (@attempt_on_stale_lock E w _ Hlock Hgt Hok) as [H1 [_ [H3 _]]].
    split; assumption.
Qed.

Lemma own_marker_read_back_witness :
  let E := Sample.env None "T" Sample.no_fault [] in
  let held := snd (acquireLock E 5000 (Sample.world None None)) in
  parseInt (Z_to_string Sample.t0) = Num Sample.t0
  /\ acquireLock_attempt E (advance held 60000) =
       (Ok Continue, held_turn (advance held 60000))
  /\ fst (acquireLock_attempt E (advance held 60001)) = Ok (Return (lock_handle E)).
Proof.
  cbv zeta.
  set (E := Sample.env None "T" Sample.no_fault []).
  set (held := snd (acquireLock E 5000 (Sample.world None None))).
  destruct (@own_marker_read_back E (advance held 60000) Sample.t0
              eq_refl (fun _ => eq_refl)) as [Hp [Hfresh _]].
  destruct (@own_marker_read_back E (advance held 60001) Sample.t0
              eq_refl (fun _ => eq_refl)) as [_ [_ Hstale]].
  split; [ exact Hp | split ].
  - apply Hfresh. vm_compute. discriminate.
  - apply Hstale. vm_compute. reflexivity.
Defined.

(** ** More on the credential extractor *)

Lemma or_undefined_cases (o : option string) :
  or_undefined o = None \/ opt_truthy (or_undefined o) = true.
Proof.
  unfold or_undefined. destruct (opt_truthy o) eqn:H; [ right; exact H | left; reflexivity ].
Qed.

Lemma attempts_app (l1 l2 : list Event) :
  attempts (l1 ++ l2) = attempts l1 ++ attempts l2.
Proof.
  induction l1 as [|e l1 IH]; [ reflexivity | ].
  destruct e as [[]| | | | | | | |]; simpl; rewrite IH; reflexivity.
Qed.

Lemma attempts_lock (l : list Event) : Forall lock_event l -> attempts l = [].
Proof.
  induction 1 as [|e l He _ IH]; [ reflexivity | ].
  destruct e as [[]| | | | | | | |]; simpl in *; try contradiction; exact IH.
Qed.

Lemma attempts_session (l : list Event) : Forall session_event l -> attempts l = [].
Proof.
  induction 1 as [|e l He _ IH]; [ reflexivity | ].
  destruct e as [[]| | | | | | | |]; simpl in *; try contradiction; exact IH.
Qed.

Section ExtractRun.
Variable E : Env.

Ltac run_extract :=
  cbv beta delta [extract_with_lock bind try_catch ret throw mkdir
                  launchPersistentContext console_log emit capture_tokens
                  context_close context_is_open release lock_handle unlink file];
  repeat (simpl;
          match goal with
          | |- context [fs_fault E ?op] => destruct (fs_fault E op) eqn:?
          | |- context [match browser_launch E ?t ?h with _ => _ end] =>
              destruct (browser_launch E t h) eqn:?
          | |- context [match browser_session E ?t ?h ?x with _ => _ end] =>
              destruct (browser_session E t h x) eqn:?
          | |- context [match lockFile ?w with _ => _ end] =>
              destruct (lockFile w) eqn:?
          | |- context [if contextOpen ?w then _ else _] =>
              destruct (contextOpen w) eqn:?
          | |- context [fold_left on_request ?seen ?init] =>
              destruct (fold_left on_request seen init) as [? ?] eqn:?
          | |- context [if opt_truthy ?o then _ else _] =>
              destruct (opt_truthy o) eqn:?
          end);
  simpl.

(** Whatever the browser does, the extraction proper returns a well-formed
    result, closes the context it opened and releases the lock. *)
Lemma extract_with_lock_run (headless : bool) (timeout : Z) (w : World) :
  let r := extract_with_lock E headless timeout (lock_handle E) w in
  (exists res, fst r = Ok res /\ well_formed_result res)
  /\ cacheFile (snd r) = cacheFile w
  /\ (contextOpen w = false -> contextOpen (snd r) = false)
  /\ (fs_fault E (Unlink LOCK_FILE) = false -> lockFile (snd r) = None)
  /\ exists evs, trace (snd r) = trace w ++ evs /\ Forall session_event evs.
Proof.
  cbv zeta. destruct headless.
  all: run_extract.
  all: repeat match goal with
              | |- _ /\ _ => split
              end.
  all: try congruence; try (intros; congruence).
  all: try (eexists; split; [ reflexivity | ]; unfold well_formed_result; simpl).
  all: try (repeat split; solve [ eauto | apply or_undefined_cases ]).
  all: try (rewrite <- ?app_assoc; eexists; split; [ reflexivity | ];
            repeat constructor).
Qed.

End ExtractRun.

Section ExtractShape.
Variable E : Env.

Lemma tryExtractToken_steps (headless : bool) (timeout : Z) (w : World) :
  exists res levs sevs w',
    steps (tryExtractToken E headless timeout) w res
          (EvCall (CallTryExtractToken headless timeout)
             :: EvCall (CallAcquireLock (if headless then 5000 else 30000))
             :: levs ++ sevs) w'
    /\ Forall lock_event levs
    /\ Forall session_event sevs
    /\ well_formed_result res
    /\ cacheFile w' = cacheFile w
    /\ (contextOpen w = false -> contextOpen w' = false)
    /\ (fst (acquireLock E (if headless then 5000 else 30000)
               (log_event w (EvCall (CallTryExtractToken headless timeout))))
          = Ok None
        \/ (fs_fault E (Unlink LOCK_FILE) = false -> lockFile w' = None)).
Proof.
  set (w1 := log_event w (EvCall (CallTryExtractToken headless timeout))).
  destruct (acquireLock_steps E (if headless then 5000 else 30000) w1)
    as [o [levs [w2 [[Hrun Htrace] Hlock]]]].
  pose proof (@acquireLock_handle E (if headless then 5000 else 30000) w1 o) as Hh.
  rewrite Hrun in Hh. specialize (Hh eq_refl).
  destruct (acquireLock_clock E (if headless then 5000 else 30000) w1)
    as [Hc [Hx _]].
  rewrite Hrun in Hc, Hx. simpl in Hc, Hx.
  destruct Hh as [-> | ->].
  - exists (pw_failure "Another browser session is in progress, please wait"),
      levs, [], w2.
    split; [ split | ].
    + unfold tryExtractToken, bind, emit. fold w1. rewrite Hrun. reflexivity.
    + rewrite Htrace. subst w1. simpl. rewrite <- !app_assoc, app_nil_r. reflexivity.
    + repeat split; auto.
      * unfold well_formed_result. simpl. eauto.
      * intros Hclosed. rewrite Hx. exact Hclosed.
      * left. rewrite Hrun. reflexivity.
  - destruct (extract_with_lock_run E headless timeout w2)
      as [[res [Hres Hwf]] [Hcache [Hctx [Hrel [sevs [Ht2 Hsess]]]]]].
    exists res, levs, sevs,
      (snd (extract_with_lock E headless timeout (lock_handle E) w2)).
    split; [ split | ].
    + unfold tryExtractToken, bind, emit. fold w1. rewrite Hrun.
      destruct (extract_with_lock E headless timeout (lock_handle E) w2) as [r w3].
      simpl in Hres. subst r. reflexivity.
    + rewrite Ht2, Htrace. subst w1. simpl. rewrite <- !app_assoc. reflexivity.
    + repeat split; auto.
      * rewrite Hcache. exact Hc.
      * intros Hclosed. apply Hctx. rewrite Hx. exact Hclosed.
Qed.

End ExtractShape.

Lemma tryExtractToken_attempts (headless : bool) (timeout : Z)
  (levs sevs : list Event) :
  Forall lock_event levs ->
  Forall session_event sevs ->
  attempts (EvCall (CallTryExtractToken headless timeout)
              :: EvCall (CallAcquireLock (if headless then 5000 else 30000))
              :: levs ++ sevs) = [(headless, timeout)].
Proof.
  intros Hl Hs. simpl. rewrite attempts_app, (attempts_lock Hl), (attempts_session Hs).
  reflexivity.
Qed.

Section ExtractAttempts.
Variable E : Env.

(** extractTokenViaPlaywright: its result, the attempts it makes and what
    it leaves behind. *)
Lemma extractTokenViaPlaywright_run (options : ExtractOptions) (w : World) :
  let headless := default true (eo_headless options) in
  let timeout := default 15000 (eo_timeout options) in
  let first := tryExtractToken E headless timeout
                 (log_event w (EvCall (CallExtractTokenViaPlaywright headless timeout))) in
  exists res evs w',
    steps (extractTokenViaPlaywright E options) w res
          (EvCall (CallExtractTokenViaPlaywright headless timeout) :: evs) w'
    /\ well_formed_result res
    /\ (contextOpen w = false -> contextOpen w' = false)
    /\ attempts evs =
         (headless, timeout)
           :: match fst first with
              | Ok r1 => if negb (pw_success r1) && headless then [(false, 60000)] else []
              | _ => []
              end.
Proof.
  cbv zeta.
  set (headless := default true (eo_headless options)).
  set (timeout := default 15000 (eo_timeout options)).
  set (w0 := log_event w (EvCall (CallExtractTokenViaPlaywright headless timeout))).
  destruct (tryExtractToken_steps E headless timeout w0)
    as [r1 [l1 [s1 [w1 [[Hrun1 Ht1] [Hl1 [Hs1 [Hwf1 [_ [Hctx1 _]]]]]]]]]].
  rewrite Hrun1. simpl fst.
  set (e1 := EvCall (CallTryExtractToken headless timeout)
               :: EvCall (CallAcquireLock (if headless then 5000 else 30000))
               :: l1 ++ s1) in *.
  assert (Ha1 : attempts e1 = [(headless, timeout)])
    by (apply tryExtractToken_attempts; assumption).
  assert (Ht0 : trace w1 = trace w ++ EvCall (CallExtractTokenViaPlaywright headless timeout) :: e1).
  { rewrite Ht1. subst w0. simpl. rewrite <- app_assoc. reflexivity. }
  destruct (pw_success r1) eqn:Hok; [ | destruct headless eqn:Hh ].
  - exists r1, e1, w1. split; [ split | split; [ exact Hwf1 | split ] ].
    + unfold extractTokenViaPlaywright, bind, emit. fold headless timeout w0.
      rewrite Hrun1, Hok. reflexivity.
    + exact Ht0.
    + exact Hctx1.
    + rewrite Ha1, ?Hok. reflexivity.
  - set (w2 := log_event w1 (EvLog "Session not found. Opening browser for login...")).
    destruct (tryExtractToken_steps E false 60000 w2)
      as [r2 [l2 [s2 [w3 [[Hrun2 Ht2] [Hl2 [Hs2 [Hwf2 [_ [Hctx2 _]]]]]]]]]].
    set (e2 := EvCall (CallTryExtractToken false 60000)
                 :: EvCall (CallAcquireLock (if false then 5000 else 30000))
                 :: l2 ++ s2) in *.
    assert (Ha2 : attempts e2 = [(false, 60000)])
      by (apply tryExtractToken_attempts; assumption).
    exists r2,
      (e1 ++ EvLog "Session not found. Opening browser for login..." :: e2), w3.
    split; [ split | split; [ exact Hwf2 | split ] ].
    + unfold extractTokenViaPlaywright, bind, emit, console_log, emit.
      fold headless timeout. rewrite Hh. fold w0. rewrite Hrun1, Hok.
      fold w2. exact Hrun2.
    + rewrite Ht2. subst w2. simpl trace. rewrite Ht0.
      rewrite <- !app_assoc. reflexivity.
    + intros Hclosed. apply Hctx2, Hctx1, Hclosed.
    + rewrite attempts_app, Ha1.
      change (attempts (EvLog "Session not found. Opening browser for login..." :: e2))
        with (attempts e2).
      rewrite Ha2, ?Hok. reflexivity.
  - exists r1, e1, w1. split; [ split | split; [ exact Hwf1 | split ] ].
    + unfold extractTokenViaPlaywright, bind, emit. fold headless timeout.
      rewrite Hh. fold w0. rewrite Hrun1, Hok. reflexivity.
    + exact Ht0.
    + exact Hctx1.
    + rewrite Ha1, ?Hok. reflexivity.
Qed.

End ExtractAttempts.

(** X4.  tryExtractToken cleans up on every path: whatever the file
    system and the browser do (the profile directory cannot be created,
    the launch fails, the navigation throws, no token shows up), it
    returns a result instead of throwing, leaves no browser context open,
    does not touch the token cache and, when it had taken the lock and
    the marker can be unlinked, leaves no marker behind.  (Closing the
    browser context is taken not to fail.) *)
Theorem extraction_cleans_up (E : Env) (headless : bool) (timeout : Z) (w : World) :
  contextOpen w = false ->
  let run := tryExtractToken E headless timeout w in
  let locking := acquireLock E (if headless then 5000 else 30000)
                   (log_event w (EvCall (CallTryExtractToken headless timeout))) in
  (exists res, fst run = Ok res)
  /\ contextOpen (snd run) = false
  /\ cacheFile (snd run) = cacheFile w
  /\ (fst locking <> Ok None ->
      fs_fault E (Unlink LOCK_FILE) = false ->
      lockFile (snd run) = None).
Proof.
  intros Hclosed. cbv zeta.
  destruct (tryExtractToken_steps E headless timeout w)
    as [res [levs [sevs [w' [[Hrun _] [_ [_ [_ [Hcache [Hctx Hlock]]]]]]]]]].
  rewrite Hrun. simpl.
  split; [ exists res; reflexivity | ].
  split; [ apply Hctx, Hclosed | ].
  split; [ exact Hcache | ].
  intros Htaken Hunlink. destruct Hlock as [Hnone | Hrel]; [ contradiction | ].
  apply Hrel, Hunlink.
Qed.

Lemma extraction_cleans_up_witness :
  (* the launch of the browser fails *)
  let E := {| env_CLIPPY_TOKEN := None;
              fetch_inbox := Sample.accepts "T";
              fs_fault := Sample.no_fault;
              browser_launch := fun _ _ => Some (BrowserError "no chrome");
              browser_session := fun _ _ _ => Completes [] 0;
              page_goto_fails := fun _ => None;
              page_reload_fails := fun _ => None;
              page_traffic := fun _ => [] |} in
  let run := tryExtractToken E true 15000 (Sample.world None None) in
  fst run = Ok (pw_failure "no chrome")
  /\ contextOpen (snd run) = false
  /\ lockFile (snd run) = None.
Proof.
  cbv zeta.
  match goal with
  | |- context [tryExtractToken ?E _ _ _] =>
      destruct (@extraction_cleans_up E true 15000 (Sample.world None None) eq_refl)
        as [_ [Hctx [_ Hlock]]]
  end.
  split; [ vm_compute; reflexivity | ].
  split; [ exact Hctx | ].
  apply Hlock; [ vm_compute; discriminate | reflexivity ].
Defined.

(** X5.  Every result of the extractor has one of two shapes: a success
    that carries a non-empty token (and a graph token that is absent or
    non-empty) and no error, or a failure that carries an error message
    and no token.  This holds for tryExtractToken and for
    extractTokenViaPlaywright, neither of which throws (closing the
    browser context is taken not to fail). *)
Theorem extraction_result_well_formed (E : Env) :
  (forall headless timeout w,
      exists res, fst (tryExtractToken E headless timeout w) = Ok res
                  /\ well_formed_result res)
  /\ (forall options w,
         exists res, fst (extractTokenViaPlaywright E options w) = Ok res
                     /\ well_formed_result res).
Proof.
  split.
  - intros headless timeout w.
    destruct (tryExtractToken_steps E headless timeout w)
      as [res [levs [sevs [w' [[Hrun _] [_ [_ [Hwf _]]]]]]]].
    exists res. rewrite Hrun. split; [ reflexivity | exact Hwf ].
  - intros options w.
    destruct (extractTokenViaPlaywright_run E options w)
      as [res [evs [w' [[Hrun _] [Hwf _]]]]].
    exists res. rewrite Hrun. split; [ reflexivity | exact Hwf ].
Qed.

(** X6.  extractTokenViaPlaywright makes one attempt or two, never more:
    the first with the caller's flag and timeout (headless, 15 s by
    default), and a second one, attended and with a 60 s timeout, exactly
    when the first was headless and failed.  An attended attempt that
    fails is not repeated. *)
Theorem extraction_attempts (E : Env) (options : ExtractOptions) (w : World) :
  let headless := default true (eo_headless options) in
  let timeout := default 15000 (eo_timeout options) in
  let first := tryExtractToken E headless timeout
                 (log_event w (EvCall (CallExtractTokenViaPlaywright headless timeout))) in
  attempts (events_of (extractTokenViaPlaywright E options) w) =
    (headless, timeout)
      :: match fst first with
         | Ok r1 => if negb (pw_success r1) && headless then [(false, 60000)] else []
         | _ => []
         end.
Proof.
  cbv zeta.
  destruct (extractTokenViaPlaywright_run E options w)
    as [res [evs [w' [Hsteps [_ [_ Hatt]]]]]].
  destruct (steps_result Hsteps) as [_ [_ Hev]].
  rewrite Hev. exact Hatt.
Qed.

(** ** The request listeners *)

Lemma on_request_spec (st : option string * option string) (r : Request) :
  on_request st r =
    (match bearer_for "outlook.office.com" r with
     | Some t => if opt_truthy (fst st) then fst st else Some t
     | None => fst st
     end,
     match bearer_for "graph.microsoft.com" r with
     | Some t => if opt_truthy (snd st) then snd st else Some t
     | None => snd st
     end).
Proof.
  destruct st as [a b]. unfold on_request, bearer_for. simpl fst. simpl snd.
  destruct (req_auth r) as [h|]; [ | reflexivity ].
  destruct (str_truthy h && startsWith h "Bearer "); simpl; [ | reflexivity ].
  destruct (includes (req_url r) "outlook.office.com"),
           (includes (req_url r) "graph.microsoft.com"),
           (opt_truthy a), (opt_truthy b); reflexivity.
Qed.

Lemma keepalive_on_request_spec (st : option string * option string) (r : Request) :
  keepalive_on_request st r =
    (match bearer_for "outlook.office.com" r with
     | Some t => Some t
     | None => fst st
     end,
     match bearer_for "graph.microsoft.com" r with
     | Some t => Some t
     | None => snd st
     end).
Proof.
  destruct st as [a b]. unfold keepalive_on_request, bearer_for. simpl fst. simpl snd.
  destruct (req_auth r) as [h|]; [ | reflexivity ].
  destruct (str_truthy h && startsWith h "Bearer "); simpl; [ | reflexivity ].
  destruct (includes (req_url r) "outlook.office.com"),
           (includes (req_url r) "graph.microsoft.com"); reflexivity.
Qed.

(** Once the extractor's listener holds a non-empty Outlook token, no
    later request changes it. *)
Lemma on_request_keeps (seen : list Request) :
  forall st, opt_truthy (fst st) = true ->
             fst (fold_left on_request seen st) = fst st.
Proof.
  induction seen as [|r seen IH]; intros st Hst; [ reflexivity | ].
  simpl. rewrite IH; rewrite on_request_spec; simpl fst; rewrite Hst;
    destruct (bearer_for "outlook.office.com" r); auto.
Qed.

(** Requests without a non-empty Outlook token leave the listener
    without one. *)
Lemma on_request_skips (seen : list Request) :
  forall st,
    (forall q, In q seen -> opt_truthy (bearer_for "outlook.office.com" q) = false) ->
    opt_truthy (fst st) = false ->
    opt_truthy (fst (fold_left on_request seen st)) = false.
Proof.
  induction seen as [|r seen IH]; intros st Hseen Hst; [ exact Hst | ].
  simpl. apply IH.
  - intros q Hq. apply Hseen. right. exact Hq.
  - rewrite on_request_spec. simpl fst. rewrite Hst.
    pose proof (Hseen r (or_introl eq_refl)) as Hr.
    destruct (bearer_for "outlook.office.com" r); [ exact Hr | exact Hst ].
Qed.

Lemma on_request_first (pre post : list Request) (r : Request) (tok : string) :
  (forall q, In q pre -> opt_truthy (bearer_for "outlook.office.com" q) = false) ->
  bearer_for "outlook.office.com" r = Some tok ->
  str_truthy tok = true ->
  fst (fold_left on_request (pre ++ r :: post) (None, None)) = Some tok.
Proof.
  intros Hpre Hr Htok. rewrite fold_left_app. simpl.
  pose proof (@on_request_skips pre (None, None) Hpre eq_refl) as Hskip.
  rewrite on_request_keeps; rewrite on_request_spec; simpl fst;
    rewrite Hr, Hskip; [ reflexivity | exact Htok ].
Qed.

Lemma keepalive_on_request_skips (seen : list Request) :
  forall st,
    (forall q, In q seen -> bearer_for "outlook.office.com" q = None) ->
    fst (fold_left keepalive_on_request seen st) = fst st.
Proof.
  induction seen as [|r seen IH]; intros st Hseen; [ reflexivity | ].
  simpl. rewrite IH.
  - rewrite keepalive_on_request_spec. simpl fst.
    rewrite (Hseen r (or_introl eq_refl)). reflexivity.
  - intros q Hq. apply Hseen. right. exact Hq.
Qed.

Lemma keepalive_on_request_last (pre post : list Request) (r : Request) (tok : string) :
  bearer_for "outlook.office.com" r = Some tok ->
  (forall q, In q post -> bearer_for "outlook.office.com" q = None) ->
  fst (fold_left keepalive_on_request (pre ++ r :: post) (None, None)) = Some tok.
Proof.
  intros Hr Hpost. rewrite fold_left_app. simpl.
  rewrite (keepalive_on_request_skips _ _ Hpost).
  rewrite keepalive_on_request_spec. simpl fst. rewrite Hr. reflexivity.
Qed.

Section HappyPath.
Variable E : Env.
Hypothesis fs_ok : forall op, fs_fault E op = false.

(** The extraction with a free lock, a working file system and a browser
    that starts and runs the page to the end of the capture waits. *)
Lemma tryExtractToken_completes (headless : bool) (timeout : Z) (w : World)
  (seen : list Request) (elapsed : Z) :
  lockFile w = None ->
  browser_launch E (now w) headless = None ->
  browser_session E (now w) headless timeout = Completes seen elapsed ->
  let captured := fold_left on_request seen (None, None) in
  let run := tryExtractToken E headless timeout w in
  fst run =
    Ok (if opt_truthy (fst captured)
        then {| pw_success := true; pw_token := fst captured;
                pw_graphToken := or_undefined (snd captured);
                pw_error := None |}
        else pw_failure
               (if headless then "No active session found"
                else "Timeout: No Bearer token captured. Make sure you completed the login."))
  /\ now (snd run) = now w + elapsed
  /\ lockFile (snd run) = None
  /\ contextOpen (snd run) = false
  /\ launches (events_of (tryExtractToken E headless timeout) w) = [headless].
Proof.
  intros Hfree Hlaunch Hsession. cbv zeta.
  set (w1 := log_event w (EvCall (CallTryExtractToken headless timeout))).
  assert (Hpos : 0 < (if headless then 5000 else 30000)) by (destruct headless; lia).
  destruct (@acquireLock_free E fs_ok w1 (if headless then 5000 else 30000) Hfree Hpos)
    as [Hacq [Hnow [Hmarker [_ [Hctx Ht2]]]]].
  unfold events_of. unfold tryExtractToken, bind, emit. fold w1.
  destruct (acquireLock E (if headless then 5000 else 30000) w1) as [o w2].
  simpl in Hacq, Hnow, Hmarker, Hctx, Ht2. subst o.
  change (now w1) with (now w) in Hnow.
  cbv beta delta [extract_with_lock bind try_catch ret throw mkdir
                  launchPersistentContext console_log emit capture_tokens
                  context_close context_is_open release lock_handle unlink file].
  rewrite !fs_ok.
  destruct headless; simpl; rewrite ?Hnow, Hlaunch; simpl; rewrite ?Hnow, Hsession;
    simpl; rewrite Hmarker; simpl;
    destruct (fold_left on_request seen (None, None)) as [tok graph];
    simpl; destruct (opt_truthy tok); simpl;
    rewrite Ht2; rewrite <- !app_assoc; rewrite skipn_exact; simpl;
    repeat split; lia.
Qed.

End HappyPath.

(** X7.  With a free lock, a working file system and a browser that runs
    the page to the end of the capture waits, tryExtractToken returns the
    first non-empty Bearer token the page sent to outlook.office.com,
    whatever tokens later requests carry; when no request carries one it
    fails with the message of its mode.  Either way the browser was
    launched once, the clock moved by the time the page took, the context
    is closed and the lock released. *)
Theorem first_captured_token_wins (E : Env) (headless : bool) (timeout : Z)
  (w : World) (seen : list Request) (elapsed : Z) :
  (forall op, fs_fault E op = false) ->
  lockFile w = None ->
  browser_launch E (now w) headless = None ->
  browser_session E (now w) headless timeout = Completes seen elapsed ->
  let run := tryExtractToken E headless timeout w in
  (forall pre r post tok,
      seen = pre ++ r :: post ->
      (forall q, In q pre -> opt_truthy (bearer_for "outlook.office.com" q) = false) ->
      bearer_for "outlook.office.com" r = Some tok ->
      str_truthy tok = true ->
      fst run =
        Ok {| pw_success := true; pw_token := Some tok;
              pw_graphToken :=
                or_undefined (snd (fold_left on_request seen (None, None)));
              pw_error := None |})
  /\ ((forall q, In q seen -> opt_truthy (bearer_for "outlook.office.com" q) = false) ->
      fst run =
        Ok (pw_failure
              (if headless then "No active session found"
               else "Timeout: No Bearer token captured. Make sure you completed the login.")))
  /\ now (snd run) = now w + elapsed
  /\ lockFile (snd run) = None
  /\ contextOpen (snd run) = false
  /\ launches (events_of (tryExtractToken E headless timeout) w) = [headless].
Proof.
  intros Hok Hfree Hlaunch Hsession. cbv zeta.
  destruct (@tryExtractToken_completes E Hok headless timeout w seen elapsed
              Hfree Hlaunch Hsession) as [Hres [Hnow [Hlock [Hctx Hl]]]].
  split; [ | split; [ | repeat split; assumption ] ].
  - intros pre r post tok Hseen Hpre Hr Htok.
    pose proof (on_request_first pre post r Hpre Hr Htok) as Hfirst.
    rewrite <- Hseen in Hfirst.
    rewrite Hres, Hfirst. simpl. rewrite Htok. reflexivity.
  - intros Hnone.
    pose proof (@on_request_skips seen (None, None) Hnone eq_refl) as Hskip.
    rewrite Hres, Hskip. reflexivity.
Qed.

Lemma first_captured_token_wins_witness :
  let seen := [ {| req_url := "https://outlook.office.com/favicon.ico";
                   req_auth := None |};
                Sample.outlook_request "FIRST";
                Sample.outlook_request "SECOND" ] in
  let E := Sample.env None "T" Sample.no_fault seen in
  let run := tryExtractToken E true 15000 (Sample.world None None) in
  fst run = Ok {| pw_success := true; pw_token := Some "FIRST";
                  pw_graphToken := None; pw_error := None |}
  /\ now (snd run) = Sample.t0 + 2000
  /\ lockFile (snd run) = None.
Proof.
  cbv zeta.
  match goal with
  | |- context [tryExtractToken ?E _ _ _] =>
      destruct (@first_captured_token_wins E true 15000 (Sample.world None None)
                  [ {| req_url := "https://outlook.office.com/favicon.ico";
                       req_auth := None |};
                    Sample.outlook_request "FIRST";
                    Sample.outlook_request "SECOND" ] 2000
                  (fun _ => eq_refl) eq_refl eq_refl eq_refl)
        as [Hfirst [_ [Hnow [Hlock _]]]]
  end.
  split; [ | split; [ exact Hnow | exact Hlock ] ].
  apply (Hfirst [ {| req_url := "https://outlook.office.com/favicon.ico";
                     req_auth := None |} ]
                (Sample.outlook_request "FIRST")
                [ Sample.outlook_request "SECOND" ] "FIRST" eq_refl).
  - intros q [<- | []]. reflexivity.
  - reflexivity.
  - reflexivity.
Defined.

(** ** A lock directory that cannot be created *)

Lemma launches_app (l1 l2 : list Event) :
  launches (l1 ++ l2) = launches l1 ++ launches l2.
Proof.
  induction l1 as [|e l1 IH]; [ reflexivity | ].
  destruct e; simpl; rewrite IH; reflexivity.
Qed.

Lemma launches_lock (l : list Event) : Forall lock_event l -> launches l = [].
Proof.
  induction 1 as [|e l He _ IH]; [ reflexivity | ].
  destruct e; simpl in *; try contradiction; exact IH.
Qed.

Section LockDirectory.
Variable E : Env.
Hypothesis mkdir_fails : fs_fault E (Mkdir CONFIG_DIR) = true.

Lemma attempt_without_directory (w : World) :
  lockFile w = None ->
  acquireLock_attempt E w = (Ok Continue, failed_turn w).
Proof.
  intros Hfree. unfold failed_turn.
  cbv beta delta [acquireLock_attempt check_existing_lock bind try_catch ret
                  throw readFile mkdir sleep emit file is_EEXIST].
  simpl. rewrite Hfree, mkdir_fails.
  destruct (fs_fault E (ReadFile LOCK_FILE)); reflexivity.
Qed.

Lemma loop_without_directory (startTime timeout : Z) (fuel : nat) :
  forall w,
    lockFile w = None ->
    timeout - (now w - startTime) <= 100 * Z.of_nat fuel ->
    now w - startTime < timeout + 100 ->
    let r := acquireLock_loop E fuel startTime timeout w in
    fst r = Ok None
    /\ lockFile (snd r) = None
    /\ timeout <= now (snd r) - startTime < timeout + 100
    /\ extends_with retry_event w (snd r).
Proof.
  induction fuel as [|fuel IH]; intros w Hfree Hfuel Hinv;
    simpl acquireLock_loop; unfold bind at 1, Date_now;
    destruct (now w - startTime <? timeout) eqn:Hc;
    try (apply Z.ltb_ge in Hc; simpl; repeat split;
         [ exact Hfree | lia | lia | apply extends_with_refl ]).
  - apply Z.ltb_lt in Hc. lia.
  - apply Z.ltb_lt in Hc. unfold bind.
    rewrite (attempt_without_directory w Hfree).
    assert (Hfree1 : lockFile (failed_turn w) = None) by exact Hfree.
    assert (Hnow1 : now (failed_turn w) = now w + 100) by reflexivity.
    destruct (IH (failed_turn w) Hfree1 ltac:(lia) ltac:(lia))
      as [Hres [Hl [Hd Hext]]].
    repeat split; try assumption; try lia.
    eapply extends_with_trans; [ | exact Hext ].
    exists [EvFs (ReadFile LOCK_FILE) false; EvFs (Mkdir CONFIG_DIR) false;
            EvSleep 100]. split.
    + unfold failed_turn. simpl. rewrite <- !app_assoc. reflexivity.
    + constructor; [ left; reflexivity | ].
      constructor; [ right; left; reflexivity | ].
      constructor; [ right; right; reflexivity | constructor ].
Qed.

Lemma acquireLock_without_directory (timeout : Z) (w : World) :
  lockFile w = None ->
  let r := acquireLock E timeout w in
  fst r = Ok None
  /\ lockFile (snd r) = None
  /\ Z.max timeout 0 <= now (snd r) - now w < Z.max timeout 0 + 100
  /\ exists evs, trace (snd r) = trace w ++ EvCall (CallAcquireLock timeout) :: evs
                 /\ Forall retry_event evs.
Proof.
  intros Hfree. cbv zeta. unfold acquireLock, bind, emit, Date_now.
  set (w0 := log_event w (EvCall (CallAcquireLock timeout))).
  pose proof (acquireLock_fuel_enough timeout) as Hfuel.
  destruct (Z_le_gt_dec timeout 0) as [Hle | Hgt].
  - assert (Hcond : forall t, (t - t <? timeout) = false)
      by (intros t; apply Z.ltb_ge; lia).
    destruct (acquireLock_fuel timeout); simpl; unfold bind, Date_now; simpl;
      rewrite Hcond; simpl;
      (split; [ reflexivity | split; [ exact Hfree | split; [ lia | ] ] ]);
      (exists []; split; [ reflexivity | constructor ]).
  - destruct (@loop_without_directory (now w0) timeout (acquireLock_fuel timeout) w0)
      as [Hres [Hl [Hd [evs [Ht Hall]]]]];
      [ exact Hfree
      | change (now w0) with (now w); lia
      | change (now w0) with (now w); lia
      | ].
    split; [ exact Hres | split; [ exact Hl | split ] ].
    + match type of Hd with
      | context [now (snd ?x)] => set (t' := now (snd x)) in *; clearbody t'
      end.
      change (now w0) with (now w) in Hd. lia.
    + exists evs. split; [ | exact Hall ].
      rewrite Ht. subst w0. simpl. rewrite <- app_assoc. reflexivity.
Qed.

End LockDirectory.

Lemma launches_retry (l : list Event) : Forall retry_event l -> launches l = [].
Proof.
  induction 1 as [|e l He _ IH]; [ reflexivity | ].
  destruct He as [-> | [-> | ->]]; exact IH.
Qed.

(** X8.  When creating the directory of the lock fails with an error
    other than EEXIST, no marker is ever written: acquireLock retries
    every 100 ms until its deadline and gives up, and tryExtractToken
    reports this as lock contention (Another browser session is in
    progress, please wait) although no other session holds the lock.  No
    browser is launched. *)
Theorem directory_failure_reported_as_contention (E : Env) (headless : bool)
  (timeout : Z) (w : World) :
  lockFile w = None ->
  fs_fault E (Mkdir CONFIG_DIR) = true ->
  let run := tryExtractToken E headless timeout w in
  let wait := if headless then 5000 else 30000 in
  fst run = Ok (pw_failure "Another browser session is in progress, please wait")
  /\ lockFile (snd run) = None
  /\ wait <= now (snd run) - now w < wait + 100
  /\ launches (events_of (tryExtractToken E headless timeout) w) = [].
Proof.
  intros Hfree Hmkdir. cbv zeta.
  set (w1 := log_event w (EvCall (CallTryExtractToken headless timeout))).
  destruct (@acquireLock_without_directory E Hmkdir (if headless then 5000 else 30000)
              w1 Hfree) as [Hnone [Hl [Hd [evs [Ht Hall]]]]].
  rewrite (@tryExtractToken_contention E headless timeout w Hnone). fold w1.
  unfold events_of.
  rewrite (@tryExtractToken_contention E headless timeout w Hnone). fold w1.
  simpl fst. simpl snd.
  change (now w1) with (now w) in Hd.
  split; [ reflexivity | split; [ exact Hl | split ] ].
  - destruct headless; lia.
  - rewrite Ht. subst w1. simpl trace. rewrite <- app_assoc. rewrite skipn_exact.
    simpl. apply launches_retry, Hall.
Qed.

Lemma directory_failure_reported_as_contention_witness :
  let unwritable := fun op => match op with Mkdir CONFIG_DIR => true | _ => false end in
  let E := Sample.env None "T" unwritable [Sample.outlook_request "T"] in
  let run := tryExtractToken E true 15000 (Sample.world None None) in
  fst run = Ok (pw_failure "Another browser session is in progress, please wait")
  /\ now (snd run) = Sample.t0 + 5000.
Proof.
  cbv zeta.
  match goal with
  | |- context [tryExtractToken ?E _ _ _] =>
      destruct (@directory_failure_reported_as_contention E true 15000
                  (Sample.world None None) eq_refl eq_refl) as [Hres _]
  end.
  split; [ exact Hres | vm_compute; reflexivity ].
Defined.

(** ** More on the token cache *)

Section CacheRoundTrip.
Context {RT : JsRuntime}.

(** setCachedToken always records a number: the expiry read from the
    token, or 55 minutes from now. *)
Lemma recorded_expiry_number (token : string) (t : Z) :
  exists expiresAt,
    recorded_expiry token t = Num expiresAt
    /\ (getJwtExpiration token = None -> expiresAt = t + 55 * 60 * 1000).
Proof.
  unfold recorded_expiry.
  destruct (getJwtExpiration token) as [[|x]|].
  - exists (t + 55 * 60 * 1000). split; [ reflexivity | discriminate ].
  - destruct (num_truthy (Num x)).
    + exists x. split; [ reflexivity | discriminate ].
    + exists (t + 55 * 60 * 1000). split; [ reflexivity | discriminate ].
  - exists (t + 55 * 60 * 1000). split; reflexivity.
Qed.

Lemma cache_lookup_number (data : string) (v : JsValue) (expiresAt t : Z) :
  JSON_parse data = Some v ->
  get_prop v "expiresAt" = Val (JNumber (Num expiresAt)) ->
  cache_lookup (Some data) t =
    if expiresAt <=? t then None
    else Some {| cached := v;
                 needsRefresh := expiresAt - t <? REFRESH_THRESHOLD |}.
Proof.
  intros Hparse Hprop. unfold cache_lookup. rewrite Hparse, Hprop. reflexivity.
Qed.

End CacheRoundTrip.

(** X9.  What setCachedToken writes, getCachedToken reads back: provided
    the file system works and JSON.parse gives back the record
    JSON.stringify was given, a later getCachedToken returns the stored
    record as long as the clock is before the recorded expiry, flags it
    for refresh during the last five minutes, and returns none from the
    expiry on.  For a token without a readable expiry that is 55 minutes
    after the write. *)
Theorem cache_write_then_read (RT : JsRuntime) (E : Env) (token : string)
  (graphToken : option string) (w : World) (v : JsValue) :
  fs_fault E (Mkdir CONFIG_DIR) = false ->
  fs_fault E (WriteFile TOKEN_CACHE_FILE) = false ->
  fs_fault E (ReadFile TOKEN_CACHE_FILE) = false ->
  let c := {| ct_token := token; ct_graphToken := graphToken;
              ct_expiresAt := recorded_expiry token (now w) |} in
  JSON_parse (JSON_stringify (CachedToken_to_js c)) = Some v ->
  get_prop v "expiresAt" = Val (JNumber (ct_expiresAt c)) ->
  exists expiresAt,
    recorded_expiry token (now w) = Num expiresAt
    /\ (getJwtExpiration token = None -> expiresAt = now w + 55 * 60 * 1000)
    /\ forall w',
         cacheFile w' = cacheFile (snd (setCachedToken E token graphToken w)) ->
         fst (getCachedToken E w') =
           Ok (if expiresAt <=? now w' then None
               else Some {| cached := v;
                            needsRefresh :=
                              expiresAt - now w' <? REFRESH_THRESHOLD |}).
Proof.
  intros Hmkdir Hwrite Hread c Hparse Hprop.
  destruct (recorded_expiry_number token (now w)) as [expiresAt [Hexp Hfallback]].
  exists expiresAt. split; [ exact Hexp | split; [ exact Hfallback | ] ].
  intros w' Hfile.
  destruct (setCachedToken_written E token graphToken w Hmkdir Hwrite) as [Hcache _].
  fold c in Hcache. rewrite Hcache in Hfile.
  destruct (getCachedToken_run E w') as [ok Hrun].
  rewrite Hrun, Hread, Hfile. simpl fst. f_equal.
  apply cache_lookup_number; [ exact Hparse | ].
  rewrite Hprop. subst c. simpl. rewrite Hexp. reflexivity.
Qed.

Lemma cache_write_then_read_witness :
  let E := Sample.env None "T" Sample.no_fault [] in
  let written := snd (@setCachedToken Reference.runtime E "opaque" None
                        (Sample.world None None)) in
  let stored := JObject [("token", JString "opaque");
                         ("expiresAt", JNumber (Num (Sample.t0 + 3300000)))] in
  fst (@getCachedToken Reference.runtime E (advance written 3000001)) =
    Ok (Some {| cached := stored; needsRefresh := true |})
  /\ fst (@getCachedToken Reference.runtime E (advance written 3300000)) = Ok None.
Proof.
  cbv zeta.
  set (E := Sample.env None "T" Sample.no_fault []).
  destruct (@cache_write_then_read Reference.runtime E "opaque" None
              (Sample.world None None)
              (JObject [("token", JString "opaque");
                        ("expiresAt", JNumber (Num (Sample.t0 + 3300000)))])
              eq_refl eq_refl eq_refl eq_refl eq_refl)
    as [expiresAt [Hexp [_ Hread]]].
  assert (HexpiresAt : expiresAt = Sample.t0 + 3300000).
  { vm_compute in Hexp. injection Hexp as <-. reflexivity. }
  subst expiresAt.
  split;
    match goal with
    | |- fst (getCachedToken _ ?w') = _ => rewrite (Hread w' eq_refl); reflexivity
    end.
Defined.

(** ** More on the auth resolver *)

Section ResolverShape.
Context {RT : JsRuntime}.
Variable E : Env.

Lemma well_formed_failure (msg : string) :
  str_truthy msg = true -> well_formed_auth (auth_failure msg).
Proof.
  intros Hmsg. unfold well_formed_auth. simpl. repeat split. eauto.
Qed.

Lemma well_formed_success (tok graph : JsValue) :
  well_formed_auth (auth_success tok graph).
Proof. reflexivity. Qed.

Lemma resolveAuth_extract_well_formed (interactive : bool) :
  returns well_formed_auth (resolveAuth_extract E interactive).
Proof.
  unfold resolveAuth_extract. destruct interactive.
  - apply returns_bind. intros pr.
    destruct (pw_success pr && opt_truthy (pw_token pr)).
    + apply returns_bind. intros [|].
      * apply returns_bind. intros _. apply returns_ret, well_formed_success.
      * apply returns_ret, well_formed_failure. reflexivity.
    + apply returns_ret, well_formed_failure.
      destruct (pw_error pr) as [msg|]; simpl; [ | reflexivity ].
      destruct (str_truthy msg) eqn:Hmsg; [ exact Hmsg | reflexivity ].
  - apply returns_ret, well_formed_failure. reflexivity.
Qed.

Lemma resolveAuth_well_formed (options : ResolveOptions) :
  returns well_formed_auth (resolveAuth E options).
Proof.
  unfold resolveAuth. cbv zeta.
  destruct (opt_truthy (ro_token options)).
  { apply returns_bind. intros [|];
      [ apply returns_ret, well_formed_success
      | apply returns_ret, well_formed_failure; reflexivity ]. }
  unfold resolveAuth_env. apply returns_bind. intros envToken.
  destruct (opt_truthy envToken).
  { apply returns_bind. intros [|];
      [ apply returns_ret, well_formed_success
      | apply returns_ret, well_formed_failure; reflexivity ]. }
  unfold resolveAuth_cache. apply returns_bind. intros [hit|].
  - apply returns_bind. intros tok. apply returns_bind. intros [|].
    + apply returns_bind. intros _. apply returns_bind. intros graph.
      apply returns_ret, well_formed_success.
    + apply resolveAuth_extract_well_formed.
  - apply resolveAuth_extract_well_formed.
Qed.

End ResolverShape.

(** X10.  resolveAuth never rejects: for every input and every behaviour
    of the file system, the browser and the network it returns a result,
    and the result is either a success without an error or a failure that
    carries a non-empty error message and no token.  (Closing the browser
    context is taken not to fail.) *)
Theorem resolveAuth_never_rejects (RT : JsRuntime) (E : Env)
  (options : ResolveOptions) (w : World) :
  exists r, fst (resolveAuth E options w) = Ok r /\ well_formed_auth r.
Proof.
  destruct (resolveAuth_path E options w) as [r [evs [w' [[Hrun _] _]]]].
  exists r. split; [ rewrite Hrun; reflexivity | ].
  apply (@resolveAuth_well_formed RT E options w). rewrite Hrun. reflexivity.
Qed.

Section ReadOnly.
Context {RT : JsRuntime}.
Variable E : Env.

Lemma readonly_cache_read (w : World) :
  exists found w1,
    getCachedToken E w = (Ok found, w1)
    /\ (found = None \/ exists hit, found = Some hit
                                    /\ cached hit <> JNull /\ cached hit <> JUndefined)
    /\ cacheFile w1 = cacheFile w /\ lockFile w1 = lockFile w /\ now w1 = now w
    /\ contextOpen w1 = contextOpen w /\ spawned w1 = spawned w
    /\ exists ok, trace w1 = trace w ++ cache_segment ok.
Proof.
  destruct (getCachedToken_run E w) as [ok Hrun].
  do 2 eexists. split; [ exact Hrun | ]. split.
  - destruct (fs_fault E (ReadFile TOKEN_CACHE_FILE)); [ left; reflexivity | ].
    destruct (cache_lookup (cacheFile w) (now w)) as [hit|] eqn:Hhit;
      [ right | left; reflexivity ].
    exists hit. split; [ reflexivity | ]. eapply cache_lookup_object; eauto.
  - repeat split. exists ok. simpl. rewrite <- app_assoc. reflexivity.
Qed.

Lemma resolveAuth_noninteractive (options : ResolveOptions) (w : World) :
  default false (ro_interactive options) = false ->
  let run := resolveAuth E options w in
  cacheFile (snd run) = cacheFile w
  /\ lockFile (snd run) = lockFile w
  /\ now (snd run) = now w
  /\ contextOpen (snd run) = contextOpen w
  /\ spawned (snd run) = spawned w
  /\ exists evs, trace (snd run) = trace w ++ evs /\ Forall readonly_event evs.
Proof.
  intros Hquiet. cbv zeta. unfold resolveAuth. cbv zeta. rewrite Hquiet.
  destruct (opt_truthy (ro_token options)).
  { unfold bind, validateSession.
    match goal with
    | |- context [if ?b then _ else _] => destruct b
    end; simpl; repeat split;
      (eexists; split; [ reflexivity | repeat constructor ]). }
  unfold resolveAuth_env, resolveAuth_cache, bind, read_env. cbv beta iota.
  destruct (opt_truthy (env_CLIPPY_TOKEN E)).
  { unfold validateSession.
    match goal with
    | |- context [if ?b then _ else _] => destruct b
    end; simpl; repeat split;
      (eexists; split; [ rewrite <- app_assoc; reflexivity | repeat constructor ]). }
  destruct (readonly_cache_read (log_event w EvEnvRead))
    as [found [w1 [Hrun [Hfound [Hc [Hl [Hn [Hx [Hs [ok Ht]]]]]]]]]].
  rewrite Hrun. cbv beta iota. simpl in Hc, Hl, Hn, Hx, Hs, Ht.
  assert (Hro : Forall readonly_event (EvEnvRead :: cache_segment ok))
    by (repeat constructor).
  destruct Hfound as [-> | [hit [-> [Hnull Hundef]]]].
  - simpl. repeat split; try assumption.
    eexists. split; [ | exact Hro ]. rewrite Ht, <- app_assoc. reflexivity.
  - destruct (get_prop_defined "token" Hnull Hundef) as [tok Htok].
    destruct (get_prop_defined "graphToken" Hnull Hundef) as [graph Hgraph].
    unfold get_prop_m. rewrite Htok, Hgraph. unfold ret, validateSession.
    rewrite andb_false_r.
    match goal with
    | |- context [if ?b then _ else _] => destruct b
    end.
    + simpl. repeat split; try assumption.
      exists (EvEnvRead :: cache_segment ok ++ [EvValidate tok true]). split.
      * rewrite Ht, <- !app_assoc. reflexivity.
      * simpl. repeat constructor.
    + simpl. repeat split; try assumption.
      exists (EvEnvRead :: cache_segment ok ++ [EvValidate tok false]). split.
      * rewrite Ht, <- !app_assoc. reflexivity.
      * simpl. repeat constructor.
Qed.

End ReadOnly.

(** X11.  Without the interactive flag resolveAuth only reads: it asks
    the validator, reads CLIPPY_TOKEN and reads the cache file, and
    nothing else.  The cache file is left as it is even when it is expired,
    unparsable or holds a rejected token; the lock is not touched, no
    browser is launched, no refresh is started and the call does not
    sleep. *)
Theorem noninteractive_resolution_is_read_only (RT : JsRuntime) (E : Env)
  (options : ResolveOptions) (w : World) :
  default false (ro_interactive options) = false ->
  let run := resolveAuth E options w in
  cacheFile (snd run) = cacheFile w
  /\ lockFile (snd run) = lockFile w
  /\ now (snd run) = now w
  /\ contextOpen (snd run) = contextOpen w
  /\ spawned (snd run) = spawned w
  /\ Forall readonly_event (events_of (resolveAuth E options) w).
Proof.
  intros Hquiet. cbv zeta.
  destruct (@resolveAuth_noninteractive RT E options w Hquiet)
    as [Hc [Hl [Hn [Hx [Hs [evs [Ht Hall]]]]]]].
  repeat split; try assumption.
  rewrite (events_of_spec _ _ _ Ht). exact Hall.
Qed.

Lemma noninteractive_resolution_is_read_only_witness :
  let E := Sample.env None "OTHER" Sample.no_fault [Sample.outlook_request "NEW"] in
  let w := Sample.world (Some "1699999999000") Sample.expiring_cache in
  let run := @resolveAuth Reference.runtime E (Sample.options None false) w in
  fst run =
    Ok (auth_failure
          "No token available. Set CLIPPY_TOKEN env var or run with --interactive to extract via browser.")
  /\ cacheFile (snd run) = Sample.expiring_cache
  /\ lockFile (snd run) = Some "1699999999000"
  /\ now (snd run) = Sample.t0.
Proof.
  cbv zeta.
  destruct (@noninteractive_resolution_is_read_only Reference.runtime
              (Sample.env None "OTHER" Sample.no_fault [Sample.outlook_request "NEW"])
              (Sample.options None false)
              (Sample.world (Some "1699999999000") Sample.expiring_cache)
              eq_refl) as [Hc [Hl [Hn _]]].
  split; [ vm_compute; reflexivity | ].
  split; [ exact Hc | split; [ exact Hl | exact Hn ] ].
Defined.

(** X12.  A caller-supplied token that the validator accepts is returned
    at once, as given and without a graph token: the validation is the
    only event of the run, so the environment is not read and the cache
    is neither read nor updated.  The same holds for an accepted
    CLIPPY_TOKEN when the caller supplied no token. *)
Theorem valid_supplied_token_is_returned (RT : JsRuntime) (E : Env)
  (options : ResolveOptions) (w : World) (tok : string) :
  str_truthy tok = true ->
  fetch_inbox E (now w) ("Bearer " ++ tok)%string = FetchStatus true ->
  (ro_token options = Some tok ->
   resolveAuth E options w =
     (Ok (auth_success (JString tok) JUndefined),
      log_event w (EvValidate (JString tok) true)))
  /\ (opt_truthy (ro_token options) = false ->
      env_CLIPPY_TOKEN E = Some tok ->
      resolveAuth E options w =
        (Ok (auth_success (JString tok) JUndefined),
         log_event (log_event w EvEnvRead) (EvValidate (JString tok) true))).
Proof.
  intros Htok Hgood.
  assert (Hv : forall w', now w' = now w ->
             validateSession E (JString tok) w' =
               (Ok true, log_event w' (EvValidate (JString tok) true))).
  { intros w' Hnow. unfold validateSession. rewrite Hnow.
    change (to_string (JString tok)) with tok. rewrite Hgood. reflexivity. }
  split.
  - intros Hcli. unfold resolveAuth. rewrite Hcli. cbv zeta.
    change (opt_truthy (Some tok)) with (str_truthy tok). rewrite Htok.
    change (opt_js (Some tok)) with (JString tok).
    unfold bind. rewrite (Hv w eq_refl). reflexivity.
  - intros Hcli Henv. unfold resolveAuth. cbv zeta. rewrite Hcli.
    unfold resolveAuth_env. unfold bind at 1. unfold read_env. rewrite Henv.
    change (opt_truthy (Some tok)) with (str_truthy tok). rewrite Htok.
    change (opt_js (Some tok)) with (JString tok).
    unfold bind. rewrite (Hv (log_event w EvEnvRead) eq_refl). reflexivity.
Qed.

Lemma valid_supplied_token_is_returned_witness :
  let E := Sample.env (Some "ENV") "GOOD" Sample.no_fault [] in
  @resolveAuth Reference.runtime E (Sample.options (Some "GOOD") true)
    (Sample.world None Sample.expiring_cache) =
  (Ok (auth_success (JString "GOOD") JUndefined),
   log_event (Sample.world None Sample.expiring_cache)
             (EvValidate (JString "GOOD") true)).
Proof.
  cbv zeta.
  destruct (@valid_supplied_token_is_returned Reference.runtime
              (Sample.env (Some "ENV") "GOOD" Sample.no_fault [])
              (Sample.options (Some "GOOD") true)
              (Sample.world None Sample.expiring_cache) "GOOD"
              eq_refl eq_refl) as [Hcli _].
  apply Hcli. reflexivity.
Defined.

Section CacheHit.
Context {RT : JsRuntime}.
Variable E : Env.

Lemma resolveAuth_cache_hit (interactive : bool) (w : World) (hit : CacheHit)
  (tok graph : JsValue) :
  fs_fault E (ReadFile TOKEN_CACHE_FILE) = false ->
  cache_lookup (cacheFile w) (now w) = Some hit ->
  get_prop (cached hit) "token" = Val tok ->
  get_prop (cached hit) "graphToken" = Val graph ->
  fetch_inbox E (now w) ("Bearer " ++ to_string tok)%string = FetchStatus true ->
  let run := resolveAuth_cache E interactive w in
  let due := needsRefresh hit && interactive in
  fst run = Ok (auth_success tok graph)
  /\ spawned (snd run) = (if due then S (spawned w) else spawned w)
  /\ cacheFile (snd run) = cacheFile w
  /\ lockFile (snd run) = lockFile w
  /\ now (snd run) = now w
  /\ exists ok,
       trace (snd run) =
         trace w ++ cache_segment ok ++ EvValidate tok true :: spawn_segment due.
Proof.
  intros Hread Hhit Htok Hgraph Hgood. cbv zeta.
  unfold resolveAuth_cache, bind.
  destruct (getCachedToken_run E w) as [ok Hrun].
  rewrite Hrun, Hread, Hhit. cbv beta iota.
  unfold get_prop_m. rewrite Htok, Hgraph. unfold ret, validateSession.
  cbv beta iota zeta. cbn [now log_event]. cbn [append] in Hgood |- *.
  rewrite !Hgood. cbv beta iota.
  destruct (needsRefresh hit && interactive); simpl;
    (do 5 (split; [ reflexivity | ]));
    exists ok; rewrite <- !app_assoc; reflexivity.
Qed.

End CacheHit.

(** X13.  When the cached token is still accepted by the validator,
    resolveAuth returns it, together with the cached graph token, without
    waiting for anything: no browser is launched and the cache file is
    not rewritten during the call.  A refresh is started, detached, exactly
    when the cached token expires within five minutes and the caller is
    interactive. *)
Theorem refresh_is_started_when_due (RT : JsRuntime) (E : Env)
  (options : ResolveOptions) (w : World) (hit : CacheHit) (tok graph : JsValue) :
  opt_truthy (ro_token options) = false ->
  opt_truthy (env_CLIPPY_TOKEN E) = false ->
  fs_fault E (ReadFile TOKEN_CACHE_FILE) = false ->
  cache_lookup (cacheFile w) (now w) = Some hit ->
  get_prop (cached hit) "token" = Val tok ->
  get_prop (cached hit) "graphToken" = Val graph ->
  fetch_inbox E (now w) ("Bearer " ++ to_string tok)%string = FetchStatus true ->
  let run := resolveAuth E options w in
  let due := needsRefresh hit && default false (ro_interactive options) in
  fst run = Ok (auth_success tok graph)
  /\ spawned (snd run) = (if due then S (spawned w) else spawned w)
  /\ cacheFile (snd run) = cacheFile w
  /\ lockFile (snd run) = lockFile w
  /\ now (snd run) = now w
  /\ exists ok,
       events_of (resolveAuth E options) w =
         EvEnvRead :: cache_segment ok ++ EvValidate tok true :: spawn_segment due.
Proof.
  intros Hcli Henv Hread Hhit Htok Hgraph Hgood. cbv zeta.
  unfold events_of, resolveAuth. cbv zeta. rewrite Hcli.
  unfold resolveAuth_env, bind, read_env. cbv beta iota. rewrite Henv.
  destruct (@resolveAuth_cache_hit RT E (default false (ro_interactive options))
              (log_event w EvEnvRead) hit tok graph Hread Hhit Htok Hgraph Hgood)
    as [Hres [Hs [Hc [Hl [Hn [ok Ht]]]]]].
  split; [ exact Hres | split; [ exact Hs | split; [ exact Hc | ] ] ].
  split; [ exact Hl | split; [ exact Hn | ] ].
  exists ok. rewrite Ht. simpl trace. rewrite <- app_assoc. rewrite skipn_exact.
  reflexivity.
Qed.

Lemma refresh_is_started_when_due_witness :
  let E := Sample.env None "OLD" Sample.no_fault [Sample.outlook_request "NEW"] in
  let w := Sample.world None Sample.expiring_cache in
  let run := @resolveAuth Reference.runtime E (Sample.options None true) w in
  fst run = Ok (auth_success (JString "OLD") JUndefined)
  /\ spawned (snd run) = 1%nat
  /\ cacheFile (snd run) = Sample.expiring_cache
  /\ now (snd run) = Sample.t0.
Proof.
  cbv zeta.
  destruct (@refresh_is_started_when_due Reference.runtime
              (Sample.env None "OLD" Sample.no_fault [Sample.outlook_request "NEW"])
              (Sample.options None true)
              (Sample.world None Sample.expiring_cache)
              {| cached := JObject [("token", JString "OLD");
                                    ("expiresAt", JNumber (Num (Sample.t0 + 60000)))];
                 needsRefresh := true |}
              (JString "OLD") JUndefined
              eq_refl eq_refl eq_refl eq_refl eq_refl eq_refl eq_refl)
    as [Hres [Hs [Hc [_ [Hn _]]]]].
  split; [ exact Hres | split; [ exact Hs | split; [ exact Hc | exact Hn ] ] ].
Defined.

Lemma attempts_cache_write (tok : string) (graph : option string) (l : list Event) :
  Forall (cache_write_event tok graph) l -> attempts l = [].
Proof.
  induction 1 as [|e l He _ IH]; [ reflexivity | ].
  destruct e as [[]| | | | | | | |]; simpl in *; try contradiction; exact IH.
Qed.

(** X14.  The refresh that resolveAuth starts in the background never
    rejects.  It begins with a headless attempt with a 10 s timeout; when
    that attempt fails it goes on, like every headless extraction, to an
    attended attempt with a 60 s timeout.  When the extraction fails the
    cache file is left as it was; when it succeeds the token is handed to
    setCachedToken as captured. *)
Theorem background_refresh_outcome (RT : JsRuntime) (E : Env) (w : World) :
  let extraction :=
    extractTokenViaPlaywright E
      {| eo_headless := Some true; eo_timeout := Some 10000 |} w in
  let first :=
    tryExtractToken E true 10000
      (log_event w (EvCall (CallExtractTokenViaPlaywright true 10000))) in
  fst (backgroundRefresh E w) = Ok tt
  /\ attempts (events_of (backgroundRefresh E) w) =
       (true, 10000)
         :: match fst first with
            | Ok r1 => if negb (pw_success r1) then [(false, 60000)] else []
            | _ => []
            end
  /\ (forall r,
         fst extraction = Ok r -> pw_success r = false ->
         backgroundRefresh E w = (Ok tt, snd extraction)
         /\ cacheFile (snd (backgroundRefresh E w)) = cacheFile w)
  /\ (forall r tok,
         fst extraction = Ok r -> pw_success r = true -> pw_token r = Some tok ->
         backgroundRefresh E w =
           setCachedToken E tok (pw_graphToken r) (snd extraction)).
Proof.
  cbv zeta.
  destruct (extractTokenViaPlaywright_run E
              {| eo_headless := Some true; eo_timeout := Some 10000 |} w)
    as [res [evs [w1 [[Hrun Ht] [Hwf [_ Hatt]]]]]].
  simpl default in *.
  pose proof (extractTokenViaPlaywright_same_cache E
                {| eo_headless := Some true; eo_timeout := Some 10000 |} w) as Hsame.
  unfold same_cache in Hsame. rewrite Hrun in Hsame. simpl in Hsame.
  rewrite Hrun. simpl fst. simpl snd.
  unfold events_of, backgroundRefresh, try_catch, bind. rewrite Hrun.
  unfold well_formed_result in Hwf.
  destruct (pw_success res) eqn:Hok.
  - destruct Hwf as [Htok _]. rewrite Htok. cbn [andb].
    destruct (setCachedToken_steps E (default EmptyString (pw_token res))
                (pw_graphToken res) w1) as [cevs [w2 [[Hset Ht2] Hcevs]]].
    rewrite Hset. simpl.
    split; [ reflexivity | split; [ | split ] ].
    + rewrite Ht2, Ht, <- app_assoc, skipn_exact. simpl.
      rewrite attempts_app, (attempts_cache_write Hcevs), app_nil_r.
      rewrite Hatt.
      destruct (fst (tryExtractToken E true 10000
                       (log_event w (EvCall (CallExtractTokenViaPlaywright true 10000)))))
        as [r1|e|]; rewrite ?andb_true_r; reflexivity.
    + intros r Hr Hfail. injection Hr as <-. congruence.
    + intros r tok Hr _ Hsome. injection Hr as <-. rewrite Hsome in *.
      simpl in Hset. rewrite Hset. reflexivity.
  - cbn [andb]. unfold ret. simpl.
    split; [ reflexivity | split; [ | split ] ].
    + rewrite Ht, skipn_exact. simpl.
      rewrite Hatt.
      destruct (fst (tryExtractToken E true 10000
                       (log_event w (EvCall (CallExtractTokenViaPlaywright true 10000)))))
        as [r1|e|]; rewrite ?andb_true_r; reflexivity.
    + intros r Hr _. split; [ reflexivity | exact Hsame ].
    + intros r tok Hr Hsucc. injection Hr as <-. congruence.
Qed.

(** ** More on the keepalive loop *)

Section KeepaliveRun.
Context {RT : JsRuntime}.
Variable E : Env.

Lemma keepalive_frame_refl (w : World) : keepalive_frame w w.
Proof. repeat split. apply extends_with_refl. Qed.

Lemma keepalive_frame_trans (a b c : World) :
  keepalive_frame a b -> keepalive_frame b c -> keepalive_frame a c.
Proof.
  intros [Hl1 [Hc1 He1]] [Hl2 [Hc2 He2]]. repeat split; try congruence.
  eapply extends_with_trans; eassumption.
Qed.

Lemma cache_write_event_keepalive (tok : string) (graph : option string) (e : Event) :
  cache_write_event tok graph e -> keepalive_event e.
Proof.
  destruct e as [[]|[]| | | | | | |]; simpl; auto; try contradiction.
Qed.

(** setCachedToken returns normally and touches nothing but the cache
    file. *)
Lemma setCachedToken_frame (tok : string) (graph : option string) (w : World) :
  let r := setCachedToken E tok graph w in
  fst r = Ok tt
  /\ now (snd r) = now w
  /\ lockFile (snd r) = lockFile w
  /\ contextOpen (snd r) = contextOpen w
  /\ spawned (snd r) = spawned w.
Proof.
  cbv zeta.
  cbv beta delta [setCachedToken cache_expiry bind try_catch ret throw
                  writeFile mkdir emit Date_now].
  simpl.
  destruct (fs_fault E (Mkdir CONFIG_DIR)); simpl; [ repeat split | ].
  destruct (getJwtExpiration tok) as [n|];
    [ destruct (num_truthy n) | ]; simpl;
    destruct (fs_fault E (WriteFile TOKEN_CACHE_FILE)); simpl; repeat split.
Qed.

Lemma setCachedToken_keepalive (tok : string) (graph : option string) :
  respects keepalive_frame (setCachedToken E tok graph).
Proof.
  intros w.
  destruct (setCachedToken_frame tok graph w) as [_ [_ [Hl [Hc _]]]].
  repeat split; try assumption.
  eapply extends_with_weaken;
    [ apply cache_write_event_keepalive | apply setCachedToken_events ].
Qed.

(** The cache write of a turn, lines 312-314. *)
Lemma keepalive_store (st : option string * option string) (w : World) :
  let store := match fst st with
               | Some lastToken =>
                   if str_truthy lastToken
                   then setCachedToken E lastToken (or_undefined (snd st))
                   else ret tt
               | None => ret tt
               end in
  fst (store w) = Ok tt
  /\ now (snd (store w)) = now w
  /\ keepalive_frame w (snd (store w)).
Proof.
  cbv zeta. destruct (fst st) as [lastToken|];
    [ destruct (str_truthy lastToken) | ];
    try (repeat split; apply extends_with_refl).
  destruct (setCachedToken_frame lastToken (or_undefined (snd st)) w)
    as [Hok [Hn _]].
  split; [ exact Hok | split; [ exact Hn | apply setCachedToken_keepalive ] ].
Qed.

(** One turn of the loop: it always comes back, after the two sleeps. *)
Lemma keepalive_turn_run (intervalMinutes : Z) (w : World) :
  exists w',
    keepalive_turn E intervalMinutes w = (Ok tt, w')
    /\ now w' = now w + 2000 + intervalMinutes * 60 * 1000
    /\ keepalive_frame w w'.
Proof.
  unfold keepalive_turn.
  set (w1 := log_event (advance w 2000) (EvSleep 2000)).
  assert (Hw1 : keepalive_frame w w1).
  { repeat split. exists [EvSleep 2000]. split; [ reflexivity | repeat constructor ]. }
  unfold bind at 1. unfold sleep at 1. fold w1.
  unfold bind at 1. unfold last_tokens.
  set (st := fold_left keepalive_on_request (page_traffic E (now w1)) (None, None)).
  destruct (keepalive_store st w1) as [Hok [Hn Hframe]].
  unfold bind at 1.
  destruct (match fst st with
            | Some lastToken =>
                if str_truthy lastToken
                then setCachedToken E lastToken (or_undefined (snd st))
                else ret tt
            | None => ret tt
            end w1) as [r w2].
  simpl in Hok, Hn, Hframe. subst r.
  set (d := intervalMinutes * 60 * 1000).
  exists (log_event (advance w2 d) (EvSleep d)).
  split; [ | split ].
  - unfold bind, sleep, try_catch, page_reload, page_goto, ret.
    repeat (simpl;
            match goal with
            | |- context [match page_reload_fails E ?t with _ => _ end] =>
                destruct (page_reload_fails E t)
            | |- context [match page_goto_fails E ?t with _ => _ end] =>
                destruct (page_goto_fails E t)
            end); reflexivity.
  - simpl. rewrite Hn. subst w1 d. simpl. lia.
  - eapply keepalive_frame_trans; [ exact Hw1 | ].
    eapply keepalive_frame_trans; [ exact Hframe | ].
    repeat split. exists [EvSleep d]. split; [ reflexivity | repeat constructor ].
Qed.

Lemma keepalive_loop_run (intervalMinutes : Z) (turns : nat) :
  forall w,
    let r := keepalive_loop E turns intervalMinutes w in
    fst r = OutOfFuel
    /\ now (snd r) =
         now w + Z.of_nat turns * (2000 + intervalMinutes * 60 * 1000)
    /\ keepalive_frame w (snd r).
Proof.
  induction turns as [|turns IH]; intros w; cbv zeta.
  - simpl. repeat split; try lia. apply extends_with_refl.
  - simpl keepalive_loop. unfold bind.
    destruct (keepalive_turn_run intervalMinutes w) as [w1 [Hrun [Hn Hf]]].
    rewrite Hrun.
    destruct (IH w1) as [Hout [Hn2 Hf2]].
    split; [ exact Hout | split ].
    + rewrite Hn2, Hn. lia.
    + eapply keepalive_frame_trans; eassumption.
Qed.

End KeepaliveRun.

Section KeepaliveStartup.
Context {RT : JsRuntime}.
Variable E : Env.

(** startKeepaliveSession up to the loop: the three calls that can throw
    are the mkdir, the launch and the first navigation. *)
Lemma startKeepaliveSession_run (turns : nat) (intervalMinutes : Z)
  (headless : option bool) (w : World) :
  let h := default false headless in
  let run := startKeepaliveSession E turns intervalMinutes headless w in
  lockFile (snd run) = lockFile w
  /\ extends_with keepalive_event w (snd run)
  /\ match fs_fault E (Mkdir PROFILE_DIR), browser_launch E (now w) h,
           page_goto_fails E (now w) with
     | true, _, _ =>
         fst run = Throw (EFAULT "mkdir") /\ contextOpen (snd run) = contextOpen w
     | false, Some e, _ =>
         fst run = Throw e /\ contextOpen (snd run) = contextOpen w
     | false, None, Some e =>
         fst run = Throw e /\ contextOpen (snd run) = true
     | false, None, None =>
         fst run = OutOfFuel /\ contextOpen (snd run) = true
         /\ now (snd run) =
              now w + Z.of_nat turns * (2000 + intervalMinutes * 60 * 1000)
     end.
Proof.
  cbv zeta. unfold startKeepaliveSession. cbv zeta.
  set (h := default false headless).
  unfold bind, mkdir, launchPersistentContext, console_log, emit, page_goto.
  destruct (fs_fault E (Mkdir PROFILE_DIR)).
  { simpl. repeat split.
    exists [EvFs (Mkdir PROFILE_DIR) false].
    split; [ reflexivity | repeat constructor; left; reflexivity ]. }
  cbn [now log_event].
  destruct (browser_launch E (now w) h) as [e|].
  { simpl. repeat split.
    exists [EvFs (Mkdir PROFILE_DIR) true; EvLaunch h].
    split; [ simpl; rewrite <- ?app_assoc; reflexivity
           | repeat constructor; left; reflexivity ]. }
  cbn [now log_event set_context].
  destruct (page_goto_fails E (now w)) as [e|].
  { simpl. repeat split.
    eexists. split; [ simpl; rewrite <- ?app_assoc; reflexivity | ].
    repeat constructor; left; reflexivity. }
  match goal with
  | |- context [keepalive_loop E turns intervalMinutes ?w0] =>
      destruct (keepalive_loop_run E intervalMinutes turns w0) as [Hout [Hn [Hl [Hc He]]]];
      destruct (keepalive_loop E turns intervalMinutes w0) as [r w'] eqn:Hloop
  end.
  simpl in Hout, Hn, Hl, Hc, He. subst r. simpl.
  split; [ exact Hl | split; [ | split; [ reflexivity | split; [ exact Hc | exact Hn ] ] ] ].
  eapply extends_with_trans; [ | exact He ].
  eexists. split; [ simpl; rewrite <- ?app_assoc; reflexivity | ].
  repeat constructor; left; reflexivity.
Qed.

End KeepaliveStartup.


(** X16.  The keepalive session never takes the cross-process lock: it
    launches its browser on the profile directory without calling
    acquireLock, reads and writes no lock marker, and leaves the marker of
    whoever holds the lock as it is.  Its only effects are the profile
    directory, the browser, the console, its sleeps and the cache writes;
    it never closes the browser context. *)
Theorem keepalive_ignores_the_lock (RT : JsRuntime) (E : Env) (turns : nat)
  (intervalMinutes : Z) (headless : option bool) (w : World) :
  let run := startKeepaliveSession E turns intervalMinutes headless w in
  lockFile (snd run) = lockFile w
  /\ Forall keepalive_event
            (events_of (startKeepaliveSession E turns intervalMinutes headless) w).
Proof.
  cbv zeta.
  pose proof (startKeepaliveSession_run E turns intervalMinutes headless w) as Hrun.
  cbv zeta in Hrun. destruct Hrun as [Hl [He _]].
  split; [ exact Hl | ].
  apply extends_with_events in He. tauto.
Qed.

(** X17.  A keepalive turn stores the token of the latest request that
    carried a Bearer token to outlook.office.com, not the first one: a
    newer token replaces an older one in the cache.  The stored record
    takes its expiry from the token, or 55 minutes from the write. *)
Theorem keepalive_caches_latest_token (RT : JsRuntime) (E : Env)
  (intervalMinutes : Z) (w : World) (pre post : list Request) (r : Request)
  (tok : string) :
  page_traffic E (now w + 2000) = pre ++ r :: post ->
  bearer_for "outlook.office.com" r = Some tok ->
  (forall q, In q post -> bearer_for "outlook.office.com" q = None) ->
  str_truthy tok = true ->
  fs_fault E (Mkdir CONFIG_DIR) = false ->
  fs_fault E (WriteFile TOKEN_CACHE_FILE) = false ->
  let graph := or_undefined
                 (snd (fold_left keepalive_on_request (pre ++ r :: post) (None, None))) in
  In (EvCached {| ct_token := tok; ct_graphToken := graph;
                  ct_expiresAt := recorded_expiry tok (now w + 2000) |})
     (events_of (keepalive_turn E intervalMinutes) w).
Proof.
  intros Htraffic Hr Hpost Htok Hmkdir Hwrite. cbv zeta.
  pose proof (keepalive_on_request_last pre post r Hr Hpost) as Hlast.
  apply keepalive_turn_stores; try assumption.
  rewrite Htraffic.
  destruct (fold_left keepalive_on_request (pre ++ r :: post) (None, None))
    as [a b].
  simpl in Hlast. subst a. reflexivity.
Qed.

Lemma keepalive_caches_latest_token_witness :
  let E := Sample.env None "T" Sample.no_fault
             [Sample.outlook_request "OLDER"; Sample.outlook_request "NEWER"] in
  In (EvCached {| ct_token := "NEWER"; ct_graphToken := None;
                  ct_expiresAt := Num (Sample.t0 + 2000 + 3300000) |})
     (events_of (@keepalive_turn Reference.runtime E 10) (Sample.world None None)).
Proof.
  cbv zeta.
  apply (@keepalive_caches_latest_token Reference.runtime
           (Sample.env None "T" Sample.no_fault
              [Sample.outlook_request "OLDER"; Sample.outlook_request "NEWER"])
           10 (Sample.world None None)
           [Sample.outlook_request "OLDER"] [] (Sample.outlook_request "NEWER")
           "NEWER" eq_refl eq_refl).
  - intros q [].
  - reflexivity.
  - reflexivity.
  - reflexivity.
Defined.

(** ** The commands *)

(** X18.  The keepalive command validates its interval before anything
    else happens: the option (10 when it is absent or empty) is read with
    parseInt, and when the result is NaN or below 1 the action prints
    Interval must be >= 1 minute on the error stream and exits with code
    1 without creating a directory or launching a browser.  Otherwise it
    starts the keepalive session with that whole number of minutes, and
    then never returns normally. *)
Theorem keepalive_interval_is_validated (RT : JsRuntime) (E : Env)
  (turns : nat) (options : KeepaliveOptions) (w : World) :
  let given := or_default (ko_interval options) "10" in
  let run := keepaliveCommand_action E turns options w in
  (parseInt given = NaN \/ (exists n, parseInt given = Num n /\ n < 1) ->
   run = (Ok {| ka_ending := Exited 1;
                ka_console := [Stderr "Interval must be >= 1 minute"] |}, w))
  /\ (forall n,
         parseInt given = Num n -> 1 <= n ->
         let session :=
           startKeepaliveSession E turns n (Some (default false (ko_headless options))) w in
         snd run = snd session
         /\ (forall outcome, fst run <> Ok outcome)
         /\ (fst session = OutOfFuel -> fst run = OutOfFuel)).
Proof.
  cbv zeta. unfold keepaliveCommand_action. cbv zeta. split.
  - intros [Hnan | [n [Hn Hlt]]]; rewrite ?Hnan, ?Hn; simpl; [ reflexivity | ].
    unfold js_lt. assert (Hc : (n <? 1) = true) by (apply Z.ltb_lt; lia).
    rewrite Hc. reflexivity.
  - intros n Hn Hge. rewrite Hn. unfold js_lt.
    assert (Hc : (n <? 1) = false) by (apply Z.ltb_ge; lia).
    rewrite Hc. cbn [isNaN orb]. cbv beta iota zeta. unfold bind.
    pose proof (@startKeepaliveSession_run RT E turns n
                  (Some (default false (ko_headless options))) w) as Hrun.
    cbv zeta in Hrun. destruct Hrun as [_ [_ Hcase]].
    destruct (startKeepaliveSession E turns n
                (Some (default false (ko_headless options))) w) as [r w'].
    simpl fst in *. simpl snd in *.
    assert (Hnot : forall u, r <> Ok u).
    { intros u Hu.
      destruct (fs_fault E (Mkdir PROFILE_DIR));
        [ | destruct (browser_launch E (now w)
                        (default false (Some (default false (ko_headless options)))));
            [ | destruct (page_goto_fails E (now w)) ] ];
        destruct Hcase as [Hres _]; congruence. }
    destruct r as [u|e|]; [ destruct (Hnot u eq_refl) | | ];
      (split; [ reflexivity | split; [ intros outcome; discriminate | ] ]);
      intros H; try discriminate; reflexivity.
Qed.

Lemma keepalive_interval_is_validated_witness :
  let E := Sample.env None "T" Sample.no_fault [] in
  let run := fun interval =>
    @keepaliveCommand_action Reference.runtime E 2
      {| ko_interval := interval; ko_headless := None |} (Sample.world None None) in
  let rejected := (Ok {| ka_ending := Exited 1;
                         ka_console := [Stderr "Interval must be >= 1 minute"] |},
                   Sample.world None None) in
  run (Some "0") = rejected
  /\ run (Some "soon") = rejected
  /\ run (Some "0.5") = rejected
  /\ now (snd (run (Some "5 minutes"))) = Sample.t0 + 2 * (2000 + 5 * 60 * 1000)
  /\ now (snd (run None)) = Sample.t0 + 2 * (2000 + 10 * 60 * 1000).
Proof.
  cbv zeta.
  set (E := Sample.env None "T" Sample.no_fault []).
  split; [ | split; [ | split; [ | split ] ] ].
  - apply (@keepalive_interval_is_validated Reference.runtime E 2
             {| ko_interval := Some "0"; ko_headless := None |}
             (Sample.world None None)).
    right. exists 0. split; [ reflexivity | lia ].
  - apply (@keepalive_interval_is_validated Reference.runtime E 2
             {| ko_interval := Some "soon"; ko_headless := None |}
             (Sample.world None None)).
    left. reflexivity.
  - apply (@keepalive_interval_is_validated Reference.runtime E 2
             {| ko_interval := Some "0.5"; ko_headless := None |}
             (Sample.world None None)).
    right. exists 0. split; [ reflexivity | lia ].
  - destruct (@keepalive_interval_is_validated Reference.runtime E 2
                {| ko_interval := Some "5 minutes"; ko_headless := None |}
                (Sample.world None None)) as [_ Hstart].
    destruct (Hstart 5 eq_refl ltac:(lia)) as [Hsnd _].
    rewrite Hsnd. vm_compute. reflexivity.
  - destruct (@keepalive_interval_is_validated Reference.runtime E 2
                {| ko_interval := None; ko_headless := None |}
                (Sample.world None None)) as [_ Hstart].
    destruct (Hstart 10 eq_refl ltac:(lia)) as [Hsnd _].
    rewrite Hsnd. vm_compute. reflexivity.
Defined.

Lemma drop_all (n : nat) (s : string) :
  (String.length s <= n)%nat -> drop n s = EmptyString.
Proof.
  revert s. induction n as [|n IH]; intros s Hlen.
  - destruct s; [ reflexivity | simpl in Hlen; lia ].
  - destruct s as [|c s]; [ reflexivity | ].
    simpl in *. apply IH. lia.
Qed.

Lemma drop_split (n : nat) (s : string) :
  (n <= String.length s)%nat ->
  exists hidden,
    s = (hidden ++ drop n s)%string
    /\ String.length hidden = n
    /\ String.length (drop n s) = (String.length s - n)%nat.
Proof.
  revert s. induction n as [|n IH]; intros s Hlen.
  - exists EmptyString. simpl. repeat split. lia.
  - destruct s as [|c s]; [ simpl in Hlen; lia | ].
    simpl in Hlen. destruct (IH s ltac:(lia)) as [hidden [Hs [Hh Hd]]].
    exists (String c hidden). simpl. rewrite <- Hs, Hh. repeat split. exact Hd.
Qed.

(** [s.slice(-8)] shows the whole of a short string and the last eight
    characters of a longer one. *)
Lemma slice_last_cases (s : string) :
  ((String.length s <= 8)%nat -> slice_last 8 s = s)
  /\ ((8 <= String.length s)%nat ->
      exists hidden,
        s = (hidden ++ slice_last 8 s)%string
        /\ String.length hidden = (String.length s - 8)%nat
        /\ String.length (slice_last 8 s) = 8%nat).
Proof.
  unfold slice_last. split.
  - intros Hshort.
    replace (String.length s - 8)%nat with 0%nat by lia. reflexivity.
  - intros Hlong.
    destruct (@drop_split (String.length s - 8) s ltac:(lia)) as [hidden [Hs [Hh Hd]]].
    exists hidden. repeat split; try assumption. lia.
Qed.

Section Login.
Context {RT : JsRuntime}.
Variable E : Env.
Variable C : CommandEnv.

Lemma login_save_run (check : bool) (w : World) :
  exists saved warning w',
    login_save E C check w = (Ok (saved, warning), w')
    /\ now w' = now w /\ cacheFile w' = cacheFile w /\ lockFile w' = lockFile w
    /\ (check = true -> saved = None /\ warning = [] /\ w' = w)
    /\ (check = false ->
        fs_fault E (Mkdir CONFIG_DIR) = false ->
        config_write_fails C (now w) = None ->
        saved = Some (JSON_stringify_indented C
                        (JObject [("lastValidatedAt", JString (toISOString C (now w)))]))
        /\ warning = [])
    /\ (check = false ->
        fs_fault E (Mkdir CONFIG_DIR) = true \/ config_write_fails C (now w) <> None ->
        saved = None /\ warning = [Stderr "Warning: Could not save config"]).
Proof.
  unfold login_save. destruct check; simpl.
  - do 3 eexists. split; [ reflexivity | ].
    repeat split; intros; discriminate.
  - unfold try_catch, bind, ensureConfigDir, mkdir, Date_now, saveConfig, ret.
    destruct (fs_fault E (Mkdir CONFIG_DIR)) eqn:Hmk; simpl;
      [ | destruct (config_write_fails C (now w)) as [e|] eqn:Hwr; simpl ];
      (do 3 eexists; split; [ reflexivity | ]);
      (do 3 (split; [ reflexivity | ]));
      (split; [ intros; discriminate | ]);
      (split; [ intros _ Ha Hb | intros _ [Ha | Hb] ]);
      try discriminate; try congruence; split; reflexivity.
Qed.

End Login.

(** X19.  When resolveAuth fails, the login command prints the error of
    the resolution and its help text on the error stream and exits with
    code 1.  Nothing else happens: the config directory is not created,
    the config file is not written and Session valid is not printed. *)
Theorem login_failure_exits (RT : JsRuntime) (E : Env) (C : CommandEnv)
  (options : LoginOptions) (w : World) (r : AuthResult) :
  let resolution :=
    resolveAuth E {| ro_token := lg_token options;
                     ro_interactive := lg_interactive options |} w in
  fst resolution = Ok r ->
  success r = false ->
  exists msg,
    error r = Some msg
    /\ str_truthy msg = true
    /\ loginCommand_action E C options w =
         (Ok {| lo_ending := Exited 1;
                lo_console :=
                  Stdout "Checking OWA session..."
                    :: Stderr (newline ++ "Error: " ++ msg)%string
                    :: login_help;
                lo_config := None |},
          snd resolution).
Proof.
  cbv zeta. intros Hres Hfail.
  pose proof (@resolveAuth_well_formed RT E _ w r Hres) as Hwf.
  unfold well_formed_auth in Hwf. rewrite Hfail in Hwf.
  destruct Hwf as [_ [_ [msg [Herr Hmsg]]]].
  exists msg. split; [ exact Herr | split; [ exact Hmsg | ] ].
  unfold loginCommand_action, bind.
  destruct (resolveAuth E {| ro_token := lg_token options;
                             ro_interactive := lg_interactive options |} w)
    as [res w1].
  simpl in Hres. subst res. rewrite Hfail, Herr. reflexivity.
Qed.

Lemma login_failure_exits_witness :
  let E := Sample.env None "GOOD" Sample.no_fault [] in
  let C := {| toISOString := Z_to_string;
              JSON_stringify_indented := Reference.stringify_or_undefined;
              config_write_fails := fun _ => None |} in
  let run := @loginCommand_action Reference.runtime E C
               {| lg_token := Some "BAD"; lg_interactive := None; lg_check := None |}
               (Sample.world None None) in
  exists outcome,
    fst run = Ok outcome
    /\ lo_ending outcome = Exited 1
    /\ lo_config outcome = None
    /\ nth 1 (lo_console outcome) (Stdout EmptyString) =
         Stderr (newline ++ "Error: Provided token is invalid or expired")%string.
Proof.
  cbv zeta.
  destruct (@login_failure_exits Reference.runtime
              (Sample.env None "GOOD" Sample.no_fault [])
              {| toISOString := Z_to_string;
                 JSON_stringify_indented := Reference.stringify_or_undefined;
                 config_write_fails := fun _ => None |}
              {| lg_token := Some "BAD"; lg_interactive := None; lg_check := None |}
              (Sample.world None None)
              (auth_failure "Provided token is invalid or expired")
              eq_refl eq_refl) as [msg [Herr [_ Hrun]]].
  injection Herr as <-.
  eexists. rewrite Hrun. repeat split.
Defined.

(** X20.  When resolveAuth succeeds with a string token, the login
    command returns normally and prints Session valid and the last eight
    characters of the token after three asterisks: a token of eight
    characters or fewer is printed in full, of a longer one everything but
    the last eight characters stays hidden.  With --check nothing is
    written; without it the config directory is created and the time of
    validation saved, and a failure to save only adds a warning. *)
Theorem login_success_prints_token_tail (RT : JsRuntime) (E : Env)
  (C : CommandEnv) (options : LoginOptions) (w : World) (r : AuthResult)
  (tok : string) :
  let resolution :=
    resolveAuth E {| ro_token := lg_token options;
                     ro_interactive := lg_interactive options |} w in
  let check := default false (lg_check options) in
  let t := now (snd resolution) in
  fst resolution = Ok r ->
  success r = true ->
  token r = JString tok ->
  exists saved warning,
    fst (loginCommand_action E C options w) =
      Ok {| lo_ending := Returned;
            lo_console :=
              Stdout "Checking OWA session..." :: warning ++
                [Stdout (newline ++ check_mark ++ " Session valid")%string;
                 Stdout ("  Token: ***" ++ slice_last 8 tok)%string;
                 Stdout (newline ++
                         "You are logged in to OWA. Run `clippy whoami` to see account details.")%string];
            lo_config := saved |}
    /\ cacheFile (snd (loginCommand_action E C options w)) = cacheFile (snd resolution)
    /\ (check = true ->
        saved = None /\ warning = []
        /\ snd (loginCommand_action E C options w) = snd resolution)
    /\ (check = false ->
        fs_fault E (Mkdir CONFIG_DIR) = false ->
        config_write_fails C t = None ->
        saved = Some (JSON_stringify_indented C
                        (JObject [("lastValidatedAt", JString (toISOString C t))]))
        /\ warning = [])
    /\ (check = false ->
        fs_fault E (Mkdir CONFIG_DIR) = true \/ config_write_fails C t <> None ->
        saved = None /\ warning = [Stderr "Warning: Could not save config"])
    /\ ((String.length tok <= 8)%nat -> slice_last 8 tok = tok)
    /\ ((8 <= String.length tok)%nat ->
        exists hidden,
          tok = (hidden ++ slice_last 8 tok)%string
          /\ String.length hidden = (String.length tok - 8)%nat
          /\ String.length (slice_last 8 tok) = 8%nat).
Proof.
  cbv zeta. intros Hres Hok Htok.
  unfold loginCommand_action, bind.
  destruct (resolveAuth E {| ro_token := lg_token options;
                             ro_interactive := lg_interactive options |} w)
    as [res w1].
  simpl in Hres. subst res. simpl snd. rewrite Hok, Htok. cbn [negb]. cbv beta iota.
  destruct (@login_save_run E C (default false (lg_check options)) w1)
    as [saved [warning [w2 [Hrun [Hn [Hc [_ [Hcheck [Hsaved Hfailed]]]]]]]]].
  rewrite Hrun. simpl.
  destruct (slice_last_cases tok) as [Hshort Hlong].
  exists saved, warning.
  split; [ reflexivity | split; [ exact Hc | ] ].
  split; [ exact Hcheck | split; [ exact Hsaved | split; [ exact Hfailed | ] ] ].
  split; assumption.
Qed.

Lemma login_success_prints_token_tail_witness :
  let E := Sample.env None "eyJ0eXAi.secret" Sample.no_fault [] in
  let C := {| toISOString := Z_to_string;
              JSON_stringify_indented := Reference.stringify_or_undefined;
              config_write_fails := fun _ => Some (EFAULT "EACCES") |} in
  let run := @loginCommand_action Reference.runtime E C
               {| lg_token := Some "eyJ0eXAi.secret"; lg_interactive := None;
                  lg_check := None |}
               (Sample.world None None) in
  exists outcome,
    fst run = Ok outcome
    /\ lo_ending outcome = Returned
    /\ lo_config outcome = None
    /\ nth 1 (lo_console outcome) (Stdout EmptyString) =
         Stderr "Warning: Could not save config"
    /\ nth 3 (lo_console outcome) (Stdout EmptyString) =
         Stdout "  Token: ***i.secret".
Proof.
  cbv zeta.
  destruct (@login_success_prints_token_tail Reference.runtime
              (Sample.env None "eyJ0eXAi.secret" Sample.no_fault [])
              {| toISOString := Z_to_string;
                 JSON_stringify_indented := Reference.stringify_or_undefined;
                 config_write_fails := fun _ => Some (EFAULT "EACCES") |}
              {| lg_token := Some "eyJ0eXAi.secret"; lg_interactive := None;
                 lg_check := None |}
              (Sample.world None None)
              (auth_success (JString "eyJ0eXAi.secret") JUndefined)
              "eyJ0eXAi.secret" eq_refl eq_refl eq_refl)
    as [saved [warning [Hrun [_ [_ [_ [Hfailed _]]]]]]].
  destruct (Hfailed eq_refl) as [-> ->].
  { right. cbn [config_write_fails]. discriminate. }
  eexists. split; [ exact Hrun | ]. repeat split.
Defined.

(** ** From the browser to the cache and back *)

Section EndToEnd.
Context {RT : JsRuntime}.
Variable E : Env.
Hypothesis fs_ok : forall op, fs_fault E op = false.

(** Without a caller token and without CLIPPY_TOKEN, resolveAuth reads
    the environment and goes on to the cache. *)
Lemma resolveAuth_reaches_cache (options : ResolveOptions) (w : World) :
  opt_truthy (ro_token options) = false ->
  opt_truthy (env_CLIPPY_TOKEN E) = false ->
  resolveAuth E options w =
    resolveAuth_cache E (default false (ro_interactive options))
                      (log_event w EvEnvRead).
Proof.
  intros Hcli Henv. unfold resolveAuth. cbv zeta. rewrite Hcli.
  unfold resolveAuth_env, bind at 1, read_env. rewrite Henv. reflexivity.
Qed.

(** The default extraction when the headless attempt captures a token. *)
Lemma extractTokenViaPlaywright_completes (w : World) (seen : list Request)
  (elapsed : Z) (tok : string) :
  lockFile w = None ->
  browser_launch E (now w) true = None ->
  browser_session E (now w) true 15000 = Completes seen elapsed ->
  fst (fold_left on_request seen (None, None)) = Some tok ->
  str_truthy tok = true ->
  exists w',
    extractTokenViaPlaywright E {| eo_headless := None; eo_timeout := None |} w =
      (Ok {| pw_success := true; pw_token := Some tok;
             pw_graphToken :=
               or_undefined (snd (fold_left on_request seen (None, None)));
             pw_error := None |}, w')
    /\ now w' = now w + elapsed
    /\ lockFile w' = None
    /\ cacheFile w' = cacheFile w
    /\ contextOpen w' = false.
Proof.
  intros Hfree Hlaunch Hsession Hfirst Htok.
  set (w0 := log_event w (EvCall (CallExtractTokenViaPlaywright true 15000))).
  destruct (@tryExtractToken_completes E fs_ok true 15000 w0 seen elapsed
              Hfree Hlaunch Hsession) as [Hres [Hnow [Hlock [Hctx _]]]].
  destruct (tryExtractToken_steps E true 15000 w0)
    as [res [levs [sevs [w1 [[Hrun _] [_ [_ [_ [Hcache _]]]]]]]]].
  rewrite Hrun in Hres, Hnow, Hlock, Hctx. simpl in Hres, Hnow, Hlock, Hctx.
  rewrite Hfirst in Hres. simpl in Hres. rewrite Htok in Hres.
  injection Hres as Hres.
  exists w1. split; [ | repeat split; assumption ].
  unfold extractTokenViaPlaywright, bind, emit. simpl default. fold w0.
  rewrite Hrun, Hres. reflexivity.
Qed.

End EndToEnd.

Section Resolution.
Context {RT : JsRuntime}.
Variable E : Env.
Hypothesis fs_ok : forall op, fs_fault E op = false.

(** Priority 4 when the headless attempt captures a token the validator
    accepts: the token is returned and stored. *)
Lemma resolveAuth_extract_stores (w : World) (seen : list Request)
  (elapsed : Z) (tok : string) :
  lockFile w = None ->
  browser_launch E (now w) true = None ->
  browser_session E (now w) true 15000 = Completes seen elapsed ->
  fst (fold_left on_request seen (None, None)) = Some tok ->
  str_truthy tok = true ->
  fetch_inbox E (now w + elapsed) ("Bearer " ++ tok)%string = FetchStatus true ->
  let graph := or_undefined (snd (fold_left on_request seen (None, None))) in
  let c := {| ct_token := tok; ct_graphToken := graph;
              ct_expiresAt := recorded_expiry tok (now w + elapsed) |} in
  exists w',
    resolveAuth_extract E true w =
      (Ok (auth_success (JString tok) (opt_js graph)), w')
    /\ cacheFile w' = Some (JSON_stringify (CachedToken_to_js c))
    /\ lockFile w' = None
    /\ contextOpen w' = false.
Proof.
  intros Hfree Hlaunch Hsession Hfirst Htok Hgood. cbv zeta.
  destruct (@extractTokenViaPlaywright_completes E fs_ok w seen elapsed tok
              Hfree Hlaunch Hsession Hfirst Htok)
    as [w1 [Hrun [Hnow [Hlock [_ Hctx]]]]].
  set (graph := or_undefined (snd (fold_left on_request seen (None, None)))) in *.
  set (w2 := log_event w1 (EvValidate (JString tok) true)).
  assert (Hv : validateSession E (JString tok) w1 = (Ok true, w2)).
  { unfold validateSession. rewrite Hnow.
    change (to_string (JString tok)) with tok. rewrite Hgood. reflexivity. }
  destruct (setCachedToken_written E tok graph w2 (fs_ok _) (fs_ok _)) as [Hcache _].
  destruct (setCachedToken_frame E tok graph w2) as [Hok [_ [Hl [Hc _]]]].
  change (now w2) with (now w1) in Hcache. rewrite Hnow in Hcache.
  change (lockFile w2) with (lockFile w1) in Hl.
  change (contextOpen w2) with (contextOpen w1) in Hc.
  exists (snd (setCachedToken E tok graph w2)).
  split; [ | split; [ exact Hcache | split; congruence ] ].
  unfold resolveAuth_extract, bind. rewrite Hrun.
  cbn [pw_success pw_token pw_graphToken andb default].
  change (opt_truthy (Some tok)) with (str_truthy tok). rewrite Htok.
  rewrite Hv. cbv beta iota.
  destruct (setCachedToken E tok graph w2) as [res w3].
  simpl in Hok. subst res. reflexivity.
Qed.

End Resolution.

(** X21.  From the browser to the cache and back.  With no token supplied,
    a cache that holds nothing usable (absent, unparsable or expired), a
    free lock and a working file system, an interactive resolveAuth whose
    headless browser captures a token the validator accepts returns that
    token, stores it and leaves neither a lock marker nor an open browser.  Provided JSON.parse gives back the record
    JSON.stringify was given, every later resolveAuth that is given no
    token returns the same token from the cache without launching a
    browser, as long as the clock is before the recorded expiry and the
    validator still accepts the token. *)
Theorem extracted_token_is_cached_and_served (RT : JsRuntime) (E : Env)
  (options : ResolveOptions) (w : World) (pre post : list Request) (r : Request)
  (elapsed : Z) (tok : string) (v : JsValue) :
  (forall op, fs_fault E op = false) ->
  opt_truthy (ro_token options) = false ->
  opt_truthy (env_CLIPPY_TOKEN E) = false ->
  ro_interactive options = Some true ->
  cache_lookup (cacheFile w) (now w) = None ->
  lockFile w = None ->
  browser_launch E (now w) true = None ->
  browser_session E (now w) true 15000 = Completes (pre ++ r :: post) elapsed ->
  (forall q, In q pre -> opt_truthy (bearer_for "outlook.office.com" q) = false) ->
  bearer_for "outlook.office.com" r = Some tok ->
  str_truthy tok = true ->
  fetch_inbox E (now w + elapsed) ("Bearer " ++ tok)%string = FetchStatus true ->
  let graph := or_undefined
                 (snd (fold_left on_request (pre ++ r :: post) (None, None))) in
  let c := {| ct_token := tok; ct_graphToken := graph;
              ct_expiresAt := recorded_expiry tok (now w + elapsed) |} in
  JSON_parse (JSON_stringify (CachedToken_to_js c)) = Some v ->
  get_prop v "expiresAt" = Val (JNumber (ct_expiresAt c)) ->
  get_prop v "token" = Val (JString tok) ->
  get_prop v "graphToken" = Val (opt_js graph) ->
  let first := resolveAuth E options w in
  fst first = Ok (auth_success (JString tok) (opt_js graph))
  /\ cacheFile (snd first) = Some (JSON_stringify (CachedToken_to_js c))
  /\ lockFile (snd first) = None
  /\ contextOpen (snd first) = false
  /\ forall options' w' expiresAt,
       opt_truthy (ro_token options') = false ->
       cacheFile w' = cacheFile (snd first) ->
       ct_expiresAt c = Num expiresAt ->
       now w' < expiresAt ->
       fetch_inbox E (now w') ("Bearer " ++ tok)%string = FetchStatus true ->
       fst (resolveAuth E options' w') =
         Ok (auth_success (JString tok) (opt_js graph))
       /\ launches (events_of (resolveAuth E options') w') = [].
Proof.
  intros Hok Hcli Henv Hint Hnocache Hfree Hlaunch Hsession Hpre Hr Htok Hgood
         graph c Hparse Hexp Hptok Hpgraph.
  cbv zeta.
  pose proof (on_request_first pre post r Hpre Hr Htok) as Hfirst.
  (* the first resolution *)
  destruct (getCachedToken_run E (log_event w EvEnvRead)) as [rd Hrun].
  set (w1 := log_event (log_event (log_event w EvEnvRead) (EvCall CallGetCachedToken))
                       (EvFs (ReadFile TOKEN_CACHE_FILE) rd)) in *.
  assert (Hone : resolveAuth E options w = resolveAuth_extract E true w1).
  { rewrite (@resolveAuth_reaches_cache RT E options w Hcli Henv). rewrite Hint.
    unfold resolveAuth_cache, bind. rewrite Hrun, (Hok _).
    cbn [cacheFile now log_event default]. rewrite Hnocache. reflexivity. }
  destruct (@resolveAuth_extract_stores RT E Hok w1 (pre ++ r :: post) elapsed tok
              Hfree Hlaunch Hsession Hfirst Htok Hgood)
    as [w2 [Hres [Hcache [Hlock Hctx]]]].
  fold graph in Hres, Hcache. change (now w1) with (now w) in Hcache.
  fold c in Hcache.
  rewrite Hone, Hres. simpl fst. simpl snd.
  split; [ reflexivity | split; [ exact Hcache | split; [ exact Hlock | ] ] ].
  split; [ exact Hctx | ].
  (* a later resolution *)
  intros options' w' expiresAt Hcli' Hfile Hnum Hbefore Hgood'.
  rewrite Hcache in Hfile.
  rewrite Hnum in Hexp.
  assert (Hhit : cache_lookup (cacheFile (log_event w' EvEnvRead))
                              (now (log_event w' EvEnvRead)) =
                 Some {| cached := v;
                         needsRefresh := expiresAt - now w' <? REFRESH_THRESHOLD |}).
  { simpl cacheFile. simpl now. rewrite Hfile.
    rewrite (cache_lookup_number _ (now w') Hparse Hexp).
    assert (Hc : (expiresAt <=? now w') = false) by (apply Z.leb_gt; lia).
    rewrite Hc. reflexivity. }
  destruct (@resolveAuth_cache_hit RT E (default false (ro_interactive options'))
              (log_event w' EvEnvRead) _ (JString tok) (opt_js graph)
              (Hok _) Hhit Hptok Hpgraph Hgood')
    as [Hres' [_ [_ [_ [_ [ok Ht]]]]]].
  unfold events_of.
  rewrite (@resolveAuth_reaches_cache RT E options' w' Hcli' Henv).
  split; [ exact Hres' | ].
  rewrite Ht. simpl trace. rewrite <- app_assoc, skipn_exact.
  match goal with
  | |- context [spawn_segment ?b] => destruct b
  end; reflexivity.
Qed.

Lemma extracted_token_is_cached_and_served_witness :
  let E := Sample.env None "NEW" Sample.no_fault [Sample.outlook_request "NEW"] in
  let first := @resolveAuth Reference.runtime E (Sample.options None true)
                 (Sample.world None None) in
  let later := @resolveAuth Reference.runtime E (Sample.options None false)
                 (advance (snd first) 600000) in
  fst first = Ok (auth_success (JString "NEW") JUndefined)
  /\ lockFile (snd first) = None
  /\ fst later = Ok (auth_success (JString "NEW") JUndefined)
  /\ launches (events_of (@resolveAuth Reference.runtime E (Sample.options None false))
                         (advance (snd first) 600000)) = [].
Proof.
  cbv zeta.
  destruct (@extracted_token_is_cached_and_served Reference.runtime
              (Sample.env None "NEW" Sample.no_fault [Sample.outlook_request "NEW"])
              (Sample.options None true) (Sample.world None None)
              [] [] (Sample.outlook_request "NEW") 2000 "NEW"
              (JObject [("token", JString "NEW");
                        ("expiresAt", JNumber (Num (Sample.t0 + 2000 + 3300000)))])
              (fun _ => eq_refl) eq_refl eq_refl eq_refl eq_refl eq_refl eq_refl
              eq_refl (fun q (H : In q []) => match H with end)
              eq_refl eq_refl eq_refl eq_refl eq_refl eq_refl eq_refl)
    as [Hfirst [_ [Hlock [_ Hlater]]]].
  split; [ exact Hfirst | split; [ exact Hlock | ] ].
  apply (Hlater (Sample.options None false) _ (Sample.t0 + 2000 + 3300000));
    vm_compute; reflexivity.
Defined.

(** ** More on the expiry oracle *)

(** X22.  getJwtExpiration reads the expiry from the middle segment
    alone: two three-segment tokens with the same payload segment get the
    same expiry whatever their header and signature segments are.  The
    signature is not checked, and the header is not even decoded. *)
Theorem expiry_ignores_header_and_signature (RT : JsRuntime)
  (h h' p s s' : string) :
  has_dot h = false -> has_dot h' = false -> has_dot p = false ->
  has_dot s = false -> has_dot s' = false ->
  getJwtExpiration (h ++ "." ++ p ++ "." ++ s)%string =
    getJwtExpiration (h' ++ "." ++ p ++ "." ++ s')%string.
Proof.
  intros Hh Hh' Hp Hs Hs'.
  destruct (JSON_parse (base64url_decode p)) as [payload|] eqn:Hparse.
  - rewrite (getJwtExpiration_payload h p s Hh Hp Hs Hparse).
    rewrite (getJwtExpiration_payload h' p s' Hh' Hp Hs' Hparse).
    reflexivity.
  - rewrite (getJwtExpiration_unparsable h p s Hh Hp Hs Hparse).
    rewrite (getJwtExpiration_unparsable h' p s' Hh' Hp Hs' Hparse).
    reflexivity.
Qed.

Lemma expiry_ignores_header_and_signature_witness :
  @getJwtExpiration Reference.runtime Sample.jwt_with_exp =
    @getJwtExpiration Reference.runtime "x.eyJleHAiOjE3MDAwMDM2MDB9.forged"
  /\ @getJwtExpiration Reference.runtime "x.eyJleHAiOjE3MDAwMDM2MDB9.forged" =
       Some (Num 1700003600000).
Proof.
  split; [ | vm_compute; reflexivity ].
  apply (@expiry_ignores_header_and_signature Reference.runtime
           "eyJhbGciOiJub25lIn0" "x" "eyJleHAiOjE3MDAwMDM2MDB9" "c2ln" "forged");
    reflexivity.
Defined.
